(** * Davidson block eigensolver of qimpy ([qimpy/electrons/_davidson.py])

    A shallow embedding of [class Davidson] and of the facts its
    specification states about it.

    Numbers.  Python floats are read as exact real numbers ([R]) and
    complex coefficients as pairs of reals ([complex]); integers that can
    be negative are [Z], sizes and indices are [nat].

    Arrays.  A torch tensor is a nested list in the layout of the source:
    wavefunction coefficients are indexed [spin][k][band][spinor][basis],
    subspace matrices [spin][k][row][column], eigenvalues and norms
    [spin][k][band].  Results of array operations are built by tabulation
    over the shape they have in the source.

    Effects.  [Davidson.__call__] logs progress lines, applies the
    Hamiltonian and may raise: it is a function in a small state and error
    monad whose state is the log of events. *)

From Stdlib Require Import Reals Lra Lia List ZArith Bool Arith.
Import ListNotations.

Open Scope R_scope.

Set Implicit Arguments.

(* ================================================================== *)
(** * Scalars *)
(* ================================================================== *)

(** Boolean comparisons of floats ([<], [>] of torch and Python). *)
Definition Rltb (x y : R) : bool := if Rlt_dec x y then true else false.
Definition Rgtb (x y : R) : bool := Rltb y x.
Definition Reqb (x y : R) : bool := if Req_dec_T x y then true else false.

(** Complex numbers, the dtype of wavefunction coefficients. *)
Record complex : Type := mkC { Re : R; Im : R }.

Definition C0 : complex := mkC 0 0.
Definition C1 : complex := mkC 1 0.
Definition RtoC (x : R) : complex := mkC x 0.
Definition Cadd (z w : complex) : complex := mkC (Re z + Re w) (Im z + Im w).
Definition Copp (z : complex) : complex := mkC (- Re z) (- Im z).
Definition Csub (z w : complex) : complex := mkC (Re z - Re w) (Im z - Im w).
Definition Cmul (z w : complex) : complex :=
  mkC (Re z * Re w - Im z * Im w) (Re z * Im w + Im z * Re w).
Definition Cconj (z : complex) : complex := mkC (Re z) (- Im z).
(** A complex number times / divided by a real one. *)
Definition Cscale (x : R) (z : complex) : complex := mkC (x * Re z) (x * Im z).
Definition Cdivr (z : complex) (x : R) : complex := mkC (Re z / x) (Im z / x).
Definition Ceqb (z w : complex) : bool := Reqb (Re z) (Re w) && Reqb (Im z) (Im w).

Declare Scope cplx_scope.
Delimit Scope cplx_scope with C.
Bind Scope cplx_scope with complex.
Infix "+" := Cadd : cplx_scope.
Infix "-" := Csub : cplx_scope.
Infix "*" := Cmul : cplx_scope.
Notation "- z" := (Copp z) : cplx_scope.

(** Finite sums [f 0 + ... + f (n-1)]. *)
Fixpoint Csum (n : nat) (f : nat -> complex) : complex :=
  match n with
  | O => C0
  | S m => Cadd (Csum m f) (f m)
  end.

Fixpoint Rsum (n : nat) (f : nat -> R) : R :=
  match n with
  | O => 0
  | S m => Rsum m f + f m
  end.

(* ================================================================== *)
(** * Arrays *)
(* ================================================================== *)

(** [tab n f] is the list [f 0; ...; f (n-1)]. *)
Definition tab (A : Type) (n : nat) (f : nat -> A) : list A := map f (seq 0 n).

Definition tab2 (A : Type) (n1 n2 : nat) (f : nat -> nat -> A) :=
  tab n1 (fun i => tab n2 (f i)).
Definition tab3 (A : Type) (n1 n2 n3 : nat) (f : nat -> nat -> nat -> A) :=
  tab n1 (fun i => tab2 n2 n3 (f i)).
Definition tab4 (A : Type) (n1 n2 n3 n4 : nat)
    (f : nat -> nat -> nat -> nat -> A) :=
  tab n1 (fun i => tab3 n2 n3 n4 (f i)).
Definition tab5 (A : Type) (n1 n2 n3 n4 n5 : nat)
    (f : nat -> nat -> nat -> nat -> nat -> A) :=
  tab n1 (fun i => tab4 n2 n3 n4 n5 (f i)).

(** Tensor types of the source. *)
Abbreviation tensor3R := (list (list (list R))).               (* [spin][k][band] *)
Abbreviation matrix := (list (list complex)).                  (* [row][column] *)
Abbreviation tensor4 := (list (list (list (list complex)))).   (* [spin][k][row][col] *)
Abbreviation band := (list (list complex)).                    (* [spinor][basis] *)
Abbreviation coeffs :=
  (list (list (list (list (list complex))))).   (* [spin][k][band][spinor][basis] *)

(** Element access; out of range reads give zero and are never relied on. *)
Definition ix3 (E : tensor3R) (s k b : nat) : R :=
  nth b (nth k (nth s E []) []) 0.
Definition ix2 (M : matrix) (i j : nat) : complex := nth j (nth i M []) C0.
Definition ix4 (M : tensor4) (s k i j : nat) : complex :=
  ix2 (nth k (nth s M []) []) i j.
Definition ix5 (C : coeffs) (s k b sp g : nat) : complex :=
  ix2 (nth b (nth k (nth s C []) []) []) sp g.

(** Shapes. *)
Definition shape1 (A : Type) (n : nat) (l : list A) : Prop := length l = n.
Definition shape2 (A : Type) (n1 n2 : nat) (l : list (list A)) : Prop :=
  length l = n1 /\ Forall (shape1 n2) l.
Definition shape3 (A : Type) (n1 n2 n3 : nat) (l : list (list (list A))) :=
  length l = n1 /\ Forall (shape2 n2 n3) l.
Definition shape4 (A : Type) (n1 n2 n3 n4 : nat)
    (l : list (list (list (list A)))) :=
  length l = n1 /\ Forall (shape3 n2 n3 n4) l.
Definition shape5 (A : Type) (n1 n2 n3 n4 n5 : nat)
    (l : list (list (list (list (list A))))) :=
  length l = n1 /\ Forall (shape4 n2 n3 n4 n5) l.

(** Extents of the leading axes of a nested list ([tensor.shape[i]]). *)
Definition len0 (A : Type) (l : list A) : nat := length l.
Definition len1 (A : Type) (l : list (list A)) : nat := length (nth 0%nat l []).
Definition len2 (A : Type) (l : list (list (list A))) : nat :=
  len1 (nth 0%nat l []).
Definition len3 (A : Type) (l : list (list (list (list A)))) : nat :=
  len2 (nth 0%nat l []).
Definition len4 (A : Type) (l : list (list (list (list (list A))))) : nat :=
  len3 (nth 0%nat l []).

(** [map] under the two leading (spin, k) axes: slices such as
    [T[:, :, n:]] act on the third axis only. *)
Definition map_sk (A B : Type) (f : A -> B) (T : list (list A)) : list (list B) :=
  map (map f) T.

(* ------------------------------------------------------------------ *)
(** ** torch operations used by the solver *)
(* ------------------------------------------------------------------ *)

(** [torch.eye(n)]. *)
Definition eye (n : nat) : matrix :=
  tab2 n n (fun i j => if Nat.eqb i j then C1 else C0).

(** [torch.diag_embed(E)]: one diagonal matrix per (spin, k). *)
Definition diag_embed (E : tensor3R) : tensor4 :=
  map_sk (fun e : list R =>
            tab2 (length e) (length e)
                 (fun i j => if Nat.eqb i j then RtoC (nth i e 0) else C0)) E.

(** [torch.zeros(dims)] for a 4-axis tensor. *)
Definition zeros4 (n1 n2 n3 n4 : nat) : tensor4 :=
  tab4 n1 n2 n3 n4 (fun _ _ _ _ => C0).

(** [M.conj().transpose(-2, -1)]. *)
Definition conj_transpose (M : tensor4) : tensor4 :=
  map_sk (fun m : matrix =>
            tab2 (len1 m) (length m) (fun i j => Cconj (ix2 m j i))) M.

(** Slice assignment [T[:, :, r0:r1, c0:c1] = B]: the entries of [T] inside
    the window are replaced by those of [B]. *)
Definition in_slice (lo hi i : nat) : bool := Nat.leb lo i && Nat.ltb i hi.

Definition set_block (r0 r1 c0 c1 : nat) (B T : tensor4) : tensor4 :=
  tab4 (len0 T) (len1 T) (len2 T) (len3 T)
       (fun s k i j =>
          if in_slice r0 r1 i && in_slice c0 c1 j
          then ix4 B s k (i - r0) (j - c0) else ix4 T s k i j).

(** In-place addition into a window, [T[:, :, r0:r1, c0:c1] += B], where [B]
    has leading shape [1, 1] and is broadcast over spin and k
    ([torch.eye(n)[None, None]]). *)
Definition add_block_bcast (r0 r1 c0 c1 : nat) (B : matrix) (T : tensor4)
    : tensor4 :=
  tab4 (len0 T) (len1 T) (len2 T) (len3 T)
       (fun s k i j =>
          if in_slice r0 r1 i && in_slice c0 c1 j
          then Cadd (ix4 T s k i j) (ix2 B (i - r0) (j - c0))
          else ix4 T s k i j).

(** [torch.abs(E - E')] on same-shape real tensors. *)
Definition abs_diff (E E' : tensor3R) : tensor3R :=
  tab3 (len0 E) (len1 E) (len2 E)
       (fun s k b => Rabs (ix3 E s k b - ix3 E' s k b)).

(** Slices along the band axis. *)
Definition bands_from (A : Type) (n : nat) (T : list (list (list A))) :=
  map_sk (@skipn A n) T.                                (* T[:, :, n:] *)
Definition bands_upto (A : Type) (n : nat) (T : list (list (list A))) :=
  map_sk (@firstn A n) T.                               (* T[..., :n] *)

(** [V[:, :, :r, :c]] and [V[:, :, r:, :c]]. *)
Definition rows_upto_cols_upto (r c : nat) (V : tensor4) : tensor4 :=
  map_sk (fun m : matrix => map (@firstn complex c) (firstn r m)) V.
Definition rows_from_cols_upto (r c : nat) (V : tensor4) : tensor4 :=
  map_sk (fun m : matrix => map (@firstn complex c) (skipn r m)) V.

(* ------------------------------------------------------------------ *)
(** ** Wavefunction arithmetic *)
(* ------------------------------------------------------------------ *)

(** Modelled from the spec: the [Wavefunction] class of the repository
    (section 6, "Basis metric ... overlap/inner-product operations between
    orbital blocks") is not part of the sources at hand.  Its arithmetic is
    the usual one on coefficient arrays: [C.n_bands()] is the extent of the
    band axis. *)
Definition n_bands_of (C : coeffs) : nat := len2 C.

(** Modelled from the spec: [C ^ D], the matrix of inner products
    [<C_i | D_j>] per spin and k, conjugating the left argument. *)
Definition dot (C D : coeffs) : tensor4 :=
  tab4 (len0 C) (len1 C) (len2 C) (len2 D)
       (fun s k i j =>
          Csum (len3 C) (fun sp =>
          Csum (len4 C) (fun g =>
            Cmul (Cconj (ix5 C s k i sp g)) (ix5 D s k j sp g)))).

(** Modelled from the spec: [C @ V], the bands of [C] mixed by the columns
    of [V]: band [j] of the result is [sum_i C_i V[i, j]]. *)
Definition matmul (C : coeffs) (V : tensor4) : coeffs :=
  tab5 (len0 C) (len1 C) (len3 V) (len3 C) (len4 C)
       (fun s k j sp g =>
          Csum (len2 C) (fun i => Cmul (ix5 C s k i sp g) (ix4 V s k i j))).

(** Modelled from the spec: [A + B] / [A += B] and [A - B] on coefficients. *)
Definition coeffs_add (A B : coeffs) : coeffs :=
  tab5 (len0 A) (len1 A) (len2 A) (len3 A) (len4 A)
       (fun s k b sp g => Cadd (ix5 A s k b sp g) (ix5 B s k b sp g)).
Definition coeffs_sub (A B : coeffs) : coeffs :=
  tab5 (len0 A) (len1 A) (len2 A) (len3 A) (len4 A)
       (fun s k b sp g => Csub (ix5 A s k b sp g) (ix5 B s k b sp g)).

(** Modelled from the spec: [C * X] for a real tensor [X] of shape
    [spin, k, band, 1, 1], each band scaled by its own factor. *)
Definition coeffs_mul_band (C : coeffs) (X : tensor3R) : coeffs :=
  tab5 (len0 C) (len1 C) (len2 C) (len3 C) (len4 C)
       (fun s k b sp g => Cscale (ix3 X s k b) (ix5 C s k b sp g)).

(* ================================================================== *)
(** * The environment of the solver *)
(* ================================================================== *)

(** MPI collectives.  One process is modelled; what the other ranks of a
    communicator contribute to a collective is part of the run
    configuration, tagged by the iteration in which the call is made. *)
Definition allreduce (A : Type) (op : A -> A -> A) (mine : A) (others : list A)
    : A :=
  fold_left op others mine.

(** [self.rc]. *)
Record RunConfig : Type := {
  n_procs_b : nat;
  (** [comm_b.Bcast(buffer)]: the buffer afterwards (the root's data). *)
  comm_b_Bcast : nat -> tensor3R -> tensor3R;
  (** Values of the other ranks in [comm_k.allreduce(_, SUM)]. *)
  comm_k_others : nat -> list R;
  (** Values of the other ranks in [comm_kb.allreduce(_, MAX)] and in
      [comm_kb.allreduce(_, MIN)]. *)
  comm_kb_others_max : nat -> list R;
  comm_kb_others_min : nat -> list nat
}.

(** [electrons.basis]. *)
Record Basis : Type := {
  n_tot : nat;
  n_min : nat;
  get_ke_mine : list (list R);        (* [basis.get_ke(basis.mine)], [k][basis] *)
  wk : list R
}.

(** Methods of the wavefunction class that are not array arithmetic. *)
Record WavefunctionOps : Type := {
  overlap : coeffs -> coeffs;                            (* [C.overlap()] *)
  norm_ke : coeffs -> tensor3R;                          (* [C.norm('ke')] *)
  norm_band : coeffs -> tensor3R;                        (* [C.norm('band')] *)
  (** [C.randomize_selected(i_spin, i_k, i_band, seed)], the block after. *)
  randomize_selected :
    coeffs -> list nat -> list nat -> list nat -> nat -> coeffs
}.

(** [self.electrons], with the fields the solver reads. *)
Record Electrons : Type := {
  rc : RunConfig;
  basis : Basis;
  wfn : WavefunctionOps;
  n_spins : nat;
  nk_mine : nat;                                         (* [kpoints.n_mine] *)
  n_bands : nat;
  n_bands_extra : nat;
  w_spin : R;
  hamiltonian : coeffs -> coeffs
}.

(** The dense solvers [torch.linalg.eigh] and [qp.utils.eighg]; [None] is a
    raised [LinAlgError]. *)
Record DenseSolvers : Type := {
  eigh : tensor4 -> option (tensor3R * tensor4);
  eighg : tensor4 -> tensor4 -> option (tensor3R * tensor4)
}.

(** [class Davidson]: the attributes set by [__init__]. *)
Record Davidson : Type := {
  linalg : DenseSolvers;
  electrons : Electrons;
  n_iterations : Z;
  eig_threshold : R
}.

(** [self._norm_cut = np.sqrt(electrons.basis.n_tot * 1E-15)]. *)
Definition _norm_cut (self : Davidson) : R :=
  sqrt (INR (n_tot (basis (electrons self))) * (/ 10 ^ 15)).

(** [C.dot(D, overlap=True)].  Modelled from the spec: the inner products
    under the overlap metric, [C ^ D.overlap()]. *)
Definition dot_overlap (w : WavefunctionOps) (C D : coeffs) : tensor4 :=
  dot C (overlap w D).

(* ------------------------------------------------------------------ *)
(** ** Effects: log, operator applications, exceptions *)
(* ------------------------------------------------------------------ *)

Inductive event : Type :=
| ApplyH (C : coeffs)                 (* [electrons.hamiltonian(C)] was called *)
| LogProgress (inner : bool) (iteration : nat) (Eband : R)
              (deig_max : option R) (n_eigs_done : option nat)
| LogConverged (inner : bool)
| LogFailed (inner : bool).           (* "Failed to converge" *)

Inductive exn : Type :=
| ValueError (n_bands_max half : nat)
| LinAlgError
| RuntimeError.

Definition M (A : Type) : Type := list event -> list event * (exn + A).

Definition ret (A : Type) (a : A) : M A := fun log => (log, inr a).
Definition raise (A : Type) (e : exn) : M A := fun log => (log, inl e).
Definition bind (A B : Type) (m : M A) (f : A -> M B) : M B :=
  fun log =>
    match m log with
    | (log', inl e) => (log', inl e)
    | (log', inr a) => f a log'
    end.
Definition emit (e : event) : M unit := fun log => (log ++ [e], inr tt).
Definition lift_solver (A : Type) (r : option A) : M A :=
  match r with
  | Some a => ret a
  | None => raise A LinAlgError
  end.

Notation "x <- m ;; k" := (bind m (fun x => k))
  (at level 61, m at next level, right associativity).
Notation "' p <- m ;; k" := (bind m (fun x => let 'p := x in k))
  (at level 61, p pattern, m at next level, right associativity).
Notation "m ;;; k" := (bind m (fun _ => k))
  (at level 61, right associativity).

(* ================================================================== *)
(** * [class Davidson] *)
(* ================================================================== *)

(** Python truthiness of an optional number: [None] and zero are false. *)
Definition truthy_int (n : option Z) : bool :=
  match n with Some v => negb (Z.eqb v 0) | None => false end.
Definition truthy_nat (n : option nat) : bool :=
  match n with Some v => negb (Nat.eqb v 0) | None => false end.
Definition truthy_float (x : option R) : bool :=
  match x with Some v => negb (Reqb v 0) | None => false end.

(** [Davidson._report]: one progress line, then the notices.  A line is
    kept as its fields; [deig_max] and [n_eigs_done] are printed only when
    truthy, the prefix is indented for an inner loop, and the elapsed time
    is left out. *)
Definition _report (self : Davidson) (iteration : nat) (Eband : R)
    (deig_max : option R) (n_eigs_done : option nat)
    (inner_loop converged converge_failed : bool) : M unit :=
  emit (LogProgress inner_loop iteration Eband
          (if truthy_float deig_max then deig_max else None)
          (if truthy_nat n_eigs_done then n_eigs_done else None)) ;;;
  (if converged then emit (LogConverged inner_loop) else ret tt) ;;;
  (if converge_failed then emit (LogFailed inner_loop) else ret tt).

(** The divisor of the preconditioner as a function of the ratio
    [x = ke / KEref]: [x += torch.exp(-x)]. *)
Definition precond_divisor (x : R) : R := x + exp (- x).

(** [Davidson._precondition].  [x] has shape [spin, k, band, 1, basis] (the
    kinetic energy broadcast over spin, band and spinor, the reference over
    spinor and basis); the division broadcasts it over the spinor axis. *)
Definition _precondition (self : Davidson) (Cerr : coeffs) (KEref : tensor3R)
    : coeffs :=
  let ke := get_ke_mine (basis (electrons self)) in
  let x := tab5 (len0 KEref) (len1 KEref) (len2 KEref) 1 (len1 ke)
             (fun s k b _ g => nth g (nth k ke []) 0 / ix3 KEref s k b) in
  let x := map (map (map (map (map precond_divisor)))) x in
  tab5 (len0 Cerr) (len1 Cerr) (len2 Cerr) (len3 Cerr) (len4 Cerr)
       (fun s k b sp g =>
          Cdivr (ix5 Cerr s k b sp g)
                (nth g (nth 0%nat (nth b (nth k (nth s x []) []) []) []) 0)).

(** [torch.where(mask)] on a 3-axis mask: the indices of the true entries
    in row-major order, one list per axis. *)
Definition where3_hits (mask : list (list (list bool)))
    : list (nat * nat * nat) :=
  flat_map (fun s =>
    flat_map (fun k =>
      flat_map (fun b =>
        if nth b (nth k (nth s mask []) []) false then [(s, k, b)] else [])
        (seq 0 (length (nth k (nth s mask []) []))))
      (seq 0 (length (nth s mask []))))
    (seq 0 (length mask)).

Definition where3 (mask : list (list (list bool)))
    : list nat * list nat * list nat :=
  let hits := where3_hits mask in
  (map (fun t => fst (fst t)) hits, map (fun t => snd (fst t)) hits,
   map (fun t => snd t) hits).

(** [T[i_spin, i_k, i_band] = v] (advanced indexing assignment). *)
Definition set3 (T : tensor3R) (s k b : nat) (v : R) : tensor3R :=
  tab3 (len0 T) (len1 T) (len2 T)
       (fun s' k' b' =>
          if Nat.eqb s' s && Nat.eqb k' k && Nat.eqb b' b then v
          else ix3 T s' k' b').

Fixpoint index_put (T : tensor3R) (i_spin i_k i_band : list nat) (v : R)
    : tensor3R :=
  match i_spin, i_k, i_band with
  | s :: ss, k :: ks, b :: bs => index_put (set3 T s k b v) ss ks bs v
  | _, _, _ => T
  end.

(** [Davidson._regularize]: [C] and [norm] are modified in place; the
    function returns them as they are afterwards. *)
Definition _regularize (self : Davidson) (C : coeffs) (norm : tensor3R)
    (i_iter : nat) : coeffs * tensor3R :=
  let el := electrons self in
  let norm :=
    if Nat.ltb 1 (n_procs_b (rc el)) then comm_b_Bcast (rc el) i_iter norm
    else norm in
  let low_norm := map (map (map (fun x => Rltb x (_norm_cut self)))) norm in
  let '(i_spin, i_k, i_band) := where3 low_norm in
  if Nat.eqb (length i_spin) 0 then (C, norm)
  else (randomize_selected (wfn el) C i_spin i_k i_band i_iter,
        index_put norm i_spin i_k i_band 1).

(** [Davidson._get_Eband]; [tag] names the call for the collective. *)
Definition _get_Eband (self : Davidson) (tag : nat) (E : tensor3R) : R :=
  let el := electrons self in
  let E' := bands_upto (n_bands el) E in
  allreduce Rplus
    (Rsum (len0 E') (fun s =>
     Rsum (len1 E') (fun k =>
     Rsum (len2 E') (fun b =>
       w_spin el * nth k (wk (basis el)) 0 * ix3 E' s k b))))
    (comm_k_others (rc el) tag).

(** [tensor.max()] of a real tensor; [None] on an empty tensor, where torch
    raises. *)
Definition tensor_max (T : tensor3R) : option R :=
  match concat (concat T) with
  | [] => None
  | x :: l => Some (fold_left Rmax l x)
  end.

(** The process-local part of [_check_deigs]: the largest change among the
    first [n_bands] eigenvalues and the first pending band index. *)
Definition eigs_pending (n_bands : nat) (dE : tensor3R) (eig_threshold : R)
    : list nat :=
  let dE' := bands_upto n_bands dE in
  let rows := concat dE' in                                  (* flatten(0, 1) *)
  let any := tab (len2 dE')
               (fun j => existsb (fun row => Rgtb (nth j row 0) eig_threshold)
                                 rows) in
  filter (fun j => nth j any false) (seq 0 (length any)).    (* where(...)[0] *)

Definition first_pending (n_bands : nat) (dE : tensor3R) (eig_threshold : R)
    : nat :=
  match eigs_pending n_bands dE eig_threshold with
  | j :: _ => j
  | [] => n_bands
  end.

(** [Davidson._check_deigs]. *)
Definition _check_deigs (self : Davidson) (tag : nat) (dE : tensor3R)
    (eig_threshold : R) : M (R * nat) :=
  let el := electrons self in
  let n_bands := n_bands el in
  match tensor_max (bands_upto n_bands dE) with
  | None => raise _ RuntimeError
  | Some local_max =>
      let deig_max :=
        allreduce Rmax local_max (comm_kb_others_max (rc el) tag) in
      let n_eigs_done :=
        allreduce Nat.min (first_pending n_bands dE eig_threshold)
                  (comm_kb_others_min (rc el) tag) in
      ret (deig_max, n_eigs_done)
  end.

(** The variables of [__call__] that live across iterations. *)
Record loop_state : Type := {
  st_C : coeffs;
  st_HC : coeffs;
  st_E : tensor3R;
  st_n_eigs_done : nat
}.

(** The assembly of the expanded overlap matrix, lines 141-151. *)
Definition assemble_overlap (self : Davidson) (n_bands_cur n_bands_new : nat)
    (C Cexp : coeffs) : tensor4 :=
  let el := electrons self in
  let C_OC := eye n_bands_cur in                       (* already orthonormal *)
  let C_OCexp := dot_overlap (wfn el) C Cexp in
  let Cexp_OC := conj_transpose C_OCexp in
  let Cexp_OCexp := dot_overlap (wfn el) Cexp Cexp in
  let C_OC_new := zeros4 (n_spins el) (nk_mine el) n_bands_new n_bands_new in
  let C_OC_new := add_block_bcast 0 n_bands_cur 0 n_bands_cur C_OC C_OC_new in
  let C_OC_new :=
    set_block 0 n_bands_cur n_bands_cur n_bands_new C_OCexp C_OC_new in
  let C_OC_new :=
    set_block n_bands_cur n_bands_new 0 n_bands_cur Cexp_OC C_OC_new in
  set_block n_bands_cur n_bands_new n_bands_cur n_bands_new Cexp_OCexp C_OC_new.

(** The assembly of the expanded Hamiltonian matrix, lines 155-163. *)
Definition assemble_hamiltonian (self : Davidson)
    (n_bands_cur n_bands_new : nat) (E : tensor3R) (C Cexp HCexp : coeffs)
    : tensor4 :=
  let el := electrons self in
  let C_HC := diag_embed E in
  let C_HCexp := dot C HCexp in
  let Cexp_HC := conj_transpose C_HCexp in
  let Cexp_HCexp := dot Cexp HCexp in
  let C_HC_new := zeros4 (n_spins el) (nk_mine el) n_bands_new n_bands_new in
  let C_HC_new := set_block 0 n_bands_cur 0 n_bands_cur C_HC C_HC_new in
  let C_HC_new :=
    set_block 0 n_bands_cur n_bands_cur n_bands_new C_HCexp C_HC_new in
  let C_HC_new :=
    set_block n_bands_cur n_bands_new 0 n_bands_cur Cexp_HC C_HC_new in
  set_block n_bands_cur n_bands_new n_bands_cur n_bands_new Cexp_HCexp C_HC_new.

(** The subspace expansion of one iteration, lines 128-138: the normalized,
    regularized, preconditioned residual of the unconverged bands. *)
Definition expansion (self : Davidson) (i_iter : nat) (st : loop_state)
    : coeffs :=
  let el := electrons self in
  let n_eigs_done := st_n_eigs_done st in
  let E_sel := bands_from n_eigs_done (st_E st) in
  let C_sel :=
    if Nat.eqb n_eigs_done 0 then st_C st
    else bands_from n_eigs_done (st_C st) in
  let HC_sel :=
    if Nat.eqb n_eigs_done 0 then st_HC st
    else bands_from n_eigs_done (st_HC st) in
  let KEref := norm_ke (wfn el) C_sel in
  let Cexp :=
    _precondition self
      (coeffs_sub HC_sel (coeffs_mul_band (overlap (wfn el) C_sel) E_sel))
      KEref in
  let norm_exp := norm_band (wfn el) Cexp in
  let '(Cexp, norm_exp) := _regularize self Cexp norm_exp i_iter in
  coeffs_mul_band Cexp (map (map (map (fun x => 1 / x))) norm_exp).

(** The update of one iteration, lines 167-179: truncation to the lowest
    [n_bands_next] eigenpairs and rotation of the current and the expansion
    block into them.  The result is the new [C], the new [HC], the change of
    the eigenvalues [dE] and the new [E]. *)
Definition update_subspace (self : Davidson) (st : loop_state)
    (Cexp HCexp : coeffs) (E_new : tensor3R) (V_new : tensor4)
    : coeffs * coeffs * tensor3R * tensor3R :=
  let el := electrons self in
  let n_bands_max := (n_bands el + n_bands_extra el)%nat in
  let C := st_C st in
  let HC := st_HC st in
  let E := st_E st in
  let n_bands_cur := n_bands_of C in
  let n_bands_new := (n_bands_cur + n_bands_of Cexp)%nat in
  let n_bands_next := Nat.min n_bands_new n_bands_max in
  let Vcur := rows_upto_cols_upto n_bands_cur n_bands_next V_new in
  let Vexp := rows_from_cols_upto n_bands_cur n_bands_next V_new in
  let C := coeffs_add (matmul C Vcur) (matmul Cexp Vexp) in
  let HC := coeffs_add (matmul HC Vcur) (matmul HCexp Vexp) in
  let dE := abs_diff E (bands_upto n_bands_cur E_new) in
  let E := bands_upto n_bands_next E_new in
  (C, HC, dE, E).

(** One pass through the body of the [for] loop, lines 126-191.  The result
    is the state afterwards and whether the loop is left by [break]. *)
Definition iteration (self : Davidson) (n_iterations : Z) (eig_threshold : R)
    (helper inner_loop : bool) (i_iter : nat) (st : loop_state)
    : M (loop_state * bool) :=
  let el := electrons self in
  let n_bands_cur := n_bands_of (st_C st) in
  let Cexp := expansion self i_iter st in
  let n_bands_new := (n_bands_cur + n_bands_of Cexp)%nat in
  let C_OC_new := assemble_overlap self n_bands_cur n_bands_new (st_C st) Cexp in
  emit (ApplyH Cexp) ;;;
  let HCexp := hamiltonian el Cexp in
  let C_HC_new :=
    assemble_hamiltonian self n_bands_cur n_bands_new (st_E st) (st_C st)
                         Cexp HCexp in
  '(E_new, V_new) <- lift_solver (eighg (linalg self) C_HC_new C_OC_new) ;;
  let '(C, HC, dE, E) := update_subspace self st Cexp HCexp E_new V_new in
  let Eband := _get_Eband self i_iter E in
  '(deig_max, n_eigs_done) <- _check_deigs self i_iter dE eig_threshold ;;
  let converged := Nat.eqb n_eigs_done (n_bands el) in
  let converge_failed :=
    Z.eqb (Z.of_nat i_iter) n_iterations
    && negb (inner_loop || helper || converged) in
  _report self i_iter Eband (Some deig_max) (Some n_eigs_done)
          inner_loop converged converge_failed ;;;
  ret ({| st_C := C; st_HC := HC; st_E := E; st_n_eigs_done := n_eigs_done |},
       converged).

(** [for i_iter in range(i_iter, i_iter + fuel)], left early by [break]. *)
Fixpoint iterations (self : Davidson) (n_iterations : Z) (eig_threshold : R)
    (helper inner_loop : bool) (fuel i_iter : nat) (st : loop_state)
    : M loop_state :=
  match fuel with
  | O => ret st
  | S fuel' =>
      '(st', stop) <- iteration self n_iterations eig_threshold helper
                                inner_loop i_iter st ;;
      if (stop : bool) then ret st'
      else iterations self n_iterations eig_threshold helper inner_loop
                      fuel' (S i_iter) st'
  end.

(** The overrides of [__call__], lines 108-110. *)
Definition inner_loop_of (n_iterations : option Z) (eig_threshold : option R)
    (helper : bool) : bool :=
  (truthy_int n_iterations || truthy_float eig_threshold) && negb helper.

Definition n_iterations_of (self : Davidson) (arg : option Z) : Z :=
  match arg with
  | Some n => if truthy_int arg then n else n_iterations self
  | None => n_iterations self
  end.

Definition eig_threshold_of (self : Davidson) (arg : option R) : R :=
  match arg with
  | Some x => if truthy_float arg then x else eig_threshold self
  | None => eig_threshold self
  end.

(** What [__call__] hands back: the triple returned to a helper's caller
    (with [electrons.C] left [None]), or the fields stored in [electrons]. *)
Inductive outcome : Type :=
| Returned (E : tensor3R) (C HC : coeffs)
| Stored (C : coeffs) (E : tensor3R).

(** The initial subspace diagonalization, lines 117-120: the eigenvalues and
    the block and its image in the eigenbasis. *)
Definition initial_subspace (self : Davidson) (C0 : coeffs)
    : M (tensor3R * coeffs * coeffs) :=
  let el := electrons self in
  emit (ApplyH C0) ;;;
  let HC := hamiltonian el C0 in
  '(E, V) <- lift_solver (eigh (linalg self) (dot C0 HC)) ;;
  let C := matmul C0 V in
  let HC := matmul HC V in
  ret (E, C, HC).

(** [Davidson.__call__]; [C0] is [electrons.C] on entry. *)
Definition __call__ (self : Davidson) (C0 : coeffs) (n_iterations : option Z)
    (eig_threshold : option R) (helper : bool) : M outcome :=
  let el := electrons self in
  let n_bands_max := (n_bands el + n_bands_extra el)%nat in
  let inner_loop := inner_loop_of n_iterations eig_threshold helper in
  let n_iterations := n_iterations_of self n_iterations in
  let eig_threshold := eig_threshold_of self eig_threshold in
  if Nat.leb (n_min (basis el)) (2 * n_bands_max)
  then raise _ (ValueError n_bands_max (n_min (basis el) / 2))
  else
    '(E, C, HC) <- initial_subspace self C0 ;;
    let Eband := _get_Eband self 0 E in
    _report self 0 Eband None None inner_loop false false ;;;
    st <- iterations self n_iterations eig_threshold helper inner_loop
                     (Z.to_nat n_iterations) 1
                     {| st_C := C; st_HC := HC; st_E := E;
                        st_n_eigs_done := 0 |} ;;
    if helper then ret (Returned (st_E st) (st_C st) (st_HC st))
    else ret (Stored (st_C st) (st_E st)).

(* ================================================================== *)
(** * Notions used in the statements *)
(* ================================================================== *)

(** The lines an iteration logs once the solver and the convergence check
    have returned. *)
Definition iteration_lines (self : Davidson) (n_iterations : Z)
    (helper inner_loop : bool) (i_iter : nat) (E : tensor3R) (deig_max : R)
    (n_eigs_done : nat) : list event :=
  let conv := Nat.eqb n_eigs_done (n_bands (electrons self)) in
  LogProgress inner_loop i_iter (_get_Eband self i_iter E)
    (if truthy_float (Some deig_max) then Some deig_max else None)
    (if truthy_nat (Some n_eigs_done) then Some n_eigs_done else None)
  :: (if conv then [LogConverged inner_loop] else [])
  ++ (if Z.eqb (Z.of_nat i_iter) n_iterations
         && negb (inner_loop || helper || conv)
      then [LogFailed inner_loop] else []).

(** Events that are applications of the Hamiltonian, and failure notices. *)
Definition is_apply (ev : event) : bool :=
  match ev with ApplyH _ => true | _ => false end.
Definition is_failed (ev : event) : bool :=
  match ev with LogFailed _ => true | _ => false end.

(** [entry T s k b v]: the real tensor [T] has an element at index
    [s, k, b], and it is [v]. *)
Definition entry (T : tensor3R) (s k b : nat) (v : R) : Prop :=
  exists Ts Tk,
    nth_error T s = Some Ts /\ nth_error Ts k = Some Tk
    /\ nth_error Tk b = Some v.

(** A real tensor with a well-defined shape. *)
Definition rectangular (T : tensor3R) : Prop :=
  exists ns nk nb, shape3 ns nk nb T.

(** The divisor of the preconditioner in the words of the specification:
    "(reference kinetic energy + local kinetic energy)" with a correction
    term added, a function [corr] of the local-to-reference ratio. *)
Definition spec_divisor (corr : R -> R) (KEref ke : R) : R :=
  (KEref + ke) + corr (ke / KEref).

(** The index triples named by three index lists. *)
Definition zip3 (i_spin i_k i_band : list nat) : list (nat * nat * nat) :=
  combine (combine i_spin i_k) i_band.

(** The band of a block at spin [s], k-point [k] and band index [b]. *)
Definition band_at (C : coeffs) (s k b : nat) : band :=
  nth b (nth k (nth s C []) []) [].

(** The contract of [randomize_selected]: bands that are not selected are
    left as they are. *)
Definition randomize_keeps_others (w : WavefunctionOps) : Prop :=
  forall C i_spin i_k i_band seed s k b,
    ~ In (s, k, b) (zip3 i_spin i_k i_band) ->
    band_at (randomize_selected w C i_spin i_k i_band seed) s k b =
    band_at C s k b.

(** The norms [_regularize] works on: those agreed by the broadcast. *)
Definition agreed_norm (self : Davidson) (norm : tensor3R) (i_iter : nat)
    : tensor3R :=
  let r := rc (electrons self) in
  if Nat.ltb 1 (n_procs_b r) then comm_b_Bcast r i_iter norm else norm.

(** The Kronecker delta. *)
Definition delta (i j : nat) : complex := if Nat.eqb i j then C1 else C0.

(** [C] has [n] bands that are orthonormal under the overlap metric: the
    overlap matrix [C^O C] is the identity at every spin and k. *)
Definition orthonormal (w : WavefunctionOps) (ns nk n : nat) (C : coeffs)
    : Prop :=
  forall s k i j, (s < ns)%nat -> (k < nk)%nat -> (i < n)%nat -> (j < n)%nat ->
    ix4 (dot_overlap w C C) s k i j = delta i j.

(** Entry [i, j] of [V^H M V] at spin [s] and k-point [k], for [n x n]
    matrices. *)
Definition quad_form (n : nat) (V M : tensor4) (s k i j : nat) : complex :=
  Csum n (fun p => Csum n (fun q =>
    Cmul (Cmul (Cconj (ix4 V s k p i)) (ix4 M s k p q)) (ix4 V s k q j))).

(** What the solver relies on from [torch.linalg.eigh]: for an [n x n]
    matrix [M] per spin and k it returns [n] eigenvalues and a unitary
    matrix of eigenvectors, [V^H V = 1] and [V^H M V = diag(E)]. *)
Definition eigh_contract (ns nk n : nat) (M : tensor4) (E : tensor3R)
    (V : tensor4) : Prop :=
  shape3 ns nk n E /\ shape4 ns nk n n V
  /\ forall s k i j, (s < ns)%nat -> (k < nk)%nat -> (i < n)%nat ->
       (j < n)%nat ->
       Csum n (fun p => Cmul (Cconj (ix4 V s k p i)) (ix4 V s k p j))
         = delta i j
       /\ quad_form n V M s k i j = Cmul (RtoC (ix3 E s k i)) (delta i j).

(** What the solver relies on from [qp.utils.eighg]: eigenvectors that are
    orthonormal under the overlap matrix, [V^H O V = 1], and diagonalize
    the Hamiltonian matrix, [V^H H V = diag(E)]. *)
Definition eighg_contract (ns nk n : nat) (Hm Om : tensor4) (E : tensor3R)
    (V : tensor4) : Prop :=
  shape3 ns nk n E /\ shape4 ns nk n n V
  /\ forall s k i j, (s < ns)%nat -> (k < nk)%nat -> (i < n)%nat ->
       (j < n)%nat ->
       quad_form n V Om s k i j = delta i j
       /\ quad_form n V Hm s k i j = Cmul (RtoC (ix3 E s k i)) (delta i j).

(** The dense solvers of a [Davidson] object honour their contracts
    whenever they return. *)
Definition solvers_ok (ns nk : nat) (l : DenseSolvers) : Prop :=
  (forall n M E V, shape4 ns nk n n M -> eigh l M = Some (E, V) ->
                   eigh_contract ns nk n M E V)
  /\ (forall n Hm Om E V, shape4 ns nk n n Hm -> shape4 ns nk n n Om ->
                          eighg l Hm Om = Some (E, V) ->
                          eighg_contract ns nk n Hm Om E V).

(** An operator on blocks that acts on the coefficients of each band
    linearly: it keeps shapes, is additive and commutes with the mixing of
    bands. *)
Definition band_linear (ns nk nsp ng : nat) (op : coeffs -> coeffs) : Prop :=
  (forall nb C, shape5 ns nk nb nsp ng C -> shape5 ns nk nb nsp ng (op C))
  /\ (forall nb A B, shape5 ns nk nb nsp ng A -> shape5 ns nk nb nsp ng B ->
        op (coeffs_add A B) = coeffs_add (op A) (op B))
  /\ (forall nb m A V, (0 < nb)%nat ->
        shape5 ns nk nb nsp ng A -> shape4 ns nk nb m V ->
        op (matmul A V) = matmul (op A) V).

(** The overlap operator is Hermitian: [<A_i|O B_j>] is the conjugate of
    [<B_j|O A_i>]. *)
Definition overlap_hermitian (ns nk nsp ng : nat) (w : WavefunctionOps)
    : Prop :=
  forall nb nb' A B, shape5 ns nk nb nsp ng A -> shape5 ns nk nb' nsp ng B ->
    forall s k i j, (s < ns)%nat -> (k < nk)%nat -> (i < nb)%nat ->
      (j < nb')%nat ->
      ix4 (dot_overlap w A B) s k i j = Cconj (ix4 (dot_overlap w B A) s k j i).

(** [randomize_selected] returns a block of the shape it was given. *)
Definition randomize_keeps_shape (ns nk nsp ng : nat) (w : WavefunctionOps)
    : Prop :=
  forall nb C i_spin i_k i_band seed, shape5 ns nk nb nsp ng C ->
    shape5 ns nk nb nsp ng (randomize_selected w C i_spin i_k i_band seed).

(** What the solver assumes of its collaborators, for blocks with [nsp]
    spinor components and [ng] basis functions: there is a spin channel and
    a k-point, the overlap operator is linear on each band and Hermitian,
    the Hamiltonian and the randomization keep shapes, and the dense
    solvers honour their contracts. *)
Definition collaborators_ok (self : Davidson) (nsp ng : nat) : Prop :=
  let el := electrons self in
  let ns := n_spins el in
  let nk := nk_mine el in
  (0 < ns)%nat /\ (0 < nk)%nat
  /\ band_linear ns nk nsp ng (overlap (wfn el))
  /\ overlap_hermitian ns nk nsp ng (wfn el)
  /\ randomize_keeps_shape ns nk nsp ng (wfn el)
  /\ (forall nb C, shape5 ns nk nb nsp ng C ->
                   shape5 ns nk nb nsp ng (hamiltonian el C))
  /\ solvers_ok ns nk (linalg self).

(** The loop state holds [n] bands: the block, its image and the
    eigenvalues have matching shapes. *)
Definition state_shaped (self : Davidson) (nsp ng n : nat) (st : loop_state)
    : Prop :=
  let el := electrons self in
  shape5 (n_spins el) (nk_mine el) n nsp ng (st_C st)
  /\ shape5 (n_spins el) (nk_mine el) n nsp ng (st_HC st)
  /\ shape3 (n_spins el) (nk_mine el) n (st_E st).

(** Progress lines among the events. *)
Definition is_progress (ev : event) : bool :=
  match ev with LogProgress _ _ _ _ _ => true | _ => false end.

(** The invariant of the loop: the state holds [n >= n_bands] bands, the
    block is orthonormal under the overlap metric, and [HC] is the image of
    [C] under the Hamiltonian. *)
Definition subspace_inv (self : Davidson) (nsp ng n : nat) (st : loop_state)
    : Prop :=
  let el := electrons self in
  state_shaped self nsp ng n st
  /\ orthonormal (wfn el) (n_spins el) (nk_mine el) n (st_C st)
  /\ st_HC st = hamiltonian el (st_C st)
  /\ (n_bands el <= n)%nat.


(** An operator on blocks is Hermitian under the inner product of bands:
    [<A_i|op B_j>] is the conjugate of [<B_j|op A_i>]. *)
Definition operator_hermitian (ns nk nsp ng : nat) (op : coeffs -> coeffs)
    : Prop :=
  forall nb nb' A B, shape5 ns nk nb nsp ng A -> shape5 ns nk nb' nsp ng B ->
    forall s k i j, (s < ns)%nat -> (k < nk)%nat -> (i < nb)%nat ->
      (j < nb')%nat ->
      ix4 (dot A (op B)) s k i j = Cconj (ix4 (dot B (op A)) s k j i).

(** The eigenvalues [E] are the Ritz values of the [n] bands of [C] with
    image [HC]: the subspace Hamiltonian [C^HC] is [diag(E)] at every spin
    and k. *)
Definition ritz (ns nk n : nat) (C HC : coeffs) (E : tensor3R) : Prop :=
  forall s k i j, (s < ns)%nat -> (k < nk)%nat -> (i < n)%nat -> (j < n)%nat ->
    ix4 (dot C HC) s k i j = Cmul (RtoC (ix3 E s k i)) (delta i j).

(* ================================================================== *)
(** * Set-ups used in the examples *)
(* ================================================================== *)

(** A single MPI process: nothing to broadcast, no other ranks. *)
Definition rc_single : RunConfig :=
  {| n_procs_b := 1;
     comm_b_Bcast := fun _ norm => norm;
     comm_k_others := fun _ => [];
     comm_kb_others_max := fun _ => [];
     comm_kb_others_min := fun _ => [] |}.

(** Norm-conserving wavefunctions: the overlap operator is the identity,
    the band norm is the Euclidean one, the kinetic norm is the expectation
    value of the kinetic energy [ke] ([k][basis]); no band is randomized. *)
Definition Cabs2 (z : complex) : R := Re z * Re z + Im z * Im z.

Definition wfn_plain (ke : list (list R)) : WavefunctionOps :=
  {| overlap := fun C => C;
     norm_ke := fun C =>
       tab3 (len0 C) (len1 C) (len2 C) (fun s k b =>
         Rsum (len3 C) (fun sp => Rsum (len4 C) (fun g =>
           nth g (nth k ke []) 0 * Cabs2 (ix5 C s k b sp g))));
     norm_band := fun C =>
       tab3 (len0 C) (len1 C) (len2 C) (fun s k b =>
         sqrt (Rsum (len3 C) (fun sp => Rsum (len4 C) (fun g =>
           Cabs2 (ix5 C s k b sp g)))));
     randomize_selected := fun C _ _ _ _ => C |}.

(** A Hamiltonian given by a real symmetric kernel on the basis index,
    the same for every spin, k and spinor component. *)
Definition apply_kernel (K : list (list R)) (C : coeffs) : coeffs :=
  tab5 (len0 C) (len1 C) (len2 C) (len3 C) (len4 C)
       (fun s k b sp g =>
          Csum (len4 C) (fun g' =>
            Cscale (nth g' (nth g K []) 0) (ix5 C s k b sp g'))).

(** Dense solvers that fail on every input. *)
Definition no_solvers : DenseSolvers :=
  {| eigh := fun _ => None; eighg := fun _ _ => None |}.

(** One spin, one k-point, kinetic energy 1 on each of [n] basis functions. *)
Definition toy_electrons (rc : RunConfig) (n nb nb_extra : nat)
    (K : list (list R)) : Electrons :=
  {| rc := rc;
     basis := {| n_tot := n; n_min := n;
                 get_ke_mine := [repeat 1 n]; wk := [1] |};
     wfn := wfn_plain [repeat 1 n];
     n_spins := 1; nk_mine := 1;
     n_bands := nb; n_bands_extra := nb_extra;
     w_spin := 2;
     hamiltonian := apply_kernel K |}.

Definition toy_davidson (solvers : DenseSolvers) (n nb nb_extra : nat)
    (K : list (list R)) : Davidson :=
  {| linalg := solvers;
     electrons := toy_electrons rc_single n nb nb_extra K;
     n_iterations := 100;
     eig_threshold := / 10 ^ 8 |}.

(** Two ranks in [comm_kb]: in every iteration the other rank contributes a
    largest change of 3 and a first pending band 0. *)
Definition rc_pair : RunConfig :=
  {| n_procs_b := 1;
     comm_b_Bcast := fun _ norm => norm;
     comm_k_others := fun _ => [0];
     comm_kb_others_max := fun _ => [3];
     comm_kb_others_min := fun _ => [0%nat] |}.

Definition pair_davidson (n nb nb_extra : nat) : Davidson :=
  {| linalg := no_solvers;
     electrons := toy_electrons rc_pair n nb nb_extra [];
     n_iterations := 100;
     eig_threshold := / 10 ^ 8 |}.

(** One spin, k-point, band and basis function of kinetic energy [ke]. *)
Definition scalar_davidson (ke : R) : Davidson :=
  {| linalg := no_solvers;
     electrons :=
       {| rc := rc_single;
          basis := {| n_tot := 1; n_min := 1; get_ke_mine := [[ke]];
                      wk := [1] |};
          wfn := wfn_plain [[ke]];
          n_spins := 1; nk_mine := 1; n_bands := 1; n_bands_extra := 0;
          w_spin := 2;
          hamiltonian := fun C => C |};
     n_iterations := 100;
     eig_threshold := / 10 ^ 8 |}.

(** Dense solvers that answer [(E, V)] whatever they are asked; they are
    used at inputs of which [(E, V)] is the eigendecomposition. *)
Definition const_solvers (E : tensor3R) (V : tensor4) : DenseSolvers :=
  {| eigh := fun _ => Some (E, V); eighg := fun _ _ => Some (E, V) |}.

(** A Hamiltonian on five basis functions made of a 2 x 2 block with
    eigenvalues 0 and 25 and a 3 x 3 block, and the set-up with one
    requested band on it. *)
Definition K5 : list (list R) :=
  [[9; -12; 0; 0; 0];
   [-12; 16; 0; 0; 0];
   [0; 0; 74; -48; 0];
   [0; 0; -48; 46; 45];
   [0; 0; 0; 45; 31]].

Definition toy5 : Davidson := toy_davidson no_solvers 5 1 0 K5.

(** The current block [e1] with its image, and the expansion block [-e2],
    the normalized residual of [e1]. *)
Definition block_e1 : coeffs := [[[[[C1; C0; C0; C0; C0]]]]].
Definition block_me2 : coeffs := [[[[[C0; mkC (-1) 0; C0; C0; C0]]]]].

Definition st5 : loop_state :=
  {| st_C := block_e1;
     st_HC := apply_kernel K5 block_e1;
     st_E := [[[9]]];
     st_n_eigs_done := 0 |}.

(** The eigenpairs of the expanded problem [[9, 12], [12, 16]]: eigenvalues
    0 and 25, eigenvectors [(4/5, -3/5)] and [(3/5, 4/5)] as columns. *)
Definition E5_new : tensor3R := [[[0; 25]]].
Definition V5_new : tensor4 :=
  [[[[mkC (4 / 5) 0; mkC (3 / 5) 0];
     [mkC (- 3 / 5) 0; mkC (4 / 5) 0]]]].

(** Dense solvers that know the two problems of one pass on [K5] from
    [e1] -- the 1 x 1 problem [9] and the expanded problem
    [[9, 12], [12, 16]] under the identity overlap -- and fail elsewhere. *)
Fixpoint list_eqb {A : Type} (eqb : A -> A -> bool) (l1 l2 : list A)
    : bool :=
  match l1, l2 with
  | [], [] => true
  | a :: l1', b :: l2' => eqb a b && list_eqb eqb l1' l2'
  | _, _ => false
  end.

Definition tensor4_eqb : tensor4 -> tensor4 -> bool :=
  list_eqb (list_eqb (list_eqb (list_eqb Ceqb))).

Definition H5_first : tensor4 := [[[[mkC 9 0]]]].
Definition H5_new : tensor4 :=
  [[[[mkC 9 0; mkC 12 0]; [mkC 12 0; mkC 16 0]]]].
Definition O5_new : tensor4 := [[[[C1; C0]; [C0; C1]]]].

Definition table_solvers : DenseSolvers :=
  {| eigh := fun M =>
       if tensor4_eqb M H5_first then Some ([[[9]]], [[[[C1]]]]) else None;
     eighg := fun Hm Om =>
       if tensor4_eqb Hm H5_new && tensor4_eqb Om O5_new
       then Some (E5_new, V5_new) else None |}.

Definition toy5_solved : Davidson := toy_davidson table_solvers 5 1 0 K5.

(* ================================================================== *)
(** * Basic facts *)
(* ================================================================== *)

Unset Implicit Arguments.

Lemma Rltb_true (x y : R) : Rltb x y = true <-> x < y.
Proof. unfold Rltb. destruct (Rlt_dec x y); split; intros; try easy; lra. Qed.

Lemma Rltb_false (x y : R) : Rltb x y = false <-> y <= x.
Proof. unfold Rltb. destruct (Rlt_dec x y); split; intros; try easy; lra. Qed.

Lemma Reqb_true (x y : R) : Reqb x y = true <-> x = y.
Proof. unfold Reqb. destruct (Req_dec_T x y); split; intros; easy. Qed.

Lemma Reqb_refl (x : R) : Reqb x x = true.
Proof. now apply Reqb_true. Qed.

Lemma length_tab (A : Type) (n : nat) (f : nat -> A) : length (tab n f) = n.
Proof. unfold tab. now rewrite length_map, length_seq. Qed.

Lemma nth_tab (A : Type) (n : nat) (f : nat -> A) (d : A) (i : nat) :
  (i < n)%nat -> nth i (tab n f) d = f i.
Proof.
  intros Hi. unfold tab.
  rewrite (nth_indep _ d (f 0%nat)) by now rewrite length_map, length_seq.
  rewrite (map_nth f (seq 0 n) 0%nat i), seq_nth; auto.
Qed.

Lemma tab_ext (A : Type) (n : nat) (f g : nat -> A) :
  (forall i, (i < n)%nat -> f i = g i) -> tab n f = tab n g.
Proof.
  intros H. unfold tab. apply map_ext_in.
  intros i Hi. apply in_seq in Hi. apply H. lia.
Qed.

Lemma tab_nth (A : Type) (l : list A) (d : A) :
  tab (length l) (fun i => nth i l d) = l.
Proof.
  apply (nth_ext _ _ d d).
  - apply length_tab.
  - intros i Hi. rewrite length_tab in Hi. now apply nth_tab.
Qed.

(* ------------------------------------------------------------------ *)
(** ** How a call runs *)
(* ------------------------------------------------------------------ *)

(** A report extends the log by its lines and does not fail. *)
Lemma report_run (self : Davidson) (it : nat) (Eband : R) (dm : option R)
    (nd : option nat) (inner conv failed : bool) (log : list event) :
  _report self it Eband dm nd inner conv failed log =
  (log ++ LogProgress inner it Eband
            (if truthy_float dm then dm else None)
            (if truthy_nat nd then nd else None)
          :: (if conv then [LogConverged inner] else [])
          ++ (if failed then [LogFailed inner] else []),
   inr tt).
Proof.
  unfold _report, bind, emit, ret.
  destruct conv, failed; cbn; rewrite <- ?app_assoc; reflexivity.
Qed.

(** An iteration, evaluated: it applies the Hamiltonian to the expansion
    block, and then either a dense solver or the maximum fails, or the
    state is updated and the progress is logged. *)
Lemma iteration_run (self : Davidson) (n : Z) (thr : R) (helper inner : bool)
    (i : nat) (st : loop_state) (log : list event) :
  iteration self n thr helper inner i st log =
  let el := electrons self in
  let n_cur := n_bands_of (st_C st) in
  let Cexp := expansion self i st in
  let n_new := (n_cur + n_bands_of Cexp)%nat in
  let HCexp := hamiltonian el Cexp in
  match eighg (linalg self)
              (assemble_hamiltonian self n_cur n_new (st_E st) (st_C st)
                                    Cexp HCexp)
              (assemble_overlap self n_cur n_new (st_C st) Cexp) with
  | None => (log ++ [ApplyH Cexp], inl LinAlgError)
  | Some (E_new, V_new) =>
      let '(C, HC, dE, E) := update_subspace self st Cexp HCexp E_new V_new in
      match tensor_max (bands_upto (n_bands el) dE) with
      | None => (log ++ [ApplyH Cexp], inl RuntimeError)
      | Some local_max =>
          let deig_max :=
            allreduce Rmax local_max (comm_kb_others_max (rc el) i) in
          let nd :=
            allreduce Nat.min (first_pending (n_bands el) dE thr)
                      (comm_kb_others_min (rc el) i) in
          (log ++ ApplyH Cexp
               :: iteration_lines self n helper inner i E deig_max nd,
           inr ({| st_C := C; st_HC := HC; st_E := E; st_n_eigs_done := nd |},
                Nat.eqb nd (n_bands el)))
      end
  end.
Proof.
  unfold iteration, bind, emit, lift_solver. cbv zeta.
  destruct (eighg _ _ _) as [[E_new V_new]|]; [|reflexivity].
  unfold ret at 1.
  destruct (update_subspace _ _ _ _ _ _) as [[[C HC] dE] E].
  unfold _check_deigs.
  destruct (tensor_max _) as [m|]; [|reflexivity].
  unfold ret at 1. rewrite report_run. unfold ret, iteration_lines.
  rewrite <- app_assoc. reflexivity.
Qed.

Lemma iteration_lines_inner (self : Davidson) (n : Z) (helper : bool)
    (i : nat) (E : tensor3R) (dm : R) (nd : nat) :
  forallb (fun ev => negb (is_failed ev))
          (iteration_lines self n helper true i E dm nd) = true.
Proof.
  unfold iteration_lines. cbn.
  rewrite andb_false_r.
  destruct (Nat.eqb nd _); reflexivity.
Qed.

(** The loop extends the log; it never raises a [ValueError], and in
    inner-loop mode it logs no failure notice. *)
Lemma iterations_log (self : Davidson) (n : Z) (thr : R)
    (helper inner : bool) (fuel : nat) :
  forall (i : nat) (st : loop_state) (log : list event),
  exists evs,
    fst (iterations self n thr helper inner fuel i st log) = log ++ evs
    /\ (inner = true -> forallb (fun ev => negb (is_failed ev)) evs = true)
    /\ (forall m h, snd (iterations self n thr helper inner fuel i st log)
                    <> inl (ValueError m h)).
Proof.
  induction fuel as [|fuel IH]; intros i st log; cbn [iterations].
  - exists []. rewrite app_nil_r. repeat split; auto. discriminate.
  - unfold bind. rewrite iteration_run. cbv zeta.
    destruct (eighg _ _ _) as [[E_new V_new]|].
    + destruct (update_subspace _ _ _ _ _ _) as [[[C HC] dE] E].
      destruct (tensor_max _) as [m|].
      * set (lines := iteration_lines _ _ _ _ _ _ _ _).
        set (st' := Build_loop_state _ _ _ _).
        assert (Hl : inner = true ->
                     forallb (fun ev => negb (is_failed ev)) lines = true)
          by (intros ->; apply iteration_lines_inner).
        clearbody lines st'.
        destruct (Nat.eqb _ _).
        -- exists (ApplyH (expansion self i st) :: lines).
           repeat split; auto; discriminate.
        -- destruct (IH (S i) st'
                        (log ++ ApplyH (expansion self i st) :: lines))
             as [evs [He [Hf Hv]]].
           exists ((ApplyH (expansion self i st) :: lines) ++ evs).
           repeat split; auto.
           ++ rewrite He, <- app_assoc. reflexivity.
           ++ intros Hi. rewrite forallb_app. cbn.
              now rewrite (Hl Hi), (Hf Hi).
      * exists [ApplyH (expansion self i st)]. repeat split; auto; discriminate.
    + exists [ApplyH (expansion self i st)]. repeat split; auto; discriminate.
Qed.

(* ================================================================== *)
(** * The precondition on the band count (C2) *)
(* ================================================================== *)

(** The guard of [__call__]: it raises exactly when
    [2 * n_bands_max >= n_min], leaving the log as it was. *)
Lemma call_guard_raises (self : Davidson) (C0 : coeffs) (n : option Z)
    (e : option R) (helper : bool) (log : list event) :
  let el := electrons self in
  (n_min (basis el) <= 2 * (n_bands el + n_bands_extra el))%nat ->
  __call__ self C0 n e helper log =
  (log, inl (ValueError (n_bands el + n_bands_extra el)
                        (n_min (basis el) / 2))).
Proof.
  intros el H. unfold __call__. fold el.
  apply Nat.leb_le in H. rewrite H. reflexivity.
Qed.

Lemma call_guard_passes (self : Davidson) (C0 : coeffs) (n : option Z)
    (e : option R) (helper : bool) (log : list event) :
  let el := electrons self in
  (2 * (n_bands el + n_bands_extra el) < n_min (basis el))%nat ->
  exists evs r,
    __call__ self C0 n e helper log = (log ++ ApplyH C0 :: evs, r)
    /\ forall m h, r <> inl (ValueError m h).
Proof.
  intros el H. unfold __call__. fold el.
  apply Nat.leb_gt in H. rewrite H.
  unfold initial_subspace, bind, emit, lift_solver.
  destruct (eigh _ _) as [[E V]|].
  - unfold ret at 1 2. rewrite report_run.
    match goal with
    | |- context [iterations ?a ?b ?c ?d ?f ?g ?h ?st ?l] =>
        destruct (iterations_log a b c d f g h st l) as [evs [He [_ Hv]]];
        destruct (iterations a b c d f g h st l) as [log' [ex|st']]
    end; cbn [fst snd] in He, Hv; subst log'.
    + eexists; eexists. split.
      * rewrite <- !app_assoc. cbn. reflexivity.
      * intros m h Heq. apply (Hv m h). congruence.
    + destruct helper; unfold ret; rewrite <- !app_assoc; cbn;
        (eexists; eexists; split; [reflexivity | discriminate]).
  - exists [], (inl LinAlgError). split; [reflexivity|]. intros m h. discriminate.
Qed.

(** C2, at the boundary.  When [n_bands + n_bands_extra] is exactly half of
    the minimum basis size, so that it does not exceed that half,
    [__call__] still raises the [ValueError] (whose message then says that a
    number exceeds itself); the log is untouched, so the Hamiltonian has
    not been applied. *)
Theorem call_rejects_exact_half (self : Davidson) (C0 : coeffs)
    (n : option Z) (e : option R) (helper : bool) (log : list event) :
  n_min (basis (electrons self)) =
    (2 * (n_bands (electrons self) + n_bands_extra (electrons self)))%nat ->
  __call__ self C0 n e helper log =
  (log, inl (ValueError
               (n_bands (electrons self) + n_bands_extra (electrons self))
               (n_bands (electrons self) + n_bands_extra (electrons self)))).
Proof.
  intros H. rewrite call_guard_raises by (rewrite H; apply Nat.le_refl).
  rewrite H. do 3 f_equal.
  rewrite Nat.mul_comm. apply Nat.div_mul. discriminate.
Qed.

(** [n_bands = 3], [n_bands_extra = 2] against a basis of minimum size 10. *)
Lemma call_rejects_exact_half_witness :
  __call__ (toy_davidson no_solvers 10 3 2 []) [] None None false [] =
  ([], inl (ValueError 5 5)).
Proof.
  apply (call_rejects_exact_half (toy_davidson no_solvers 10 3 2 []) []
           None None false []).
  reflexivity.
Defined.

(** The scenario of the specification: 10 + 10 bands against a minimum
    basis size of 15 are refused, and nothing has been applied. *)
Example call_infeasible_scenario (K : list (list R)) (C0 : coeffs) :
  __call__ (toy_davidson no_solvers 15 10 10 K) C0 None None false [] =
  ([], inl (ValueError 20 7)).
Proof. reflexivity. Qed.

(* ================================================================== *)
(** * Overrides and reporting mode (C10) *)
(* ================================================================== *)

Lemma eig_threshold_of_zero (self : Davidson) :
  eig_threshold_of self (Some 0) = eig_threshold self.
Proof. unfold eig_threshold_of, truthy_float. now rewrite Reqb_refl. Qed.

(** What a call does once the guard has passed: the initial subspace
    problem, line 0, then the loop with the resolved budget, threshold and
    reporting mode. *)
Lemma call_run (self : Davidson) (C0 : coeffs) (n : option Z)
    (e : option R) (helper : bool) (log : list event) :
  let el := electrons self in
  (2 * (n_bands el + n_bands_extra el) < n_min (basis el))%nat ->
  __call__ self C0 n e helper log =
  match eigh (linalg self) (dot C0 (hamiltonian el C0)) with
  | None => (log ++ [ApplyH C0], inl LinAlgError)
  | Some (E, V) =>
      let run :=
        iterations self (n_iterations_of self n) (eig_threshold_of self e)
          helper (inner_loop_of n e helper)
          (Z.to_nat (n_iterations_of self n)) 1
          {| st_C := matmul C0 V; st_HC := matmul (hamiltonian el C0) V;
             st_E := E; st_n_eigs_done := 0 |}
          (log ++ [ApplyH C0;
                   LogProgress (inner_loop_of n e helper) 0
                               (_get_Eband self 0 E) None None]) in
      (fst run,
       match snd run with
       | inl ex => inl ex
       | inr st => inr (if helper
                        then Returned (st_E st) (st_C st) (st_HC st)
                        else Stored (st_C st) (st_E st))
       end)
  end.
Proof.
  intros el Hguard. unfold __call__. fold el.
  apply Nat.leb_gt in Hguard. rewrite Hguard.
  unfold initial_subspace, bind, emit, lift_solver. fold el.
  destruct (eigh _ _) as [[E V]|]; [|reflexivity].
  unfold ret at 1 2. rewrite report_run.
  rewrite <- app_assoc. cbn [app]. cbv zeta.
  destruct (iterations _ _ _ _ _ _ _ _ _) as [log' [ex|st]]; cbn [fst snd];
    [reflexivity|].
  destruct helper; reflexivity.
Qed.

(** C10, as it holds.  Once the guard has passed, a call runs the initial
    subspace problem, logs line 0 and runs the loop with a budget, a
    threshold and a reporting mode resolved from its arguments: an override
    of [n_iterations=0] or [eig_threshold=0.0] is treated as absent and the
    stored default is used in its place, any other override is used as
    given -- so that a call with both overrides zero is a call without
    overrides -- and the mode is the inner-loop one exactly when some
    override is non-zero and [helper] is false.  A resolved budget that is
    not positive (a negative override, a stored default that is not
    positive) gives a solve without iterations.  In inner-loop mode no
    "Failed to converge" notice is logged. *)
Theorem call_overrides (self : Davidson) (C0 : coeffs) (n : option Z)
    (e : option R) (helper : bool) (log : list event) :
  let el := electrons self in
  let nit :=
    match n with
    | Some k => if Z.eqb k 0 then n_iterations self else k
    | None => n_iterations self
    end in
  let thr :=
    match e with
    | Some x => if Reqb x 0 then eig_threshold self else x
    | None => eig_threshold self
    end in
  let overridden :=
    match n with Some k => negb (Z.eqb k 0) | None => false end
    || match e with Some x => negb (Reqb x 0) | None => false end in
  let inner := overridden && negb helper in
  let start := fun (E : tensor3R) =>
    log ++ [ApplyH C0; LogProgress inner 0 (_get_Eband self 0 E) None None] in
  (2 * (n_bands el + n_bands_extra el) < n_min (basis el))%nat ->
  __call__ self C0 n e helper log =
    match eigh (linalg self) (dot C0 (hamiltonian el C0)) with
    | None => (log ++ [ApplyH C0], inl LinAlgError)
    | Some (E, V) =>
        let run :=
          iterations self nit thr helper inner (Z.to_nat nit) 1
            {| st_C := matmul C0 V; st_HC := matmul (hamiltonian el C0) V;
               st_E := E; st_n_eigs_done := 0 |}
            (start E) in
        (fst run,
         match snd run with
         | inl ex => inl ex
         | inr st => inr (if helper
                          then Returned (st_E st) (st_C st) (st_HC st)
                          else Stored (st_C st) (st_E st))
         end)
    end
  /\ __call__ self C0 (Some 0%Z) (Some 0) helper log =
     __call__ self C0 None None helper log
  /\ ((nit <= 0)%Z ->
      __call__ self C0 n e helper log =
      match eigh (linalg self) (dot C0 (hamiltonian el C0)) with
      | None => (log ++ [ApplyH C0], inl LinAlgError)
      | Some (E, V) =>
          (start E,
           inr (if helper
                then Returned E (matmul C0 V) (matmul (hamiltonian el C0) V)
                else Stored (matmul C0 V) E))
      end)
  /\ (inner = true ->
      exists evs r,
        __call__ self C0 n e helper log = (log ++ evs, r)
        /\ forall b, ~ In (LogFailed b) evs).
Proof.
  intros el nit thr overridden inner start Hguard.
  assert (Hn : n_iterations_of self n = nit).
  { unfold nit, n_iterations_of, truthy_int.
    destruct n as [k|]; [|reflexivity]. now destruct (Z.eqb k 0). }
  assert (Ht : eig_threshold_of self e = thr).
  { unfold thr, eig_threshold_of, truthy_float.
    destruct e as [x|]; [|reflexivity]. now destruct (Reqb x 0). }
  assert (Hi : inner_loop_of n e helper = inner) by reflexivity.
  pose proof (call_run self C0 n e helper log Hguard) as Hrun.
  fold el in Hrun. rewrite Hn, Ht, Hi in Hrun. fold (start) in Hrun.
  split; [exact Hrun|]. split; [|split].
  - unfold __call__. rewrite eig_threshold_of_zero.
    unfold inner_loop_of, truthy_float. rewrite Reqb_refl. reflexivity.
  - intros Hle. rewrite Hrun.
    destruct (eigh _ _) as [[E V]|]; [|reflexivity].
    replace (Z.to_nat nit) with 0%nat by lia.
    cbn [iterations]. unfold ret. cbn [fst snd st_C st_HC st_E].
    reflexivity.
  - intros Hin. rewrite Hrun, Hin.
    destruct (eigh _ _) as [[E V]|].
    + cbv zeta.
      match goal with
      | |- context [iterations ?a ?b ?c ?d ?f ?g ?h ?st ?l] =>
          destruct (iterations_log a b c d f g h st l) as [evs [He [Hf _]]];
          destruct (iterations a b c d f g h st l) as [log' r]
      end.
      cbn [fst snd] in He |- *. subst log'. specialize (Hf eq_refl).
      unfold start. rewrite <- app_assoc.
      eexists; eexists. split; [reflexivity|].
      cbn [app]. intros b [Heq|[Heq|Hb]]; try discriminate.
      rewrite forallb_forall in Hf. apply Hf in Hb. discriminate.
    + exists [ApplyH C0], (inl LinAlgError). split; [reflexivity|].
      intros b [Heq|[]]. discriminate.
Qed.

(** On [K5] from [e1]: an override of one iteration and no threshold
    override, without [helper]. *)
Lemma call_overrides_witness :
  __call__ toy5_solved block_e1 (Some 0%Z) (Some 0) false [] =
  __call__ toy5_solved block_e1 None None false []
  /\ exists evs r,
       __call__ toy5_solved block_e1 (Some 1%Z) None false [] = (evs, r)
       /\ forall b, ~ In (LogFailed b) evs.
Proof.
  destruct (call_overrides toy5_solved block_e1 (Some 1%Z) None false [])
    as [_ [Hzero [_ Hinner]]].
  - cbn. lia.
  - split; [exact Hzero|]. exact (Hinner eq_refl).
Defined.

(** C10, as stated, fails: a zero-iteration solve can be requested.  An
    override of [n_iterations=-1] is truthy, so it is used as given and
    [range(1, 0)] is empty: with a stored default of 100 iterations, the
    call returns after line 0, without having been through iteration 1. *)
Lemma zero_iteration_solve_requested :
  ~ (forall (self : Davidson) (C0 : coeffs) (n : option Z) (e : option R)
            (helper : bool) (evs : list event) (o : outcome),
       (0 < n_iterations self)%Z ->
       __call__ self C0 n e helper [] = (evs, inr o) ->
       exists inner Eband deig_max n_eigs_done,
         In (LogProgress inner 1 Eband deig_max n_eigs_done) evs).
Proof.
  intros H.
  set (K := [[2; 0; 0]; [0; 3; 0]; [0; 0; 4]]).
  set (Cin := [[[[[C1; C0; C0]]]]]).
  set (self := toy_davidson (const_solvers [[[2]]] [[[[C1]]]]) 3 1 0 K).
  assert (Hguard : (2 * (n_bands (electrons self)
                         + n_bands_extra (electrons self))
                    < n_min (basis (electrons self)))%nat) by (cbn; lia).
  pose proof (call_run self Cin (Some (-1)%Z) None false [] Hguard) as Hrun.
  cbn [linalg eigh self toy_davidson const_solvers] in Hrun.
  change (Z.to_nat (n_iterations_of _ (Some (-1)%Z))) with 0%nat in Hrun.
  cbn [iterations] in Hrun. unfold ret in Hrun.
  cbn [fst snd app st_C st_E] in Hrun.
  assert (Hpos : (0 < n_iterations self)%Z) by (cbn; lia).
  destruct (H self Cin (Some (-1)%Z) None false _ _ Hpos Hrun)
    as [inner [Eband [dm [nd Hin]]]].
  destruct Hin as [Heq|[Heq|[]]]; discriminate.
Qed.

(* ================================================================== *)
(** * The convergence check (C4) *)
(* ================================================================== *)

Section Reductions.

Lemma fold_Rmax_ge (l : list R) : forall x, x <= fold_left Rmax l x.
Proof.
  induction l as [|y l IH]; intros x; cbn; [lra|].
  eapply Rle_trans; [apply (Rmax_l x y) | apply IH].
Qed.

Lemma fold_Rmax_upper (l : list R) :
  forall x v, In v l -> v <= fold_left Rmax l x.
Proof.
  induction l as [|y l IH]; intros x v Hin; cbn; [easy|].
  destruct Hin as [->|Hin]; [|now apply IH].
  eapply Rle_trans; [apply (Rmax_r x v) | apply fold_Rmax_ge].
Qed.

Lemma fold_Rmax_in (l : list R) :
  forall x, fold_left Rmax l x = x \/ In (fold_left Rmax l x) l.
Proof.
  induction l as [|y l IH]; intros x; cbn; [now left|].
  destruct (IH (Rmax x y)) as [H|H]; [|now right; right].
  rewrite H. unfold Rmax. destruct (Rle_dec x y); [right|]; now left.
Qed.

Lemma fold_min_le (l : list nat) :
  forall x, (fold_left Nat.min l x <= x)%nat.
Proof.
  induction l as [|y l IH]; intros x; cbn; [lia|].
  specialize (IH (Nat.min x y)). lia.
Qed.

Lemma fold_min_lower (l : list nat) :
  forall x v, In v l -> (fold_left Nat.min l x <= v)%nat.
Proof.
  induction l as [|y l IH]; intros x v Hin; cbn; [easy|].
  destruct Hin as [->|Hin]; [|now apply IH].
  pose proof (fold_min_le l (Nat.min x v)). lia.
Qed.

Lemma fold_min_in (l : list nat) :
  forall x, fold_left Nat.min l x = x \/ In (fold_left Nat.min l x) l.
Proof.
  induction l as [|y l IH]; intros x; cbn; [now left|].
  destruct (IH (Nat.min x y)) as [H|H]; [|now right; right].
  rewrite H. destruct (Nat.min_spec x y) as [[_ ->]|[_ ->]];
    [left|right]; auto.
Qed.

End Reductions.

(** The entries of a tensor are the elements of its flattening. *)
Lemma entry_flat (T : tensor3R) (v : R) :
  In v (concat (concat T)) <-> exists s k b, entry T s k b v.
Proof.
  rewrite in_concat. split.
  - intros [row [Hrow Hv]]. apply in_concat in Hrow as [Ts [HTs Hrow]].
    apply In_nth_error in HTs as [s Hs], Hrow as [k Hk], Hv as [b Hb].
    exists s, k, b, Ts, row. auto.
  - intros [s [k [b [Ts [Tk [Hs [Hk Hb]]]]]]].
    exists Tk. split; [|eapply nth_error_In; eauto].
    apply in_concat. exists Ts. split; eapply nth_error_In; eauto.
Qed.

Lemma entry_row (T : tensor3R) (row : list R) :
  In row (concat T) <->
  exists s k Ts, nth_error T s = Some Ts /\ nth_error Ts k = Some row.
Proof.
  rewrite in_concat. split.
  - intros [Ts [HTs Hrow]].
    apply In_nth_error in HTs as [s Hs], Hrow as [k Hk]. eauto.
  - intros [s [k [Ts [Hs Hk]]]]. exists Ts.
    split; eapply nth_error_In; eauto.
Qed.

(** Slicing the band axis keeps the entries below the bound. *)
Lemma entry_bands_upto (n : nat) (T : tensor3R) (s k b : nat) (v : R) :
  entry (bands_upto n T) s k b v <-> (b < n)%nat /\ entry T s k b v.
Proof.
  unfold entry, bands_upto, map_sk. split.
  - intros [Ts [Tk [Hs [Hk Hb]]]].
    rewrite nth_error_map in Hs.
    destruct (nth_error T s) as [Ts0|] eqn:Hs0; [|discriminate].
    injection Hs as <-. rewrite nth_error_map in Hk.
    destruct (nth_error Ts0 k) as [Tk0|] eqn:Hk0; [|discriminate].
    injection Hk as <-. rewrite nth_error_firstn in Hb.
    destruct (Nat.ltb_spec b n); [|discriminate].
    split; [assumption|]. exists Ts0, Tk0. auto.
  - intros [Hlt [Ts [Tk [Hs [Hk Hb]]]]].
    exists (map (firstn n (A:=R)) Ts), (firstn n Tk).
    rewrite !nth_error_map, Hs, Hk, nth_error_firstn.
    apply Nat.ltb_lt in Hlt. rewrite Hlt. auto.
Qed.

(** The maximum of a tensor bounds its entries and is one of them. *)
Lemma tensor_max_spec (T : tensor3R) (m : R) :
  tensor_max T = Some m ->
  (forall s k b v, entry T s k b v -> v <= m)
  /\ exists s k b, entry T s k b m.
Proof.
  unfold tensor_max. intros H.
  destruct (concat (concat T)) as [|x l] eqn:Hflat; [discriminate|].
  injection H as <-. split.
  - intros s k b v Hv.
    assert (Hin : In v (x :: l))
      by (rewrite <- Hflat; apply entry_flat; eauto).
    destruct Hin as [<-|Hin];
      [apply fold_Rmax_ge | now apply fold_Rmax_upper].
  - apply entry_flat. rewrite Hflat.
    destruct (fold_Rmax_in l x) as [->|Hin]; [now left | now right].
Qed.

(** The head of a filtered index range is the first index that passes. *)
Lemma filter_seq_first (p : nat -> bool) (m : nat) :
  forall a,
    (filter p (seq a m) = []
     /\ forall j, (a <= j < a + m)%nat -> p j = false)
    \/ exists n l,
         filter p (seq a m) = n :: l /\ (a <= n < a + m)%nat /\ p n = true
         /\ forall j, (a <= j < n)%nat -> p j = false.
Proof.
  induction m as [|m IH]; intros a; cbn [seq filter].
  - left. split; [reflexivity|]. intros j Hj. lia.
  - destruct (p a) eqn:Hpa.
    + right. exists a, (filter p (seq (S a) m)).
      split; [reflexivity|]. split; [lia|]. split; [assumption|].
      intros j Hj. lia.
    + destruct (IH (S a)) as [[Hnil Hall]|[n [l [Hf [Hr [Hp Hall]]]]]].
      * left. split; [assumption|]. intros j Hj.
        destruct (Nat.eq_dec j a) as [->|]; [assumption|]. apply Hall. lia.
      * right. exists n, l.
        split; [assumption|]. split; [lia|]. split; [assumption|].
        intros j Hj.
        destruct (Nat.eq_dec j a) as [->|]; [assumption|]. apply Hall. lia.
Qed.

Lemma shape3_row (ns nk nb : nat) (T : tensor3R) (s k : nat)
    (Ts : list (list R)) (Tk : list R) :
  shape3 ns nk nb T ->
  nth_error T s = Some Ts -> nth_error Ts k = Some Tk ->
  length Tk = nb /\ len2 T = nb.
Proof.
  intros [HT Hall] Hs Hk.
  rewrite Forall_forall in Hall.
  assert (HTs : shape2 nk nb Ts) by (apply Hall; eapply nth_error_In; eauto).
  destruct HTs as [HlenTs HallTs]. rewrite Forall_forall in HallTs.
  split; [apply HallTs; eapply nth_error_In; eauto|].
  assert (Hk' : (k < nk)%nat)
    by (rewrite <- HlenTs; apply nth_error_Some; congruence).
  assert (Hs' : (s < length T)%nat) by (apply nth_error_Some; congruence).
  unfold len2, len1.
  assert (H0 : shape2 nk nb (nth 0 T [])) by (apply Hall, nth_In; lia).
  destruct H0 as [Hlen0 Hall0]. rewrite Forall_forall in Hall0.
  apply Hall0, nth_In. lia.
Qed.

Lemma len2_bands_upto (n : nat) (T : tensor3R) :
  len2 (bands_upto n T) = Nat.min n (len2 T).
Proof.
  unfold len2, len1, bands_upto, map_sk.
  destruct T as [|Ts T]; cbn; [now rewrite Nat.min_0_r|].
  destruct Ts as [|Tk Ts]; cbn; [now rewrite Nat.min_0_r|].
  apply length_firstn.
Qed.

(** The first pending band: no band below it has a change above the
    threshold at any spin and k, and unless it is [n_bands] some change at
    it is above the threshold. *)
Lemma first_pending_spec (nbands : nat) (T : tensor3R) (thr : R) :
  rectangular T ->
  (first_pending nbands T thr <= nbands)%nat
  /\ (forall s k j v,
        (j < first_pending nbands T thr)%nat -> entry T s k j v -> v <= thr)
  /\ ((first_pending nbands T thr < nbands)%nat ->
      exists s k v, entry T s k (first_pending nbands T thr) v /\ thr < v).
Proof.
  intros [ns [nk [nb Hshape]]].
  unfold first_pending, eigs_pending. cbv zeta.
  rewrite length_tab.
  set (rows := concat (bands_upto nbands T)).
  set (m := len2 (bands_upto nbands T)).
  set (q := fun j => existsb (fun row => Rgtb (nth j row 0) thr) rows).
  assert (Hm : m = Nat.min nbands (len2 T)) by apply len2_bands_upto.
  assert (Hfilter :
    filter (fun j => nth j (tab m q) false) (seq 0 m) = filter q (seq 0 m)).
  { apply filter_ext_in. intros j Hj. apply in_seq in Hj.
    apply nth_tab. lia. }
  rewrite Hfilter.
  (* a row of the slice and the entry of [T] it comes from *)
  assert (Hrow : forall s k j v, entry T s k j v -> (j < nbands)%nat ->
            (j < m)%nat /\ exists row, In row rows /\ nth j row 0 = v).
  { intros s k j v [Ts [Tk [Hs [Hk Hj]]]] Hlt.
    destruct (@shape3_row ns nk nb T s k Ts Tk Hshape Hs Hk) as [HlenTk Hlen2].
    assert (j < nb)%nat
      by (rewrite <- HlenTk; apply nth_error_Some; congruence).
    split; [lia|]. exists (firstn nbands Tk). split.
    - apply entry_row. exists s, k, (map (firstn nbands (A:=R)) Ts).
      unfold bands_upto, map_sk.
      now rewrite !nth_error_map, Hs, Hk.
    - rewrite nth_firstn. apply Nat.ltb_lt in Hlt. rewrite Hlt.
      now apply nth_error_nth. }
  assert (Hq_false : forall s k j v,
            entry T s k j v -> (j < nbands)%nat -> q j = false -> v <= thr).
  { intros s k j v He Hlt Hq.
    destruct (Hrow s k j v He Hlt) as [_ [row [Hin Hnth]]].
    unfold q in Hq.
    assert (Hr : Rgtb (nth j row 0) thr = false).
    { destruct (Rgtb (nth j row 0) thr) eqn:Hg; [|reflexivity].
      rewrite <- Hq. symmetry. apply existsb_exists. eauto. }
    apply Rltb_false in Hr. now rewrite <- Hnth. }
  destruct (filter_seq_first q m 0) as [[-> Hall]|[n [l [-> [Hr [Hqn Hlow]]]]]].
  - split; [lia|]. split; [|lia].
    intros s k j v Hj He. apply (Hq_false s k j v He Hj).
    apply Hall. destruct (Hrow s k j v He Hj). lia.
  - assert (n < nbands)%nat by lia.
    split; [lia|]. split.
    + intros s k j v Hj He. apply (Hq_false s k j v He); [lia|].
      apply Hlow. lia.
    + intros _. unfold q in Hqn. apply existsb_exists in Hqn as [row [Hin Hg]].
      apply Rltb_true in Hg.
      apply entry_row in Hin as [s [k [Ts [Hs Hk]]]].
      exists s, k, (nth n row 0). split; [|assumption].
      assert (He : entry (bands_upto nbands T) s k n (nth n row 0)).
      { exists Ts, row. repeat split; auto.
        apply nth_error_nth'.
        unfold bands_upto, map_sk in Hs, Hk.
        rewrite nth_error_map in Hs.
        destruct (nth_error T s) as [Ts0|] eqn:Hs0; [|discriminate].
        injection Hs as <-. rewrite nth_error_map in Hk.
        destruct (nth_error Ts0 k) as [Tk0|] eqn:Hk0; [|discriminate].
        injection Hk as <-.
        destruct (@shape3_row ns nk nb T s k Ts0 Tk0 Hshape Hs0 Hk0)
          as [HlenTk Hlen2].
        rewrite length_firstn. lia. }
      now apply entry_bands_upto in He.
Qed.

Lemma Forall2_In_l (A B : Type) (P : A -> B -> Prop) (l : list A)
    (l' : list B) (a : A) :
  Forall2 P l l' -> In a l -> exists b, In b l' /\ P a b.
Proof.
  induction 1 as [|x y l l' Hxy _ IH]; intros Hin; [easy|].
  destruct Hin as [->|Hin]; [exists y; cbn; auto|].
  destruct (IH Hin) as [b [Hb Hab]]. exists b. cbn. auto.
Qed.

Lemma Forall2_In_r (A B : Type) (P : A -> B -> Prop) (l : list A)
    (l' : list B) (b : B) :
  Forall2 P l l' -> In b l' -> exists a, In a l /\ P a b.
Proof.
  induction 1 as [|x y l l' Hxy _ IH]; intros Hin; [easy|].
  destruct Hin as [->|Hin]; [exists x; cbn; auto|].
  destruct (IH Hin) as [a [Ha Hab]]. exists a. cbn. auto.
Qed.

(** C4.  Let the partitions hold the eigenvalue changes [dE :: others], the
    other ranks contributing their own local results to the two
    reductions.  Then [_check_deigs] returns (a) the largest change among
    the first [n_bands] eigenvalues over all partitions, spins and k, and
    (b) the smallest band index below [n_bands] at which some partition,
    spin and k has a change strictly above the threshold, or [n_bands] if
    there is none; this count is the smallest of the counts of the
    partitions. *)
Theorem check_deigs_global (self : Davidson) (tag : nat) (thr : R)
    (dE : tensor3R) (others : list tensor3R) (log : list event) :
  let el := electrons self in
  let nb := n_bands el in
  Forall rectangular (dE :: others) ->
  tensor_max (bands_upto nb dE) <> None ->
  Forall2 (fun T m => tensor_max (bands_upto nb T) = Some m)
          others (comm_kb_others_max (rc el) tag) ->
  comm_kb_others_min (rc el) tag =
    map (fun T => first_pending nb T thr) others ->
  exists deig_max n_eigs_done,
    _check_deigs self tag dE thr log = (log, inr (deig_max, n_eigs_done))
    /\ (forall T s k b v,
          In T (dE :: others) -> (b < nb)%nat -> entry T s k b v ->
          v <= deig_max)
    /\ (exists T s k b,
          In T (dE :: others) /\ (b < nb)%nat /\ entry T s k b deig_max)
    /\ (n_eigs_done <= nb)%nat
    /\ (forall T s k j v,
          In T (dE :: others) -> (j < n_eigs_done)%nat -> entry T s k j v ->
          v <= thr)
    /\ ((n_eigs_done < nb)%nat ->
        exists T s k v,
          In T (dE :: others) /\ entry T s k n_eigs_done v /\ thr < v)
    /\ (forall T, In T (dE :: others) ->
                  (n_eigs_done <= first_pending nb T thr)%nat)
    /\ (exists T, In T (dE :: others)
                  /\ n_eigs_done = first_pending nb T thr).
Proof.
  intros el nb Hrect Hmine Hmax Hmin.
  unfold _check_deigs. fold el. fold nb.
  destruct (tensor_max (bands_upto nb dE)) as [m0|] eqn:Hm0; [|easy].
  rewrite Hmin. unfold allreduce.
  set (maxes := comm_kb_others_max (rc el) tag) in *.
  set (f := fun T => first_pending nb T thr).
  set (n := fold_left Nat.min (map f others) (f dE)).
  exists (fold_left Rmax maxes m0), n.
  split; [reflexivity|].
  (* the reductions *)
  assert (Hle : forall T, In T (dE :: others) -> (n <= f T)%nat).
  { intros T [<-|HT]; [apply fold_min_le|].
    apply fold_min_lower. now apply in_map. }
  assert (Hat : exists T, In T (dE :: others) /\ n = f T).
  { destruct (fold_min_in (map f others) (f dE)) as [H|H].
    - exists dE. split; [now left | exact H].
    - apply in_map_iff in H as [T [HfT HT]].
      exists T. split; [now right | now symmetry]. }
  rewrite Forall_forall in Hrect.
  split; [|split; [|split; [|split; [|split; [|split]]]]]; auto.
  - intros T s k b v HT Hb He.
    assert (He' : entry (bands_upto nb T) s k b v)
      by now apply entry_bands_upto.
    destruct HT as [<-|HT].
    + apply Rle_trans with m0; [|apply fold_Rmax_ge].
      eapply tensor_max_spec; eauto.
    + destruct (Forall2_In_l _ _ _ _ _ _ Hmax HT) as [m [Hm HTm]].
      apply Rle_trans with m; [|now apply fold_Rmax_upper].
      eapply tensor_max_spec; eauto.
  - destruct (fold_Rmax_in maxes m0) as [->|Hin].
    + destruct (tensor_max_spec _ _ Hm0) as [_ [s [k [b He]]]].
      apply entry_bands_upto in He as [Hb He].
      exists dE, s, k, b. cbn. auto.
    + destruct (Forall2_In_r _ _ _ _ _ _ Hmax Hin) as [T [HT HTm]].
      destruct (tensor_max_spec _ _ HTm) as [_ [s [k [b He]]]].
      apply entry_bands_upto in He as [Hb He].
      exists T, s, k, b. cbn. auto.
  - destruct Hat as [T [HT ->]]. now apply first_pending_spec, Hrect.
  - intros T s k j v HT Hj He.
    destruct (first_pending_spec nb T thr (Hrect T HT)) as [_ [Hlow _]].
    apply (Hlow s k j v); [|assumption].
    specialize (Hle T HT). unfold f in Hle. lia.
  - intros Hn. destruct Hat as [T [HT HnT]].
    destruct (first_pending_spec nb T thr (Hrect T HT)) as [_ [_ Hpend]].
    unfold f in HnT. rewrite <- HnT in Hpend.
    destruct (Hpend Hn) as [s [k [v [He Hv]]]].
    exists T, s, k, v. auto.
Qed.

(** Decide the comparisons of concrete reals met when a definition is
    evaluated. *)
Ltac decide_reals :=
  repeat match goal with
    | |- context [Rlt_dec ?a ?b] => destruct (Rlt_dec a b); try lra
    | |- context [Rle_dec ?a ?b] => destruct (Rle_dec a b); try lra
    | |- context [Req_dec_T ?a ?b] => destruct (Req_dec_T a b); try lra
    end.

Ltac eval_reals :=
  cbn; unfold Rgtb, Rltb, Reqb, Rmax, Rmin; cbn; decide_reals.

(** Two partitions, two bands: the changes are [0, 1] here and [3, 0] on the
    other rank, the threshold is 1/2. *)
Lemma check_deigs_global_witness :
  exists deig_max n_eigs_done,
    _check_deigs (pair_davidson 5 2 0) 1 [[[0; 1]]] (1 / 2) [] =
      ([], inr (deig_max, n_eigs_done))
    /\ (forall T, In T [[[[0; 1]]]; [[[3; 0]]]] ->
                  (n_eigs_done <= first_pending 2 T (1 / 2))%nat).
Proof.
  destruct (check_deigs_global (pair_davidson 5 2 0) 1 (1 / 2)
              [[[0; 1]]] [[[[3; 0]]]] [])
    as [dm [nd [Hrun [_ [_ [_ [_ [_ [Hle _]]]]]]]]].
  - repeat constructor; exists 1%nat, 1%nat, 2%nat; repeat constructor.
  - discriminate.
  - constructor; [|constructor]. eval_reals. reflexivity.
  - unfold first_pending, eigs_pending. eval_reals. reflexivity.
  - exists dm, nd. split; [exact Hrun | exact Hle].
Defined.

(* ================================================================== *)
(** * Shapes and tabulation *)
(* ================================================================== *)

Lemma Forall_nth_dflt (A : Type) (P : A -> Prop) (l : list A) (d : A) :
  Forall P l <-> forall i, (i < length l)%nat -> P (nth i l d).
Proof.
  rewrite Forall_forall. split.
  - intros H i Hi. now apply H, nth_In.
  - intros H x Hx. destruct (In_nth l x d Hx) as [i [Hi <-]]. now apply H.
Qed.

Lemma shape2_nth (A : Type) (n1 n2 : nat) (l : list (list A)) (i : nat) :
  shape2 n1 n2 l -> (i < n1)%nat -> length (nth i l []) = n2.
Proof.
  intros [Hlen Hall] Hi.
  apply (proj1 (Forall_nth_dflt _ _ l [])) with (i := i) in Hall; [exact Hall|lia].
Qed.

Lemma shape3_nth (A : Type) (n1 n2 n3 : nat) (l : list (list (list A)))
    (i : nat) :
  shape3 n1 n2 n3 l -> (i < n1)%nat -> shape2 n2 n3 (nth i l []).
Proof.
  intros [Hlen Hall] Hi.
  apply (proj1 (Forall_nth_dflt _ _ l [])) with (i := i) in Hall; [exact Hall|lia].
Qed.

Lemma shape4_nth (A : Type) (n1 n2 n3 n4 : nat)
    (l : list (list (list (list A)))) (i : nat) :
  shape4 n1 n2 n3 n4 l -> (i < n1)%nat -> shape3 n2 n3 n4 (nth i l []).
Proof.
  intros [Hlen Hall] Hi.
  apply (proj1 (Forall_nth_dflt _ _ l [])) with (i := i) in Hall; [exact Hall|lia].
Qed.

Lemma shape5_nth (A : Type) (n1 n2 n3 n4 n5 : nat)
    (l : list (list (list (list (list A))))) (i : nat) :
  shape5 n1 n2 n3 n4 n5 l -> (i < n1)%nat -> shape4 n2 n3 n4 n5 (nth i l []).
Proof.
  intros [Hlen Hall] Hi.
  apply (proj1 (Forall_nth_dflt _ _ l [])) with (i := i) in Hall; [exact Hall|lia].
Qed.

Lemma shape1_tab (A : Type) (n : nat) (f : nat -> A) : shape1 n (tab n f).
Proof. apply length_tab. Qed.

Lemma shape_tab (A : Type) (P : A -> Prop) (n : nat) (f : nat -> A) :
  (forall i, (i < n)%nat -> P (f i)) -> length (tab n f) = n /\ Forall P (tab n f).
Proof.
  intros H. split; [apply length_tab|].
  apply Forall_forall. intros x Hx. unfold tab in Hx.
  apply in_map_iff in Hx as [i [<- Hi]]. apply in_seq in Hi. apply H. lia.
Qed.

Lemma shape2_tab2 (A : Type) (n1 n2 : nat) (f : nat -> nat -> A) :
  shape2 n1 n2 (tab2 n1 n2 f).
Proof. apply shape_tab. intros i _. apply shape1_tab. Qed.

Lemma shape3_tab3 (A : Type) (n1 n2 n3 : nat) (f : nat -> nat -> nat -> A) :
  shape3 n1 n2 n3 (tab3 n1 n2 n3 f).
Proof. apply shape_tab. intros i _. apply shape2_tab2. Qed.

Lemma shape4_tab4 (A : Type) (n1 n2 n3 n4 : nat)
    (f : nat -> nat -> nat -> nat -> A) :
  shape4 n1 n2 n3 n4 (tab4 n1 n2 n3 n4 f).
Proof. apply shape_tab. intros i _. apply shape3_tab3. Qed.

Lemma shape5_tab5 (A : Type) (n1 n2 n3 n4 n5 : nat)
    (f : nat -> nat -> nat -> nat -> nat -> A) :
  shape5 n1 n2 n3 n4 n5 (tab5 n1 n2 n3 n4 n5 f).
Proof. apply shape_tab. intros i _. apply shape4_tab4. Qed.

(** Reading a tabulated tensor inside its shape. *)
Lemma ix2_tab2 (n1 n2 : nat) (f : nat -> nat -> complex) (i j : nat) :
  (i < n1)%nat -> (j < n2)%nat -> ix2 (tab2 n1 n2 f) i j = f i j.
Proof. intros. unfold ix2, tab2. now rewrite !nth_tab. Qed.

Lemma ix3_tab3 (n1 n2 n3 : nat) (f : nat -> nat -> nat -> R) (s k b : nat) :
  (s < n1)%nat -> (k < n2)%nat -> (b < n3)%nat ->
  ix3 (tab3 n1 n2 n3 f) s k b = f s k b.
Proof. intros. unfold ix3, tab3, tab2. now rewrite !nth_tab. Qed.

Lemma ix4_tab4 (n1 n2 n3 n4 : nat) (f : nat -> nat -> nat -> nat -> complex)
    (s k i j : nat) :
  (s < n1)%nat -> (k < n2)%nat -> (i < n3)%nat -> (j < n4)%nat ->
  ix4 (tab4 n1 n2 n3 n4 f) s k i j = f s k i j.
Proof. intros. unfold ix4, ix2, tab4, tab3, tab2. now rewrite !nth_tab. Qed.

Lemma ix5_tab5 (n1 n2 n3 n4 n5 : nat)
    (f : nat -> nat -> nat -> nat -> nat -> complex) (s k b sp g : nat) :
  (s < n1)%nat -> (k < n2)%nat -> (b < n3)%nat -> (sp < n4)%nat ->
  (g < n5)%nat ->
  ix5 (tab5 n1 n2 n3 n4 n5 f) s k b sp g = f s k b sp g.
Proof.
  intros. unfold ix5, ix2, tab5, tab4, tab3, tab2. now rewrite !nth_tab.
Qed.

(** Tabulations agree when their functions agree inside the shape. *)
Lemma tab2_ext (A : Type) (n1 n2 : nat) (f g : nat -> nat -> A) :
  (forall i j, (i < n1)%nat -> (j < n2)%nat -> f i j = g i j) ->
  tab2 n1 n2 f = tab2 n1 n2 g.
Proof. intros H. apply tab_ext. intros i Hi. apply tab_ext. auto. Qed.

Lemma tab3_ext (A : Type) (n1 n2 n3 : nat) (f g : nat -> nat -> nat -> A) :
  (forall s k b, (s < n1)%nat -> (k < n2)%nat -> (b < n3)%nat ->
                 f s k b = g s k b) ->
  tab3 n1 n2 n3 f = tab3 n1 n2 n3 g.
Proof. intros H. apply tab_ext. intros i Hi. apply tab2_ext. auto. Qed.

Lemma tab4_ext (A : Type) (n1 n2 n3 n4 : nat)
    (f g : nat -> nat -> nat -> nat -> A) :
  (forall s k i j, (s < n1)%nat -> (k < n2)%nat -> (i < n3)%nat ->
                   (j < n4)%nat -> f s k i j = g s k i j) ->
  tab4 n1 n2 n3 n4 f = tab4 n1 n2 n3 n4 g.
Proof. intros H. apply tab_ext. intros i Hi. apply tab3_ext. auto. Qed.

Lemma tab5_ext (A : Type) (n1 n2 n3 n4 n5 : nat)
    (f g : nat -> nat -> nat -> nat -> nat -> A) :
  (forall s k b sp x, (s < n1)%nat -> (k < n2)%nat -> (b < n3)%nat ->
                      (sp < n4)%nat -> (x < n5)%nat ->
                      f s k b sp x = g s k b sp x) ->
  tab5 n1 n2 n3 n4 n5 f = tab5 n1 n2 n3 n4 n5 g.
Proof. intros H. apply tab_ext. intros i Hi. apply tab4_ext. auto. Qed.

(** The extents read off a tensor are those of its shape, as far as the
    leading axes are not empty. *)
Lemma shape2_len1 (A : Type) (n1 n2 : nat) (l : list (list A)) :
  shape2 n1 n2 l -> (0 < n1)%nat -> len1 l = n2.
Proof. intros H H0. unfold len1. now apply (shape2_nth _ n1 n2). Qed.

Lemma shape3_len1 (A : Type) (n1 n2 n3 : nat) (l : list (list (list A))) :
  shape3 n1 n2 n3 l -> (0 < n1)%nat -> len1 l = n2.
Proof.
  intros H H0. unfold len1. now destruct (shape3_nth _ n1 n2 n3 l 0 H H0).
Qed.

Lemma shape3_len2 (A : Type) (n1 n2 n3 : nat) (l : list (list (list A))) :
  shape3 n1 n2 n3 l -> (0 < n1)%nat -> (0 < n2)%nat -> len2 l = n3.
Proof.
  intros H H0 H1. unfold len2.
  apply (shape2_len1 _ n2 n3); [|assumption]. now apply (shape3_nth _ n1).
Qed.

Lemma shape4_len1 (A : Type) (n1 n2 n3 n4 : nat)
    (l : list (list (list (list A)))) :
  shape4 n1 n2 n3 n4 l -> (0 < n1)%nat -> len1 l = n2.
Proof.
  intros H H0. unfold len1. now destruct (shape4_nth _ n1 n2 n3 n4 l 0 H H0).
Qed.

Lemma shape4_len2 (A : Type) (n1 n2 n3 n4 : nat)
    (l : list (list (list (list A)))) :
  shape4 n1 n2 n3 n4 l -> (0 < n1)%nat -> (0 < n2)%nat -> len2 l = n3.
Proof.
  intros H H0 H1. unfold len2.
  apply (shape3_len1 _ n2 n3 n4); [|assumption]. now apply (shape4_nth _ n1).
Qed.

Lemma shape4_len3 (A : Type) (n1 n2 n3 n4 : nat)
    (l : list (list (list (list A)))) :
  shape4 n1 n2 n3 n4 l -> (0 < n1)%nat -> (0 < n2)%nat -> (0 < n3)%nat ->
  len3 l = n4.
Proof.
  intros H H0 H1 H2. unfold len3.
  apply (shape3_len2 _ n2 n3 n4); try assumption. now apply (shape4_nth _ n1).
Qed.

Lemma shape5_len1 (A : Type) (n1 n2 n3 n4 n5 : nat)
    (l : list (list (list (list (list A))))) :
  shape5 n1 n2 n3 n4 n5 l -> (0 < n1)%nat -> len1 l = n2.
Proof.
  intros H H0. unfold len1.
  now destruct (shape5_nth _ n1 n2 n3 n4 n5 l 0 H H0).
Qed.

Lemma shape5_len2 (A : Type) (n1 n2 n3 n4 n5 : nat)
    (l : list (list (list (list (list A))))) :
  shape5 n1 n2 n3 n4 n5 l -> (0 < n1)%nat -> (0 < n2)%nat -> len2 l = n3.
Proof.
  intros H H0 H1. unfold len2.
  apply (shape4_len1 _ n2 n3 n4 n5); [|assumption]. now apply (shape5_nth _ n1).
Qed.

Lemma shape5_len3 (A : Type) (n1 n2 n3 n4 n5 : nat)
    (l : list (list (list (list (list A))))) :
  shape5 n1 n2 n3 n4 n5 l -> (0 < n1)%nat -> (0 < n2)%nat -> (0 < n3)%nat ->
  len3 l = n4.
Proof.
  intros H H0 H1 H2. unfold len3.
  apply (shape4_len2 _ n2 n3 n4 n5); try assumption.
  now apply (shape5_nth _ n1).
Qed.

Lemma shape5_len4 (A : Type) (n1 n2 n3 n4 n5 : nat)
    (l : list (list (list (list (list A))))) :
  shape5 n1 n2 n3 n4 n5 l -> (0 < n1)%nat -> (0 < n2)%nat -> (0 < n3)%nat ->
  (0 < n4)%nat -> len4 l = n5.
Proof.
  intros H H0 H1 H2 H3. unfold len4.
  apply (shape4_len3 _ n2 n3 n4 n5); try assumption.
  now apply (shape5_nth _ n1).
Qed.

(** Tabulating over the extents of a shaped tensor is tabulating over its
    shape, empty axes included. *)
Lemma tab3_lens (A B : Type) (n1 n2 n3 : nat) (T : list (list (list A)))
    (f : nat -> nat -> nat -> B) :
  shape3 n1 n2 n3 T ->
  tab3 (len0 T) (len1 T) (len2 T) f = tab3 n1 n2 n3 f.
Proof.
  intros H. unfold len0. rewrite (proj1 H). unfold tab3, tab2.
  apply tab_ext; intros s Hs.
  rewrite (shape3_len1 _ n1 n2 n3 T H) by lia.
  apply tab_ext; intros k Hk.
  rewrite (shape3_len2 _ n1 n2 n3 T H) by lia. reflexivity.
Qed.

Lemma tab4_lens (A B : Type) (n1 n2 n3 n4 : nat)
    (T : list (list (list (list A)))) (f : nat -> nat -> nat -> nat -> B) :
  shape4 n1 n2 n3 n4 T ->
  tab4 (len0 T) (len1 T) (len2 T) (len3 T) f = tab4 n1 n2 n3 n4 f.
Proof.
  intros H. unfold len0. rewrite (proj1 H). unfold tab4, tab3, tab2.
  apply tab_ext; intros s Hs.
  rewrite (shape4_len1 _ n1 n2 n3 n4 T H) by lia.
  apply tab_ext; intros k Hk.
  rewrite (shape4_len2 _ n1 n2 n3 n4 T H) by lia.
  apply tab_ext; intros i Hi.
  rewrite (shape4_len3 _ n1 n2 n3 n4 T H) by lia. reflexivity.
Qed.

Lemma tab5_lens (A B : Type) (n1 n2 n3 n4 n5 : nat)
    (T : list (list (list (list (list A)))))
    (f : nat -> nat -> nat -> nat -> nat -> B) :
  shape5 n1 n2 n3 n4 n5 T ->
  tab5 (len0 T) (len1 T) (len2 T) (len3 T) (len4 T) f =
  tab5 n1 n2 n3 n4 n5 f.
Proof.
  intros H. unfold len0. rewrite (proj1 H). unfold tab5, tab4, tab3, tab2.
  apply tab_ext; intros s Hs.
  rewrite (shape5_len1 _ n1 n2 n3 n4 n5 T H) by lia.
  apply tab_ext; intros k Hk.
  rewrite (shape5_len2 _ n1 n2 n3 n4 n5 T H) by lia.
  apply tab_ext; intros b Hb.
  rewrite (shape5_len3 _ n1 n2 n3 n4 n5 T H) by lia.
  apply tab_ext; intros sp Hsp.
  rewrite (shape5_len4 _ n1 n2 n3 n4 n5 T H) by lia. reflexivity.
Qed.

Lemma map_tab (A B : Type) (f : A -> B) (n : nat) (g : nat -> A) :
  map f (tab n g) = tab n (fun i => f (g i)).
Proof. unfold tab. now rewrite map_map. Qed.

(* ================================================================== *)
(** * The preconditioner (C8) *)
(* ================================================================== *)

(** The divisor is at least 1, so it never vanishes. *)
Lemma precond_divisor_ge_1 (x : R) : 1 <= precond_divisor x.
Proof.
  unfold precond_divisor. pose proof (exp_ineq1_le (- x)). lra.
Qed.

(** Near a zero ratio the divisor is within [|x|] of 1. *)
Lemma precond_divisor_near_0 (x : R) :
  Rabs x <= 1 / 2 -> Rabs (precond_divisor x - 1) <= Rabs x.
Proof.
  intros Hx. pose proof (precond_divisor_ge_1 x) as Hge.
  rewrite (Rabs_right (precond_divisor x - 1)) by lra.
  unfold precond_divisor in *.
  assert (Hprod : (1 + x) * exp (- x) <= 1).
  { pose proof (exp_ineq1_le x) as H1. pose proof (exp_pos (- x)) as Hp.
    assert (Hone : exp x * exp (- x) = 1)
      by (rewrite <- exp_plus, Rplus_opp_r; apply exp_0).
    nra. }
  pose proof (exp_pos (- x)) as Hp.
  destruct (Rcase_abs x) as [Hneg|Hpos].
  - rewrite (Rabs_left x Hneg) in *. nra.
  - rewrite (Rabs_right x Hpos) in *. nra.
Qed.

Lemma precondition_shape (self : Davidson) (Cerr : coeffs) (KEref : tensor3R)
    (ns nk nb nsp ng : nat) :
  shape5 ns nk nb nsp ng Cerr ->
  shape5 ns nk nb nsp ng (_precondition self Cerr KEref).
Proof.
  intros H. unfold _precondition. cbv zeta.
  rewrite (tab5_lens _ _ ns nk nb nsp ng Cerr _ H). apply shape5_tab5.
Qed.

(** C8, as it holds.  On arrays of matching shapes the preconditioner
    returns a block of the shape of the residual in which each coefficient
    is divided by [x + exp(-x)], where [x] is the ratio of the local kinetic
    energy of the basis function to the reference kinetic energy of the
    band; this divisor is at least 1 and tends to 1 as the ratio tends
    to 0. *)
Theorem precondition_divides_by_ratio (self : Davidson) (Cerr : coeffs)
    (KEref : tensor3R) (ns nk nb nsp ng : nat) :
  shape5 ns nk nb nsp ng Cerr ->
  shape3 ns nk nb KEref ->
  shape2 nk ng (get_ke_mine (basis (electrons self))) ->
  shape5 ns nk nb nsp ng (_precondition self Cerr KEref)
  /\ (forall s k b sp g,
        (s < ns)%nat -> (k < nk)%nat -> (b < nb)%nat -> (sp < nsp)%nat ->
        (g < ng)%nat ->
        ix5 (_precondition self Cerr KEref) s k b sp g =
        Cdivr (ix5 Cerr s k b sp g)
              (precond_divisor
                 (nth g (nth k (get_ke_mine (basis (electrons self))) []) 0
                  / ix3 KEref s k b)))
  /\ (forall x, 1 <= precond_divisor x)
  /\ (forall eps, 0 < eps ->
        exists delta, 0 < delta /\
          forall x, Rabs x < delta -> Rabs (precond_divisor x - 1) < eps).
Proof.
  intros HC HK Hke.
  split; [now apply precondition_shape|].
  split; [|split; [apply precond_divisor_ge_1|]].
  - intros s k b sp g Hs Hk Hb Hsp Hg.
    unfold _precondition. cbv zeta.
    rewrite (tab5_lens _ _ ns nk nb nsp ng Cerr _ HC).
    rewrite ix5_tab5 by assumption. f_equal.
    unfold len0. rewrite (proj1 HK).
    rewrite (shape3_len1 _ ns nk nb KEref HK) by lia.
    rewrite (shape3_len2 _ ns nk nb KEref HK) by lia.
    rewrite (shape2_len1 _ nk ng _ Hke) by lia.
    unfold tab5, tab4, tab3, tab2.
    repeat (rewrite map_tab; rewrite nth_tab by lia).
    reflexivity.
  - intros eps Heps. exists (Rmin (1 / 2) eps). split.
    + apply Rmin_pos; lra.
    + intros x Hx.
      pose proof (Rmin_l (1 / 2) eps). pose proof (Rmin_r (1 / 2) eps).
      apply Rle_lt_trans with (Rabs x); [|lra].
      apply precond_divisor_near_0. lra.
Qed.

(** One coefficient 3 + 4i, kinetic energy 2, reference 4. *)
Lemma precondition_divides_by_ratio_witness :
  ix5 (_precondition (scalar_davidson 2) [[[[[mkC 3 4]]]]] [[[4]]])
      0 0 0 0 0 =
  Cdivr (mkC 3 4) (precond_divisor (2 / 4)).
Proof.
  refine (proj1 (proj2 (precondition_divides_by_ratio (scalar_davidson 2)
                          [[[[[mkC 3 4]]]]] [[[4]]] 1 1 1 1 1 _ _ _))
                0%nat 0%nat 0%nat 0%nat 0%nat _ _ _ _ _);
    try lia; repeat constructor.
Defined.

(** C8, as stated, fails: the divisor of the code is a function of the
    ratio [ke / KEref] alone, so it is not the sum of the reference and the
    local kinetic energy with a correction of the ratio added.  At
    [ke = KEref = 1] and at [ke = KEref = 2] the code divides by the same
    number, whereas the sums are 2 and 4. *)
Lemma precondition_not_by_sum :
  ~ exists corr : R -> R,
      forall ke KEref : R, 0 < KEref -> 0 <= ke ->
        ix5 (_precondition (scalar_davidson ke) [[[[[C1]]]]] [[[KEref]]])
            0 0 0 0 0 =
        Cdivr C1 (spec_divisor corr KEref ke).
Proof.
  intros [corr H].
  pose proof (H 1 1 ltac:(lra) ltac:(lra)) as H1.
  pose proof (H 2 2 ltac:(lra) ltac:(lra)) as H2.
  cbn in H1, H2. unfold Cdivr, spec_divisor in H1, H2. cbn in H1, H2.
  injection H1 as H1 _. injection H2 as H2 _.
  replace (2 / 2) with 1 in H2 by lra.
  replace (1 / 1) with 1 in H1 by lra.
  pose proof (precond_divisor_ge_1 1) as Hd.
  unfold Rdiv in H1, H2. rewrite !Rmult_1_l in H1, H2.
  apply (f_equal Rinv) in H1, H2. rewrite !Rinv_inv in H1, H2.
  lra.
Qed.

(* ================================================================== *)
(** * Regularization (C7) *)
(* ================================================================== *)

Lemma zip3_maps (l : list (nat * nat * nat)) :
  zip3 (map (fun t => fst (fst t)) l) (map (fun t => snd (fst t)) l)
       (map (fun t => snd t) l) = l.
Proof.
  unfold zip3. induction l as [|[[s k] b] l IH]; cbn; [reflexivity|].
  now rewrite IH.
Qed.

Lemma where3_hits_spec (mask : list (list (list bool))) (s k b : nat) :
  In (s, k, b) (where3_hits mask) <->
  (s < length mask)%nat /\ (k < length (nth s mask []))%nat
  /\ (b < length (nth k (nth s mask []) []))%nat
  /\ nth b (nth k (nth s mask []) []) false = true.
Proof.
  unfold where3_hits. rewrite in_flat_map. split.
  - intros [s' [Hs' H]]. apply in_flat_map in H as [k' [Hk' H]].
    apply in_flat_map in H as [b' [Hb' H]].
    apply in_seq in Hs', Hk', Hb'.
    destruct (nth b' (nth k' (nth s' mask []) []) false) eqn:Hm; [|easy].
    destruct H as [H|[]]. injection H as -> -> ->.
    repeat split; auto; lia.
  - intros [Hs [Hk [Hb Hm]]]. exists s. split; [apply in_seq; lia|].
    apply in_flat_map. exists k. split; [apply in_seq; lia|].
    apply in_flat_map. exists b. split; [apply in_seq; lia|].
    rewrite Hm. now left.
Qed.

Lemma triple_eq_dec (x y : nat * nat * nat) : {x = y} + {x <> y}.
Proof. repeat decide equality. Qed.

Lemma set3_shape (ns nk nb : nat) (T : tensor3R) (s k b : nat) (v : R) :
  shape3 ns nk nb T -> shape3 ns nk nb (set3 T s k b v).
Proof.
  intros H. unfold set3. rewrite (tab3_lens _ _ ns nk nb T _ H).
  apply shape3_tab3.
Qed.

Lemma ix3_set3 (ns nk nb : nat) (T : tensor3R) (s k b : nat) (v : R)
    (s' k' b' : nat) :
  shape3 ns nk nb T -> (s' < ns)%nat -> (k' < nk)%nat -> (b' < nb)%nat ->
  ix3 (set3 T s k b v) s' k' b' =
  if Nat.eqb s' s && Nat.eqb k' k && Nat.eqb b' b then v else ix3 T s' k' b'.
Proof.
  intros H Hs Hk Hb. unfold set3. rewrite (tab3_lens _ _ ns nk nb T _ H).
  now rewrite ix3_tab3.
Qed.

Lemma index_put_spec (ns nk nb : nat) (v : R) (i_spin : list nat) :
  forall (i_k i_band : list nat) (T : tensor3R),
  shape3 ns nk nb T ->
  shape3 ns nk nb (index_put T i_spin i_k i_band v)
  /\ forall s k b, (s < ns)%nat -> (k < nk)%nat -> (b < nb)%nat ->
       (In (s, k, b) (zip3 i_spin i_k i_band) ->
        ix3 (index_put T i_spin i_k i_band v) s k b = v)
       /\ (~ In (s, k, b) (zip3 i_spin i_k i_band) ->
           ix3 (index_put T i_spin i_k i_band v) s k b = ix3 T s k b).
Proof.
  induction i_spin as [|s0 ss IH]; intros i_k i_band T HT.
  - cbn. split; [assumption|]. intros s k b _ _ _. split; [easy|reflexivity].
  - destruct i_k as [|k0 ks]; [cbn; split; [assumption|];
                               intros; split; [easy|reflexivity]|].
    destruct i_band as [|b0 bs]; [cbn; split; [assumption|];
                                  intros; split; [easy|reflexivity]|].
    cbn [index_put].
    destruct (IH ks bs (set3 T s0 k0 b0 v) (set3_shape _ _ _ _ _ _ _ _ HT))
      as [Hshape Hix].
    split; [assumption|]. intros s k b Hs Hk Hb.
    destruct (Hix s k b Hs Hk Hb) as [Hin Hout].
    assert (Hhead : ix3 (set3 T s0 k0 b0 v) s k b =
                    if Nat.eqb s s0 && Nat.eqb k k0 && Nat.eqb b b0
                    then v else ix3 T s k b)
      by now apply (ix3_set3 ns nk nb).
    unfold zip3 in *. cbn [combine In].
    destruct (in_dec triple_eq_dec (s, k, b) (combine (combine ss ks) bs))
      as [Hi|Hn].
    + split; [intros _; now apply Hin|]. intros Hno. exfalso. apply Hno. now right.
    + split.
      * intros [Heq|Hi]; [|easy]. injection Heq as -> -> ->.
        rewrite (Hout Hn), Hhead, !Nat.eqb_refl. reflexivity.
      * intros Hno. rewrite (Hout Hn), Hhead.
        destruct (Nat.eqb_spec s s0) as [->|]; [|reflexivity].
        destruct (Nat.eqb_spec k k0) as [->|]; [|reflexivity].
        destruct (Nat.eqb_spec b b0) as [->|]; [|reflexivity].
        exfalso. apply Hno. now left.
Qed.

Lemma nth_map_map (A B : Type) (g : A -> B) (l : list (list A)) (n : nat) :
  nth n (map (map g) l) [] = map g (nth n l []).
Proof. exact (map_nth (map g) l [] n). Qed.

(** The mask of the low norms of a shaped tensor. *)
Lemma low_mask_spec (ns nk nb : nat) (T : tensor3R) (f : R -> bool)
    (s k b : nat) :
  shape3 ns nk nb T ->
  let mask := map (map (map f)) T in
  ((s < length mask)%nat /\ (k < length (nth s mask []))%nat
   /\ (b < length (nth k (nth s mask []) []))%nat
   /\ nth b (nth k (nth s mask []) []) false = true)
  <-> ((s < ns)%nat /\ (k < nk)%nat /\ (b < nb)%nat
       /\ f (ix3 T s k b) = true).
Proof.
  intros HT mask. unfold mask.
  assert (Hlen : length (map (map (map f)) T) = ns)
    by (rewrite length_map; apply HT).
  rewrite Hlen.
  destruct (Nat.lt_ge_cases s ns) as [Hs|Hs]; [|split; intros [? _]; lia].
  rewrite nth_map_map.
  pose proof (shape3_nth _ ns nk nb T s HT Hs) as [HlenS HallS].
  rewrite length_map, HlenS.
  destruct (Nat.lt_ge_cases k nk) as [Hk|Hk];
    [|split; intros [_ [? _]]; lia].
  rewrite nth_map_map, length_map.
  assert (HlenK : length (nth k (nth s T []) []) = nb).
  { apply (shape2_nth _ nk nb); [split; assumption | assumption]. }
  rewrite HlenK.
  destruct (Nat.lt_ge_cases b nb) as [Hb|Hb];
    [|split; intros [_ [_ [? _]]]; lia].
  rewrite (nth_indep _ false (f 0)) by now rewrite length_map, HlenK.
  rewrite map_nth. unfold ix3. tauto.
Qed.

Lemma norm_cut_pos (self : Davidson) :
  (0 < n_tot (basis (electrons self)))%nat -> 0 < _norm_cut self.
Proof.
  intros H. unfold _norm_cut. apply sqrt_lt_R0.
  apply Rmult_lt_0_compat; [now apply lt_0_INR|].
  apply Rinv_0_lt_compat, pow_lt. lra.
Qed.

(** C7.  Let [norm1] be the per-band norms after the broadcast that makes
    the processes agree.  [_regularize] selects exactly the bands whose
    norm is below [_norm_cut], hands them to [randomize_selected] with the
    iteration index as seed (leaving the block alone when there is none),
    sets the recorded norm of exactly those bands to 1 and keeps the other
    norms; given that [randomize_selected] leaves unselected bands as they
    are, all other bands are unchanged.  It is a total function, and every
    norm it leaves is non-zero, so the normalization that follows does not
    divide by zero. *)
Theorem regularize_spec (self : Davidson) (C : coeffs) (norm : tensor3R)
    (i_iter ns nk nb : nat) :
  let w := wfn (electrons self) in
  let norm1 := agreed_norm self norm i_iter in
  let low := fun s k b =>
    (s < ns)%nat /\ (k < nk)%nat /\ (b < nb)%nat
    /\ ix3 norm1 s k b < _norm_cut self in
  shape3 ns nk nb norm1 ->
  randomize_keeps_others w ->
  (0 < n_tot (basis (electrons self)))%nat ->
  exists i_spin i_k i_band,
    (forall s k b, In (s, k, b) (zip3 i_spin i_k i_band) <-> low s k b)
    /\ fst (_regularize self C norm i_iter) =
       (if Nat.eqb (length i_spin) 0 then C
        else randomize_selected w C i_spin i_k i_band i_iter)
    /\ (forall s k b, ~ low s k b ->
          band_at (fst (_regularize self C norm i_iter)) s k b =
          band_at C s k b)
    /\ shape3 ns nk nb (snd (_regularize self C norm i_iter))
    /\ (forall s k b, (s < ns)%nat -> (k < nk)%nat -> (b < nb)%nat ->
          (low s k b -> ix3 (snd (_regularize self C norm i_iter)) s k b = 1)
          /\ (~ low s k b ->
              ix3 (snd (_regularize self C norm i_iter)) s k b =
              ix3 norm1 s k b))
    /\ (forall s k b, (s < ns)%nat -> (k < nk)%nat -> (b < nb)%nat ->
          ix3 (snd (_regularize self C norm i_iter)) s k b <> 0).
Proof.
  intros w norm1 low Hshape Hkeep Hntot.
  pose proof (norm_cut_pos self Hntot) as Hcut.
  unfold _regularize. cbv zeta.
  change (if Nat.ltb 1 (n_procs_b (rc (electrons self)))
          then comm_b_Bcast (rc (electrons self)) i_iter norm else norm)
    with norm1.
  set (mask := map (map (map (fun x => Rltb x (_norm_cut self)))) norm1).
  unfold where3. cbv zeta.
  set (hits := where3_hits mask).
  set (i_spin := map (fun t => fst (fst t)) hits).
  set (i_k := map (fun t => snd (fst t)) hits).
  set (i_band := map (fun t => snd t) hits).
  assert (Hzip : zip3 i_spin i_k i_band = hits) by apply zip3_maps.
  assert (Hlow : forall s k b, In (s, k, b) hits <-> low s k b).
  { intros s k b. unfold hits. rewrite where3_hits_spec.
    unfold mask. rewrite (low_mask_spec ns nk nb norm1 _ s k b Hshape).
    unfold low. now rewrite Rltb_true. }
  exists i_spin, i_k, i_band. fold w.
  split; [intros s k b; rewrite Hzip; apply Hlow|].
  destruct (Nat.eqb (length i_spin) 0) eqn:Hempty; cbn [fst snd].
  - (* no band is low *)
    assert (Hnil : hits = []).
    { apply Nat.eqb_eq in Hempty. unfold i_spin in Hempty.
      rewrite length_map in Hempty. now apply length_zero_iff_nil. }
    assert (Hnone : forall s k b, ~ low s k b).
    { intros s k b H. apply Hlow in H. now rewrite Hnil in H. }
    split; [reflexivity|]. split; [reflexivity|].
    split; [assumption|]. split.
    + intros s k b _ _ _. split; [|reflexivity].
      intros H. now apply Hnone in H.
    + intros s k b Hs Hk Hb Hz.
      destruct (Rlt_dec (ix3 norm1 s k b) (_norm_cut self)).
      * apply (Hnone s k b). unfold low. auto.
      * lra.
  - destruct (index_put_spec ns nk nb 1 i_spin i_k i_band norm1 Hshape)
      as [Hsh Hix].
    split; [reflexivity|]. split; [|split; [assumption|split]].
    + intros s k b Hn. apply Hkeep. rewrite Hzip, Hlow. exact Hn.
    + intros s k b Hs Hk Hb. destruct (Hix s k b Hs Hk Hb) as [Hin Hout].
      split; intros H; [apply Hin | apply Hout]; now rewrite Hzip, Hlow.
    + intros s k b Hs Hk Hb. destruct (Hix s k b Hs Hk Hb) as [Hin Hout].
      destruct (Rlt_dec (ix3 norm1 s k b) (_norm_cut self)) as [Hl|Hl].
      * rewrite Hin; [lra|]. rewrite Hzip, Hlow. unfold low. auto.
      * rewrite Hout; [lra|]. rewrite Hzip, Hlow. unfold low. tauto.
Qed.

(** Two bands with recorded norms 0 and 1 in a basis of five functions. *)
Lemma regularize_spec_witness :
  ix3 (snd (_regularize (toy_davidson no_solvers 5 2 0 []) [] [[[0; 1]]] 1))
      0 0 0 <> 0.
Proof.
  destruct (regularize_spec (toy_davidson no_solvers 5 2 0 []) []
              [[[0; 1]]] 1 1 1 2) as [i1 [i2 [i3 [_ [_ [_ [_ [_ H]]]]]]]].
  - repeat constructor.
  - intros C i1 i2 i3 seed s k b _. reflexivity.
  - cbn. lia.
  - apply H; lia.
Defined.

(* ================================================================== *)
(** * Complex arithmetic and sums *)
(* ================================================================== *)

Lemma complex_eq (z w : complex) : Re z = Re w -> Im z = Im w -> z = w.
Proof. destruct z, w. cbn. now intros -> ->. Qed.

Ltac csimpl :=
  intros; apply complex_eq; cbn; try ring.

Lemma Cadd_0_l (z : complex) : Cadd C0 z = z. Proof. csimpl. Qed.
Lemma Cadd_0_r (z : complex) : Cadd z C0 = z. Proof. csimpl. Qed.
Lemma Cadd_comm (z w : complex) : Cadd z w = Cadd w z. Proof. csimpl. Qed.
Lemma Cadd_assoc (x y z : complex) : Cadd x (Cadd y z) = Cadd (Cadd x y) z.
Proof. csimpl. Qed.
Lemma Cmul_0_l (z : complex) : Cmul C0 z = C0. Proof. csimpl. Qed.
Lemma Cmul_0_r (z : complex) : Cmul z C0 = C0. Proof. csimpl. Qed.
Lemma Cmul_1_l (z : complex) : Cmul C1 z = z. Proof. csimpl. Qed.
Lemma Cmul_1_r (z : complex) : Cmul z C1 = z. Proof. csimpl. Qed.
Lemma Cmul_comm (z w : complex) : Cmul z w = Cmul w z. Proof. csimpl. Qed.
Lemma Cmul_assoc (x y z : complex) : Cmul x (Cmul y z) = Cmul (Cmul x y) z.
Proof. csimpl. Qed.
Lemma Cmul_add_distr_l (x y z : complex) :
  Cmul x (Cadd y z) = Cadd (Cmul x y) (Cmul x z).
Proof. csimpl. Qed.
Lemma Cmul_add_distr_r (x y z : complex) :
  Cmul (Cadd x y) z = Cadd (Cmul x z) (Cmul y z).
Proof. csimpl. Qed.
Lemma Csub_def (x y : complex) : Csub x y = Cadd x (Copp y).
Proof. csimpl. Qed.
Lemma Cadd_opp_r (x : complex) : Cadd x (Copp x) = C0. Proof. csimpl. Qed.
Lemma Cconj_conj (z : complex) : Cconj (Cconj z) = z. Proof. csimpl. Qed.
Lemma Cconj_add (z w : complex) : Cconj (Cadd z w) = Cadd (Cconj z) (Cconj w).
Proof. csimpl. Qed.
Lemma Cconj_mul (z w : complex) : Cconj (Cmul z w) = Cmul (Cconj z) (Cconj w).
Proof. csimpl. Qed.
Lemma Cconj_0 : Cconj C0 = C0. Proof. csimpl. Qed.
Lemma Cconj_1 : Cconj C1 = C1. Proof. csimpl. Qed.
Lemma Cconj_RtoC (x : R) : Cconj (RtoC x) = RtoC x. Proof. csimpl. Qed.

Lemma complex_ring :
  ring_theory C0 C1 Cadd Cmul Csub Copp (@eq complex).
Proof.
  constructor.
  - exact Cadd_0_l.
  - exact Cadd_comm.
  - exact Cadd_assoc.
  - exact Cmul_1_l.
  - exact Cmul_comm.
  - exact Cmul_assoc.
  - exact Cmul_add_distr_r.
  - exact Csub_def.
  - exact Cadd_opp_r.
Qed.

Add Ring complex_ring_inst : complex_ring.

Lemma Csum_ext (n : nat) (f g : nat -> complex) :
  (forall i, (i < n)%nat -> f i = g i) -> Csum n f = Csum n g.
Proof.
  induction n as [|n IH]; intros H; cbn; [reflexivity|].
  rewrite IH by (intros; apply H; lia). now rewrite H by lia.
Qed.

Lemma Csum_0 (n : nat) : Csum n (fun _ => C0) = C0.
Proof. induction n as [|n IH]; cbn; [reflexivity|]. rewrite IH. ring. Qed.

Lemma Csum_add (n : nat) (f g : nat -> complex) :
  Csum n (fun i => Cadd (f i) (g i)) = Cadd (Csum n f) (Csum n g).
Proof. induction n as [|n IH]; cbn; [ring|]. rewrite IH. ring. Qed.

Lemma Csum_mul_l (n : nat) (c : complex) (f : nat -> complex) :
  Csum n (fun i => Cmul c (f i)) = Cmul c (Csum n f).
Proof. induction n as [|n IH]; cbn; [ring|]. rewrite IH. ring. Qed.

Lemma Csum_mul_r (n : nat) (c : complex) (f : nat -> complex) :
  Csum n (fun i => Cmul (f i) c) = Cmul (Csum n f) c.
Proof. induction n as [|n IH]; cbn; [ring|]. rewrite IH. ring. Qed.

Lemma Csum_conj (n : nat) (f : nat -> complex) :
  Cconj (Csum n f) = Csum n (fun i => Cconj (f i)).
Proof.
  induction n as [|n IH]; cbn [Csum]; [apply Cconj_0|].
  now rewrite Cconj_add, IH.
Qed.

Lemma Csum_swap (n m : nat) (f : nat -> nat -> complex) :
  Csum n (fun i => Csum m (fun j => f i j)) =
  Csum m (fun j => Csum n (fun i => f i j)).
Proof.
  induction n as [|n IH]; cbn [Csum].
  - now rewrite Csum_0.
  - rewrite IH, <- Csum_add. reflexivity.
Qed.

Lemma Csum_split (n m : nat) (f : nat -> complex) :
  Csum (n + m) f = Cadd (Csum n f) (Csum m (fun i => f (n + i)%nat)).
Proof.
  induction m as [|m IH].
  - rewrite Nat.add_0_r. cbn. ring.
  - rewrite Nat.add_succ_r. cbn [Csum]. rewrite IH. ring.
Qed.

(** A sum against a Kronecker delta picks one term. *)
Lemma Csum_delta (n k : nat) (f : nat -> complex) :
  (k < n)%nat ->
  Csum n (fun i => if Nat.eqb i k then f i else C0) = f k.
Proof.
  induction n as [|n IH]; intros Hk; [lia|]. cbn [Csum].
  destruct (Nat.eqb_spec n k) as [->|Hne].
  - rewrite (Csum_ext k _ (fun _ => C0)).
    + rewrite Csum_0. ring.
    + intros i Hi. destruct (Nat.eqb_spec i k); [lia|reflexivity].
  - rewrite IH by lia. ring.
Qed.

(* ================================================================== *)
(** * The assembly of the subspace matrices (C6) *)
(* ================================================================== *)

Lemma set_block_shape (n1 n2 n3 n4 r0 r1 c0 c1 : nat) (B T : tensor4) :
  shape4 n1 n2 n3 n4 T -> shape4 n1 n2 n3 n4 (set_block r0 r1 c0 c1 B T).
Proof.
  intros H. unfold set_block. rewrite (tab4_lens _ _ n1 n2 n3 n4 T _ H).
  apply shape4_tab4.
Qed.

Lemma ix4_set_block (n1 n2 n3 n4 r0 r1 c0 c1 : nat) (B T : tensor4)
    (s k i j : nat) :
  shape4 n1 n2 n3 n4 T ->
  (s < n1)%nat -> (k < n2)%nat -> (i < n3)%nat -> (j < n4)%nat ->
  ix4 (set_block r0 r1 c0 c1 B T) s k i j =
  if in_slice r0 r1 i && in_slice c0 c1 j
  then ix4 B s k (i - r0) (j - c0) else ix4 T s k i j.
Proof.
  intros H Hs Hk Hi Hj. unfold set_block.
  rewrite (tab4_lens _ _ n1 n2 n3 n4 T _ H). now rewrite ix4_tab4.
Qed.

Lemma add_block_shape (n1 n2 n3 n4 r0 r1 c0 c1 : nat) (B : matrix)
    (T : tensor4) :
  shape4 n1 n2 n3 n4 T ->
  shape4 n1 n2 n3 n4 (add_block_bcast r0 r1 c0 c1 B T).
Proof.
  intros H. unfold add_block_bcast.
  rewrite (tab4_lens _ _ n1 n2 n3 n4 T _ H). apply shape4_tab4.
Qed.

Lemma ix4_add_block (n1 n2 n3 n4 r0 r1 c0 c1 : nat) (B : matrix)
    (T : tensor4) (s k i j : nat) :
  shape4 n1 n2 n3 n4 T ->
  (s < n1)%nat -> (k < n2)%nat -> (i < n3)%nat -> (j < n4)%nat ->
  ix4 (add_block_bcast r0 r1 c0 c1 B T) s k i j =
  if in_slice r0 r1 i && in_slice c0 c1 j
  then Cadd (ix4 T s k i j) (ix2 B (i - r0) (j - c0)) else ix4 T s k i j.
Proof.
  intros H Hs Hk Hi Hj. unfold add_block_bcast.
  rewrite (tab4_lens _ _ n1 n2 n3 n4 T _ H). now rewrite ix4_tab4.
Qed.

Lemma in_slice_true (lo hi i : nat) :
  in_slice lo hi i = true <-> (lo <= i < hi)%nat.
Proof.
  unfold in_slice. rewrite andb_true_iff, Nat.leb_le, Nat.ltb_lt. tauto.
Qed.

Lemma in_slice_false (lo hi i : nat) :
  in_slice lo hi i = false <-> (i < lo \/ hi <= i)%nat.
Proof.
  unfold in_slice. rewrite andb_false_iff, Nat.leb_gt, Nat.ltb_ge. tauto.
Qed.

(** Decide the window tests of the slice assignments by arithmetic. *)
Ltac slices :=
  repeat match goal with
    | |- context [in_slice ?lo ?hi ?i] =>
        first [ rewrite (proj2 (in_slice_true lo hi i)) by lia
              | rewrite (proj2 (in_slice_false lo hi i)) by lia ]
    end; cbn [andb].

(** The matrix of inner products of two shaped blocks. *)
Lemma dot_tab (ns nk nb nb' nsp ng : nat) (C D : coeffs) :
  shape5 ns nk nb nsp ng C -> shape5 ns nk nb' nsp ng D ->
  dot C D =
  tab4 ns nk nb nb'
       (fun s k i j =>
          Csum nsp (fun sp => Csum ng (fun g =>
            Cmul (Cconj (ix5 C s k i sp g)) (ix5 D s k j sp g)))).
Proof.
  intros HC HD. unfold dot, len0.
  rewrite (proj1 HC).
  unfold tab4, tab3, tab2.
  apply tab_ext; intros s Hs.
  rewrite (shape5_len1 _ ns nk nb nsp ng C HC) by lia.
  apply tab_ext; intros k Hk.
  rewrite (shape5_len2 _ ns nk nb nsp ng C HC) by lia.
  rewrite (shape5_len2 _ ns nk nb' nsp ng D HD) by lia.
  apply tab_ext; intros i Hi. apply tab_ext; intros j Hj.
  rewrite (shape5_len3 _ ns nk nb nsp ng C HC) by lia.
  apply Csum_ext; intros sp Hsp.
  rewrite (shape5_len4 _ ns nk nb nsp ng C HC) by lia. reflexivity.
Qed.

Lemma dot_shape (ns nk nb nb' nsp ng : nat) (C D : coeffs) :
  shape5 ns nk nb nsp ng C -> shape5 ns nk nb' nsp ng D ->
  shape4 ns nk nb nb' (dot C D).
Proof.
  intros HC HD. rewrite (dot_tab ns nk nb nb' nsp ng C D HC HD).
  apply shape4_tab4.
Qed.

Lemma ix4_conj_transpose (n1 n2 r c : nat) (M : tensor4) (s k i j : nat) :
  shape4 n1 n2 r c M ->
  (s < n1)%nat -> (k < n2)%nat -> (i < c)%nat -> (j < r)%nat ->
  ix4 (conj_transpose M) s k i j = Cconj (ix4 M s k j i).
Proof.
  intros HM Hs Hk Hi Hj. unfold conj_transpose, map_sk, ix4.
  rewrite nth_map_map.
  change (@nil (list complex)) with
    ((fun m : matrix => tab2 (len1 m) (length m)
                             (fun i j => Cconj (ix2 m j i))) []) at 1.
  rewrite map_nth.
  pose proof (shape4_nth _ n1 n2 r c M s HM Hs) as HMs.
  pose proof (shape3_nth _ n2 r c _ k HMs Hk) as HMk.
  rewrite (proj1 HMk), (shape2_len1 _ r c _ HMk) by lia.
  now rewrite ix2_tab2.
Qed.

Lemma ix4_diag_embed (ns nk nb : nat) (E : tensor3R) (s k i j : nat) :
  shape3 ns nk nb E ->
  (s < ns)%nat -> (k < nk)%nat -> (i < nb)%nat -> (j < nb)%nat ->
  ix4 (diag_embed E) s k i j =
  if Nat.eqb i j then RtoC (ix3 E s k i) else C0.
Proof.
  intros HE Hs Hk Hi Hj. unfold diag_embed, map_sk, ix4.
  rewrite nth_map_map.
  change (@nil (list complex)) with
    ((fun e : list R => tab2 (length e) (length e)
        (fun i j => if Nat.eqb i j then RtoC (nth i e 0) else C0)) []) at 1.
  rewrite map_nth.
  pose proof (shape3_nth _ ns nk nb E s HE Hs) as HEs.
  rewrite (shape2_nth _ nk nb _ k HEs Hk).
  now rewrite ix2_tab2.
Qed.

Lemma ix2_eye (n i j : nat) :
  (i < n)%nat -> (j < n)%nat ->
  ix2 (eye n) i j = if Nat.eqb i j then C1 else C0.
Proof. intros. unfold eye. now rewrite ix2_tab2. Qed.

Lemma ix4_zeros4 (n1 n2 n3 n4 s k i j : nat) :
  (s < n1)%nat -> (k < n2)%nat -> (i < n3)%nat -> (j < n4)%nat ->
  ix4 (zeros4 n1 n2 n3 n4) s k i j = C0.
Proof. intros. unfold zeros4. now rewrite ix4_tab4. Qed.

(** Side conditions of reading a slice-assigned tensor: index bounds, and
    the shape of the tensor assigned into, closed by [base] below the
    assignments. *)
Ltac block_side base :=
  lazymatch goal with
  | |- (_ < _)%nat => assumption
  | |- shape4 _ _ _ _ _ => repeat simple apply set_block_shape; base
  end.

(** The four blocks of the assembled overlap matrix. *)
Lemma assemble_overlap_blocks (self : Davidson) (n_cur n_exp nsp ng : nat)
    (C Cexp : coeffs) :
  let el := electrons self in
  let ns := n_spins el in
  let nk := nk_mine el in
  let n_new := (n_cur + n_exp)%nat in
  let O := assemble_overlap self n_cur n_new C Cexp in
  shape5 ns nk n_cur nsp ng C ->
  shape5 ns nk n_exp nsp ng (overlap (wfn el) Cexp) ->
  shape4 ns nk n_new n_new O
  /\ forall s k, (s < ns)%nat -> (k < nk)%nat ->
     (forall i j, (i < n_cur)%nat -> (j < n_cur)%nat ->
        ix4 O s k i j = delta i j)
     /\ (forall i j, (i < n_cur)%nat -> (j < n_exp)%nat ->
           ix4 O s k i (n_cur + j) = ix4 (dot_overlap (wfn el) C Cexp) s k i j)
     /\ (forall i j, (i < n_cur)%nat -> (j < n_exp)%nat ->
           ix4 O s k (n_cur + j) i =
           Cconj (ix4 (dot_overlap (wfn el) C Cexp) s k i j))
     /\ (forall i j, (i < n_exp)%nat -> (j < n_exp)%nat ->
           ix4 O s k (n_cur + i) (n_cur + j) =
           ix4 (dot_overlap (wfn el) Cexp Cexp) s k i j).
Proof.
  intros el ns nk n_new O HC HOe.
  assert (HZ : shape4 ns nk n_new n_new (zeros4 ns nk n_new n_new))
    by apply shape4_tab4.
  assert (Hd1 : shape4 ns nk n_cur n_exp (dot_overlap (wfn el) C Cexp))
    by (apply (dot_shape ns nk n_cur n_exp nsp ng); assumption).
  assert (HO : forall s k i j, (s < ns)%nat -> (k < nk)%nat ->
            (i < n_new)%nat -> (j < n_new)%nat ->
            ix4 O s k i j =
            if in_slice n_cur n_new i && in_slice n_cur n_new j
            then ix4 (dot_overlap (wfn el) Cexp Cexp) s k (i - n_cur) (j - n_cur)
            else if in_slice n_cur n_new i && in_slice 0 n_cur j
            then ix4 (conj_transpose (dot_overlap (wfn el) C Cexp)) s k
                     (i - n_cur) (j - 0)
            else if in_slice 0 n_cur i && in_slice n_cur n_new j
            then ix4 (dot_overlap (wfn el) C Cexp) s k (i - 0) (j - n_cur)
            else if in_slice 0 n_cur i && in_slice 0 n_cur j
            then Cadd C0 (ix2 (eye n_cur) (i - 0) (j - 0))
            else C0).
  { intros s k i j Hs Hk Hi Hj. unfold O, assemble_overlap. cbv zeta.
    fold el ns nk.
    rewrite (ix4_set_block ns nk n_new n_new) by
      (block_side ltac:(apply add_block_shape; exact HZ)).
    rewrite (ix4_set_block ns nk n_new n_new) by
      (block_side ltac:(apply add_block_shape; exact HZ)).
    rewrite (ix4_set_block ns nk n_new n_new) by
      (block_side ltac:(apply add_block_shape; exact HZ)).
    rewrite (ix4_add_block ns nk n_new n_new) by (block_side ltac:(exact HZ)).
    now rewrite ix4_zeros4. }
  split; [unfold O, assemble_overlap; cbv zeta;
          do 3 apply set_block_shape; apply add_block_shape; exact HZ|].
  intros s k Hs Hk. unfold n_new in *.
  split; [|split; [|split]]; intros i j Hi Hj.
  - rewrite HO by lia. slices. rewrite !Nat.sub_0_r.
    rewrite ix2_eye by assumption. unfold delta. now rewrite Cadd_0_l.
  - rewrite HO by lia. slices.
    now rewrite Nat.sub_0_r, Nat.add_comm, Nat.add_sub.
  - rewrite HO by lia. slices.
    rewrite !Nat.sub_0_r, (Nat.add_comm n_cur j), Nat.add_sub.
    now rewrite (ix4_conj_transpose ns nk n_cur n_exp) by assumption.
  - rewrite HO by lia. slices.
    now rewrite (Nat.add_comm n_cur i), (Nat.add_comm n_cur j), !Nat.add_sub.
Qed.

(** The four blocks of the assembled Hamiltonian matrix. *)
Lemma assemble_hamiltonian_blocks (self : Davidson) (n_cur n_exp nsp ng : nat)
    (E : tensor3R) (C Cexp HCexp : coeffs) :
  let el := electrons self in
  let ns := n_spins el in
  let nk := nk_mine el in
  let n_new := (n_cur + n_exp)%nat in
  let H := assemble_hamiltonian self n_cur n_new E C Cexp HCexp in
  shape5 ns nk n_cur nsp ng C ->
  shape5 ns nk n_exp nsp ng HCexp ->
  shape3 ns nk n_cur E ->
  shape4 ns nk n_new n_new H
  /\ forall s k, (s < ns)%nat -> (k < nk)%nat ->
     (forall i j, (i < n_cur)%nat -> (j < n_cur)%nat ->
        ix4 H s k i j = Cmul (RtoC (ix3 E s k i)) (delta i j))
     /\ (forall i j, (i < n_cur)%nat -> (j < n_exp)%nat ->
           ix4 H s k i (n_cur + j) = ix4 (dot C HCexp) s k i j)
     /\ (forall i j, (i < n_cur)%nat -> (j < n_exp)%nat ->
           ix4 H s k (n_cur + j) i = Cconj (ix4 (dot C HCexp) s k i j))
     /\ (forall i j, (i < n_exp)%nat -> (j < n_exp)%nat ->
           ix4 H s k (n_cur + i) (n_cur + j) = ix4 (dot Cexp HCexp) s k i j).
Proof.
  intros el ns nk n_new H HC HHe HE.
  assert (HZ : shape4 ns nk n_new n_new (zeros4 ns nk n_new n_new))
    by apply shape4_tab4.
  assert (Hd2 : shape4 ns nk n_cur n_exp (dot C HCexp))
    by (apply (dot_shape ns nk n_cur n_exp nsp ng); assumption).
  assert (HH : forall s k i j, (s < ns)%nat -> (k < nk)%nat ->
            (i < n_new)%nat -> (j < n_new)%nat ->
            ix4 H s k i j =
            if in_slice n_cur n_new i && in_slice n_cur n_new j
            then ix4 (dot Cexp HCexp) s k (i - n_cur) (j - n_cur)
            else if in_slice n_cur n_new i && in_slice 0 n_cur j
            then ix4 (conj_transpose (dot C HCexp)) s k (i - n_cur) (j - 0)
            else if in_slice 0 n_cur i && in_slice n_cur n_new j
            then ix4 (dot C HCexp) s k (i - 0) (j - n_cur)
            else if in_slice 0 n_cur i && in_slice 0 n_cur j
            then ix4 (diag_embed E) s k (i - 0) (j - 0)
            else C0).
  { intros s k i j Hs Hk Hi Hj. unfold H, assemble_hamiltonian. cbv zeta.
    fold el ns nk.
    rewrite (ix4_set_block ns nk n_new n_new) by
      (block_side ltac:(exact HZ)).
    rewrite (ix4_set_block ns nk n_new n_new) by
      (block_side ltac:(exact HZ)).
    rewrite (ix4_set_block ns nk n_new n_new) by
      (block_side ltac:(exact HZ)).
    rewrite (ix4_set_block ns nk n_new n_new) by (block_side ltac:(exact HZ)).
    now rewrite ix4_zeros4. }
  split; [unfold H, assemble_hamiltonian; cbv zeta;
          do 4 apply set_block_shape; exact HZ|].
  intros s k Hs Hk. unfold n_new in *.
  split; [|split; [|split]]; intros i j Hi Hj.
  - rewrite HH by lia. slices. rewrite !Nat.sub_0_r.
    rewrite (ix4_diag_embed ns nk n_cur) by assumption.
    unfold delta. destruct (Nat.eqb i j); ring.
  - rewrite HH by lia. slices.
    now rewrite Nat.sub_0_r, Nat.add_comm, Nat.add_sub.
  - rewrite HH by lia. slices.
    rewrite !Nat.sub_0_r, (Nat.add_comm n_cur j), Nat.add_sub.
    now rewrite (ix4_conj_transpose ns nk n_cur n_exp) by assumption.
  - rewrite HH by lia. slices.
    now rewrite (Nat.add_comm n_cur i), (Nat.add_comm n_cur j), !Nat.add_sub.
Qed.

(** C6.  For shaped inputs the assembled overlap and Hamiltonian matrices
    have the block form of the specification at every spin and k: the
    top-left block of the overlap is the identity and that of the
    Hamiltonian is [diag(E)]; the upper-right blocks are the computed
    products [C^O Cexp] and [C^H Cexp]; the lower-left blocks are the
    conjugate transposes of the upper-right ones; the lower-right blocks
    are [Cexp^O Cexp] and [Cexp^H Cexp]. *)
Theorem assembled_block_form (self : Davidson) (n_cur n_exp nsp ng : nat)
    (E : tensor3R) (C Cexp HCexp : coeffs) :
  let el := electrons self in
  let ns := n_spins el in
  let nk := nk_mine el in
  let n_new := (n_cur + n_exp)%nat in
  let O := assemble_overlap self n_cur n_new C Cexp in
  let H := assemble_hamiltonian self n_cur n_new E C Cexp HCexp in
  shape5 ns nk n_cur nsp ng C ->
  shape5 ns nk n_exp nsp ng Cexp ->
  shape5 ns nk n_exp nsp ng (overlap (wfn el) Cexp) ->
  shape5 ns nk n_exp nsp ng HCexp ->
  shape3 ns nk n_cur E ->
  shape4 ns nk n_new n_new O /\ shape4 ns nk n_new n_new H
  /\ forall s k, (s < ns)%nat -> (k < nk)%nat ->
     (forall i j, (i < n_cur)%nat -> (j < n_cur)%nat ->
        ix4 O s k i j = (if Nat.eqb i j then C1 else C0)
        /\ ix4 H s k i j = (if Nat.eqb i j then RtoC (ix3 E s k i) else C0))
     /\ (forall i j, (i < n_cur)%nat -> (j < n_exp)%nat ->
           ix4 O s k i (n_cur + j) = ix4 (dot_overlap (wfn el) C Cexp) s k i j
           /\ ix4 H s k i (n_cur + j) = ix4 (dot C HCexp) s k i j)
     /\ (forall i j, (i < n_cur)%nat -> (j < n_exp)%nat ->
           ix4 O s k (n_cur + j) i = Cconj (ix4 O s k i (n_cur + j))
           /\ ix4 H s k (n_cur + j) i = Cconj (ix4 H s k i (n_cur + j)))
     /\ (forall i j, (i < n_exp)%nat -> (j < n_exp)%nat ->
           ix4 O s k (n_cur + i) (n_cur + j) =
             ix4 (dot_overlap (wfn el) Cexp Cexp) s k i j
           /\ ix4 H s k (n_cur + i) (n_cur + j) = ix4 (dot Cexp HCexp) s k i j).
Proof.
  intros el ns nk n_new O H HC HCe HOe HHe HE.
  destruct (assemble_overlap_blocks self n_cur n_exp nsp ng C Cexp HC HOe)
    as [HOs HOb].
  destruct (assemble_hamiltonian_blocks self n_cur n_exp nsp ng E C Cexp HCexp
              HC HHe HE) as [HHs HHb].
  split; [exact HOs|]. split; [exact HHs|].
  intros s k Hs Hk.
  destruct (HOb s k Hs Hk) as [O11 [O12 [O21 O22]]].
  destruct (HHb s k Hs Hk) as [H11 [H12 [H21 H22]]].
  split; [|split; [|split]]; intros i j Hi Hj.
  - fold O in O11. fold H in H11. rewrite O11, H11 by assumption.
    unfold delta. split; [reflexivity|]. destruct (Nat.eqb i j); ring.
  - split; [now apply O12 | now apply H12].
  - fold O in O12, O21. fold H in H12, H21.
    rewrite O21, O12, H21, H12 by assumption. auto.
  - split; [now apply O22 | now apply H22].
Qed.

(** One current band [e1] and one expansion band [(e1 + i e2)/...] in a
    basis of three functions. *)
Lemma assembled_block_form_witness :
  let self := toy_davidson no_solvers 3 1 0 [] in
  let C := [[[[[C1; C0; C0]]]]] in
  let Cexp := [[[[[mkC 1 0; mkC 0 1; C0]]]]] in
  ix4 (assemble_overlap self 1 2 C Cexp) 0 0 1 0 =
  Cconj (ix4 (assemble_overlap self 1 2 C Cexp) 0 0 0 1).
Proof.
  intros self C Cexp.
  assert (HC : shape5 1 1 1 1 3 C) by (repeat constructor).
  assert (HCe : shape5 1 1 1 1 3 Cexp) by (repeat constructor).
  assert (HE : shape3 1 1 1 [[[2]]]) by (repeat constructor).
  pose proof (assembled_block_form self 1 1 1 3 [[[2]]] C Cexp Cexp
                HC HCe HCe HCe HE) as [_ [_ H]].
  destruct (H 0%nat 0%nat ltac:(cbn; lia) ltac:(cbn; lia))
    as [_ [_ [Hll _]]].
  exact (proj1 (Hll 0%nat 0%nat ltac:(lia) ltac:(lia))).
Defined.

(* ================================================================== *)
(** * Blocks: shapes and normal forms *)
(* ================================================================== *)

Lemma matmul_tab (ns nk nb m nsp ng : nat) (C : coeffs) (V : tensor4) :
  (0 < nb)%nat ->
  shape5 ns nk nb nsp ng C -> shape4 ns nk nb m V ->
  matmul C V =
  tab5 ns nk m nsp ng
       (fun s k j sp g =>
          Csum nb (fun i => Cmul (ix5 C s k i sp g) (ix4 V s k i j))).
Proof.
  intros Hnb HC HV. unfold matmul, len0. rewrite (proj1 HC).
  unfold tab5, tab4, tab3, tab2.
  apply tab_ext; intros s Hs.
  rewrite (shape5_len1 _ ns nk nb nsp ng C HC) by lia.
  apply tab_ext; intros k Hk.
  rewrite (shape4_len3 _ ns nk nb m V HV) by lia.
  apply tab_ext; intros j Hj.
  rewrite (shape5_len3 _ ns nk nb nsp ng C HC) by lia.
  apply tab_ext; intros sp Hsp.
  rewrite (shape5_len4 _ ns nk nb nsp ng C HC) by lia.
  apply tab_ext; intros g Hg.
  rewrite (shape5_len2 _ ns nk nb nsp ng C HC) by lia. reflexivity.
Qed.

Lemma matmul_shape (ns nk nb m nsp ng : nat) (C : coeffs) (V : tensor4) :
  (0 < nb)%nat ->
  shape5 ns nk nb nsp ng C -> shape4 ns nk nb m V ->
  shape5 ns nk m nsp ng (matmul C V).
Proof.
  intros Hnb HC HV. rewrite (matmul_tab ns nk nb m nsp ng) by assumption.
  apply shape5_tab5.
Qed.

Lemma coeffs_add_shape (ns nk nb nsp ng : nat) (A B : coeffs) :
  shape5 ns nk nb nsp ng A -> shape5 ns nk nb nsp ng (coeffs_add A B).
Proof.
  intros HA. unfold coeffs_add.
  rewrite (tab5_lens _ _ ns nk nb nsp ng A _ HA). apply shape5_tab5.
Qed.

Lemma ix5_coeffs_add (ns nk nb nsp ng : nat) (A B : coeffs)
    (s k b sp g : nat) :
  shape5 ns nk nb nsp ng A ->
  (s < ns)%nat -> (k < nk)%nat -> (b < nb)%nat -> (sp < nsp)%nat ->
  (g < ng)%nat ->
  ix5 (coeffs_add A B) s k b sp g = Cadd (ix5 A s k b sp g) (ix5 B s k b sp g).
Proof.
  intros HA Hs Hk Hb Hsp Hg. unfold coeffs_add.
  rewrite (tab5_lens _ _ ns nk nb nsp ng A _ HA). now rewrite ix5_tab5.
Qed.

Lemma coeffs_sub_shape (ns nk nb nsp ng : nat) (A B : coeffs) :
  shape5 ns nk nb nsp ng A -> shape5 ns nk nb nsp ng (coeffs_sub A B).
Proof.
  intros HA. unfold coeffs_sub.
  rewrite (tab5_lens _ _ ns nk nb nsp ng A _ HA). apply shape5_tab5.
Qed.

Lemma coeffs_mul_band_shape (ns nk nb nsp ng : nat) (A : coeffs)
    (X : tensor3R) :
  shape5 ns nk nb nsp ng A -> shape5 ns nk nb nsp ng (coeffs_mul_band A X).
Proof.
  intros HA. unfold coeffs_mul_band.
  rewrite (tab5_lens _ _ ns nk nb nsp ng A _ HA). apply shape5_tab5.
Qed.

(** Slices along the band axis. *)
Lemma Forall_firstn (A : Type) (P : A -> Prop) (n : nat) (l : list A) :
  Forall P l -> Forall P (firstn n l).
Proof.
  revert l. induction n as [|n IH]; intros l H; cbn; [constructor|].
  destruct H; constructor; auto.
Qed.

Lemma Forall_skipn (A : Type) (P : A -> Prop) (n : nat) (l : list A) :
  Forall P l -> Forall P (skipn n l).
Proof.
  revert l. induction n as [|n IH]; intros l H; cbn; [assumption|].
  destruct H; [constructor | auto].
Qed.

Lemma Forall_map_iff (A B : Type) (P : B -> Prop) (f : A -> B) (l : list A) :
  Forall P (map f l) <-> Forall (fun x => P (f x)) l.
Proof. apply Forall_map. Qed.

Lemma bands_from_shape5 (ns nk nb nsp ng d : nat) (C : coeffs) :
  shape5 ns nk nb nsp ng C -> shape5 ns nk (nb - d) nsp ng (bands_from d C).
Proof.
  intros [Hlen Hall]. unfold bands_from, map_sk. split.
  - now rewrite length_map.
  - apply Forall_map. eapply Forall_impl; [|exact Hall].
    intros Cs [HlenS HallS]. split; [now rewrite length_map|].
    apply Forall_map. eapply Forall_impl; [|exact HallS].
    intros Ck [HlenK HallK]. split.
    + rewrite length_skipn. lia.
    + now apply Forall_skipn.
Qed.

Lemma bands_upto_shape3 (ns nk nb n : nat) (E : tensor3R) :
  shape3 ns nk nb E -> shape3 ns nk (Nat.min n nb) (bands_upto n E).
Proof.
  intros [Hlen Hall]. unfold bands_upto, map_sk. split.
  - now rewrite length_map.
  - apply Forall_map. eapply Forall_impl; [|exact Hall].
    intros Es [HlenS HallS]. split; [now rewrite length_map|].
    apply Forall_map. eapply Forall_impl; [|exact HallS].
    intros Ek HlenK. unfold shape1 in *. rewrite length_firstn. lia.
Qed.

(** The two slices of the eigenvectors. *)
Lemma rows_upto_shape (ns nk n r c : nat) (V : tensor4) :
  (r <= n)%nat -> (c <= n)%nat -> shape4 ns nk n n V ->
  shape4 ns nk r c (rows_upto_cols_upto r c V).
Proof.
  intros Hr Hc [Hlen Hall]. unfold rows_upto_cols_upto, map_sk. split.
  - now rewrite length_map.
  - apply Forall_map. eapply Forall_impl; [|exact Hall].
    intros Vs [HlenS HallS]. split; [now rewrite length_map|].
    apply Forall_map. eapply Forall_impl; [|exact HallS].
    intros Vk [HlenK HallK]. split.
    + rewrite length_map, length_firstn. lia.
    + apply Forall_map, Forall_firstn. eapply Forall_impl; [|exact HallK].
      intros row Hrow. unfold shape1 in *. rewrite length_firstn. lia.
Qed.

Lemma rows_from_shape (ns nk n r c : nat) (V : tensor4) :
  (c <= n)%nat -> shape4 ns nk n n V ->
  shape4 ns nk (n - r) c (rows_from_cols_upto r c V).
Proof.
  intros Hc [Hlen Hall]. unfold rows_from_cols_upto, map_sk. split.
  - now rewrite length_map.
  - apply Forall_map. eapply Forall_impl; [|exact Hall].
    intros Vs [HlenS HallS]. split; [now rewrite length_map|].
    apply Forall_map. eapply Forall_impl; [|exact HallS].
    intros Vk [HlenK HallK]. split.
    + rewrite length_map, length_skipn. lia.
    + apply Forall_map, Forall_skipn. eapply Forall_impl; [|exact HallK].
      intros row Hrow. unfold shape1 in *. rewrite length_firstn. lia.
Qed.

Lemma nth_map_nil (A B : Type) (f : list A -> list B) (l : list (list A))
    (n : nat) :
  f [] = [] -> nth n (map f l) [] = f (nth n l []).
Proof. intros Hf. rewrite <- Hf at 1. apply map_nth. Qed.

Lemma ix2_rows_cols (r c : nat) (m : matrix) (i j : nat) :
  (i < r)%nat -> (j < c)%nat ->
  ix2 (map (firstn c (A:=complex)) (firstn r m)) i j = ix2 m i j.
Proof.
  intros Hi Hj. unfold ix2.
  rewrite (nth_map_nil _ _ (firstn c (A:=complex))) by apply firstn_nil.
  rewrite !nth_firstn.
  apply Nat.ltb_lt in Hi, Hj. now rewrite Hi, Hj.
Qed.

Lemma ix2_rows_from_cols (r c : nat) (m : matrix) (i j : nat) :
  (j < c)%nat ->
  ix2 (map (firstn c (A:=complex)) (skipn r m)) i j = ix2 m (r + i) j.
Proof.
  intros Hj. unfold ix2.
  rewrite (nth_map_nil _ _ (firstn c (A:=complex))) by apply firstn_nil.
  rewrite nth_firstn, nth_skipn.
  apply Nat.ltb_lt in Hj. now rewrite Hj.
Qed.

Lemma nth_map_sk (A B : Type) (f : list A -> list B) (T : list (list (list A)))
    (s k : nat) :
  f [] = [] ->
  nth k (nth s (map_sk f T) []) [] = f (nth k (nth s T []) []).
Proof.
  intros Hf. unfold map_sk.
  rewrite (nth_map_nil _ _ (map f)) by reflexivity.
  now apply nth_map_nil.
Qed.

Lemma ix4_rows_upto (r c : nat) (V : tensor4) (s k i j : nat) :
  (i < r)%nat -> (j < c)%nat ->
  ix4 (rows_upto_cols_upto r c V) s k i j = ix4 V s k i j.
Proof.
  intros Hi Hj. unfold ix4, rows_upto_cols_upto.
  rewrite (nth_map_sk _ _ (fun m : matrix => map (firstn c (A:=complex))
                                                 (firstn r m))).
  - now apply ix2_rows_cols.
  - now rewrite firstn_nil.
Qed.

Lemma ix4_rows_from (r c : nat) (V : tensor4) (s k i j : nat) :
  (j < c)%nat ->
  ix4 (rows_from_cols_upto r c V) s k i j = ix4 V s k (r + i) j.
Proof.
  intros Hj. unfold ix4, rows_from_cols_upto.
  rewrite (nth_map_sk _ _ (fun m : matrix => map (firstn c (A:=complex))
                                                 (skipn r m))).
  - now apply ix2_rows_from_cols.
  - now rewrite skipn_nil.
Qed.

(* ================================================================== *)
(** * Inner products of mixed bands *)
(* ================================================================== *)

Lemma Csum_mul_sums (n m : nat) (f g : nat -> complex) :
  Cmul (Csum n f) (Csum m g) =
  Csum n (fun p => Csum m (fun q => Cmul (f p) (g q))).
Proof.
  rewrite <- Csum_mul_r. apply Csum_ext; intros p _.
  now rewrite Csum_mul_l.
Qed.

(** Sesquilinearity: the inner product of two mixtures of vectors is the
    quadratic form of the mixing coefficients with the matrix of inner
    products of the vectors. *)
Lemma gram_mix (N nsp ng : nat) (x x' : nat -> nat -> nat -> complex)
    (v : nat -> nat -> complex) (i j : nat) :
  Csum nsp (fun sp => Csum ng (fun g =>
    Cmul (Cconj (Csum N (fun p => Cmul (x p sp g) (v p i))))
         (Csum N (fun q => Cmul (x' q sp g) (v q j)))))
  = Csum N (fun p => Csum N (fun q =>
      Cmul (Cmul (Cconj (v p i))
                 (Csum nsp (fun sp => Csum ng (fun g =>
                    Cmul (Cconj (x p sp g)) (x' q sp g)))))
           (v q j))).
Proof.
  set (T := fun sp g p q =>
    Cmul (Cmul (Cconj (v p i)) (Cmul (Cconj (x p sp g)) (x' q sp g))) (v q j)).
  transitivity (Csum nsp (fun sp => Csum ng (fun g =>
                  Csum N (fun p => Csum N (fun q => T sp g p q))))).
  { apply Csum_ext; intros sp _. apply Csum_ext; intros g _.
    rewrite Csum_conj, Csum_mul_sums.
    apply Csum_ext; intros p _. apply Csum_ext; intros q _.
    unfold T. rewrite Cconj_mul. ring. }
  transitivity (Csum N (fun p => Csum N (fun q =>
                  Csum nsp (fun sp => Csum ng (fun g => T sp g p q))))).
  { transitivity (Csum nsp (fun sp => Csum N (fun p =>
                    Csum ng (fun g => Csum N (fun q => T sp g p q))))).
    { apply Csum_ext; intros sp _. apply Csum_swap. }
    rewrite Csum_swap. apply Csum_ext; intros p _.
    transitivity (Csum nsp (fun sp => Csum N (fun q =>
                    Csum ng (fun g => T sp g p q)))).
    { apply Csum_ext; intros sp _. apply Csum_swap. }
    apply Csum_swap. }
  apply Csum_ext; intros p _. apply Csum_ext; intros q _.
  rewrite <- Csum_mul_l, <- Csum_mul_r.
  apply Csum_ext; intros sp _.
  rewrite <- Csum_mul_l, <- Csum_mul_r.
  apply Csum_ext; intros g _. reflexivity.
Qed.

(** The rotated block [A @ V + B @ W], entry by entry, as one mixture of the
    bands of [A] followed by those of [B]. *)
Lemma ix5_mix (ns nk n ne m nsp ng : nat) (A B : coeffs) (V W : tensor4)
    (s k j sp g : nat) :
  (0 < n)%nat -> (0 < ne)%nat ->
  shape5 ns nk n nsp ng A -> shape5 ns nk ne nsp ng B ->
  shape4 ns nk n m V -> shape4 ns nk ne m W ->
  (s < ns)%nat -> (k < nk)%nat -> (j < m)%nat -> (sp < nsp)%nat ->
  (g < ng)%nat ->
  ix5 (coeffs_add (matmul A V) (matmul B W)) s k j sp g =
  Csum (n + ne)
       (fun p =>
          Cmul (if Nat.ltb p n then ix5 A s k p sp g
                else ix5 B s k (p - n) sp g)
               (if Nat.ltb p n then ix4 V s k p j else ix4 W s k (p - n) j)).
Proof.
  intros Hn Hne HA HB HV HW Hs Hk Hj Hsp Hg.
  rewrite (ix5_coeffs_add ns nk m nsp ng) by
    (auto; now apply (matmul_shape ns nk n m nsp ng)).
  rewrite (matmul_tab ns nk n m nsp ng A V) by assumption.
  rewrite (matmul_tab ns nk ne m nsp ng B W) by assumption.
  rewrite !ix5_tab5 by assumption.
  rewrite Csum_split. f_equal.
  - apply Csum_ext; intros p Hp.
    apply Nat.ltb_lt in Hp. now rewrite Hp.
  - apply Csum_ext; intros p Hp.
    assert (Hge : Nat.ltb (n + p) n = false) by (apply Nat.ltb_ge; lia).
    rewrite Hge. now rewrite Nat.add_comm, Nat.add_sub.
Qed.

Lemma mix_shape (ns nk n ne m nsp ng : nat) (A B : coeffs) (V W : tensor4) :
  (0 < n)%nat ->
  shape5 ns nk n nsp ng A -> shape4 ns nk n m V ->
  shape5 ns nk m nsp ng (coeffs_add (matmul A V) (matmul B W)).
Proof.
  intros Hn HA HV. apply coeffs_add_shape.
  now apply (matmul_shape ns nk n m nsp ng).
Qed.

(** The inner products of two rotated blocks are the quadratic form of the
    stacked rotation [[V; W]] with the block matrix of the inner products
    of the unrotated blocks. *)
Lemma dot_mix (ns nk n ne m nsp ng : nat) (A B A' B' : coeffs)
    (V W Vn G : tensor4) (s k i j : nat) :
  (0 < n)%nat -> (0 < ne)%nat ->
  shape5 ns nk n nsp ng A -> shape5 ns nk ne nsp ng B ->
  shape5 ns nk n nsp ng A' -> shape5 ns nk ne nsp ng B' ->
  shape4 ns nk n m V -> shape4 ns nk ne m W ->
  (s < ns)%nat -> (k < nk)%nat -> (i < m)%nat -> (j < m)%nat ->
  (forall p c, (p < n)%nat -> (c < m)%nat -> ix4 Vn s k p c = ix4 V s k p c) ->
  (forall p c, (p < ne)%nat -> (c < m)%nat ->
               ix4 Vn s k (n + p) c = ix4 W s k p c) ->
  (forall p q, (p < n)%nat -> (q < n)%nat ->
               ix4 G s k p q = ix4 (dot A A') s k p q) ->
  (forall p q, (p < n)%nat -> (q < ne)%nat ->
               ix4 G s k p (n + q) = ix4 (dot A B') s k p q) ->
  (forall p q, (p < ne)%nat -> (q < n)%nat ->
               ix4 G s k (n + p) q = ix4 (dot B A') s k p q) ->
  (forall p q, (p < ne)%nat -> (q < ne)%nat ->
               ix4 G s k (n + p) (n + q) = ix4 (dot B B') s k p q) ->
  ix4 (dot (coeffs_add (matmul A V) (matmul B W))
           (coeffs_add (matmul A' V) (matmul B' W))) s k i j =
  quad_form (n + ne) Vn G s k i j.
Proof.
  intros Hn Hne HA HB HA' HB' HV HW Hs Hk Hi Hj HV1 HV2 G11 G12 G21 G22.
  rewrite (dot_tab ns nk m m nsp ng) by
    (apply (mix_shape ns nk n ne m nsp ng); assumption).
  rewrite ix4_tab4 by assumption.
  set (x := fun p sp g => if Nat.ltb p n then ix5 A s k p sp g
                          else ix5 B s k (p - n) sp g).
  set (x' := fun p sp g => if Nat.ltb p n then ix5 A' s k p sp g
                           else ix5 B' s k (p - n) sp g).
  set (v := fun p c => if Nat.ltb p n then ix4 V s k p c
                       else ix4 W s k (p - n) c).
  transitivity
    (Csum nsp (fun sp => Csum ng (fun g =>
       Cmul (Cconj (Csum (n + ne) (fun p => Cmul (x p sp g) (v p i))))
            (Csum (n + ne) (fun q => Cmul (x' q sp g) (v q j)))))).
  { apply Csum_ext; intros sp Hsp. apply Csum_ext; intros g Hg.
    rewrite (ix5_mix ns nk n ne m nsp ng A B) by assumption.
    rewrite (ix5_mix ns nk n ne m nsp ng A' B') by assumption.
    reflexivity. }
  rewrite gram_mix. unfold quad_form.
  assert (Hv : forall p c, (p < n + ne)%nat -> (c < m)%nat ->
                           v p c = ix4 Vn s k p c).
  { intros p c Hp Hc. unfold v. destruct (Nat.ltb_spec p n) as [Hlt|Hge].
    - now rewrite HV1.
    - pose proof (HV2 (p - n)%nat c ltac:(lia) Hc) as HW2.
      replace (n + (p - n))%nat with p in HW2 by lia. now rewrite HW2. }
  apply Csum_ext; intros p Hp. apply Csum_ext; intros q Hq.
  rewrite !Hv by assumption. f_equal. f_equal.
  unfold x, x'.
  destruct (Nat.ltb_spec p n) as [Hp'|Hp'];
    destruct (Nat.ltb_spec q n) as [Hq'|Hq'].
  - rewrite G11 by assumption.
    rewrite (dot_tab ns nk n n nsp ng A A') by assumption.
    now rewrite ix4_tab4.
  - pose proof (G12 p (q - n)%nat ltac:(lia) ltac:(lia)) as HG.
    replace (n + (q - n))%nat with q in HG by lia. rewrite HG.
    rewrite (dot_tab ns nk n ne nsp ng A B') by assumption.
    rewrite ix4_tab4 by lia. reflexivity.
  - pose proof (G21 (p - n)%nat q ltac:(lia) ltac:(lia)) as HG.
    replace (n + (p - n))%nat with p in HG by lia. rewrite HG.
    rewrite (dot_tab ns nk ne n nsp ng B A') by assumption.
    rewrite ix4_tab4 by lia. reflexivity.
  - pose proof (G22 (p - n)%nat (q - n)%nat ltac:(lia) ltac:(lia)) as HG.
    replace (n + (p - n))%nat with p in HG by lia.
    replace (n + (q - n))%nat with q in HG by lia. rewrite HG.
    rewrite (dot_tab ns nk ne ne nsp ng B B') by assumption.
    rewrite ix4_tab4 by lia. reflexivity.
Qed.

(* ================================================================== *)
(** * One iteration *)
(* ================================================================== *)

Lemma regularize_fst_shape (self : Davidson) (ns nk nb nsp ng : nat)
    (C : coeffs) (norm : tensor3R) (i : nat) :
  randomize_keeps_shape ns nk nsp ng (wfn (electrons self)) ->
  shape5 ns nk nb nsp ng C ->
  shape5 ns nk nb nsp ng (fst (_regularize self C norm i)).
Proof.
  intros Hr HC. unfold _regularize. cbv zeta.
  destruct (where3 _) as [[i_spin i_k] i_band].
  destruct (Nat.eqb _ _); cbn [fst]; [assumption | now apply Hr].
Qed.

Lemma expansion_eq (self : Davidson) (i : nat) (st : loop_state) :
  expansion self i st =
  let el := electrons self in
  let d := st_n_eigs_done st in
  let C_sel := if Nat.eqb d 0 then st_C st else bands_from d (st_C st) in
  let HC_sel := if Nat.eqb d 0 then st_HC st else bands_from d (st_HC st) in
  let Cexp :=
    _precondition self
      (coeffs_sub HC_sel
         (coeffs_mul_band (overlap (wfn el) C_sel) (bands_from d (st_E st))))
      (norm_ke (wfn el) C_sel) in
  let r := _regularize self Cexp (norm_band (wfn el) Cexp) i in
  coeffs_mul_band (fst r) (map (map (map (fun x => 1 / x))) (snd r)).
Proof.
  unfold expansion. cbv zeta.
  destruct (_regularize _ _ _ _) as [Cexp norm_exp]. reflexivity.
Qed.

Lemma bands_from_0 (A : Type) (T : list (list (list A))) : bands_from 0 T = T.
Proof.
  unfold bands_from, map_sk. cbn [skipn].
  rewrite (map_ext _ (fun x => x)); [apply map_id|].
  intros l. apply map_id.
Qed.

(** The expansion block has one band for each unconverged band. *)
Lemma expansion_shape (self : Davidson) (nsp ng n i : nat) (st : loop_state) :
  let el := electrons self in
  randomize_keeps_shape (n_spins el) (nk_mine el) nsp ng (wfn el) ->
  state_shaped self nsp ng n st ->
  shape5 (n_spins el) (nk_mine el) (n - st_n_eigs_done st) nsp ng
         (expansion self i st).
Proof.
  intros el Hr [HC [HHC HE]]. rewrite expansion_eq. cbv zeta.
  apply coeffs_mul_band_shape, regularize_fst_shape; [assumption|].
  apply precondition_shape, coeffs_sub_shape.
  destruct (Nat.eqb_spec (st_n_eigs_done st) 0) as [->|_].
  - now rewrite Nat.sub_0_r.
  - now apply bands_from_shape5.
Qed.

Lemma first_pending_le (nbands : nat) (T : tensor3R) (thr : R) :
  (first_pending nbands T thr <= nbands)%nat.
Proof.
  unfold first_pending, eigs_pending. cbv zeta. rewrite length_tab.
  set (m := len2 (bands_upto nbands T)).
  assert (Hm : (m <= nbands)%nat)
    by (unfold m; rewrite len2_bands_upto; lia).
  match goal with
  | |- context [filter ?p (seq 0 m)] =>
      destruct (filter_seq_first p m 0) as [[-> _]|[j [l [-> [Hj _]]]]]
  end; lia.
Qed.

Lemma n_bands_of_shape (ns nk nb nsp ng : nat) (C : coeffs) :
  (0 < ns)%nat -> (0 < nk)%nat -> shape5 ns nk nb nsp ng C ->
  n_bands_of C = nb.
Proof. intros. unfold n_bands_of. now apply (shape5_len2 _ ns nk nb nsp ng). Qed.

(** The update of the subspace with the band counts made explicit. *)
Lemma update_subspace_eq (self : Davidson) (nsp ng n ne : nat)
    (st : loop_state) (Cexp HCexp : coeffs) (E_new : tensor3R)
    (V_new : tensor4) :
  let el := electrons self in
  let n' := Nat.min (n + ne) (n_bands el + n_bands_extra el) in
  let Vcur := rows_upto_cols_upto n n' V_new in
  let Vexp := rows_from_cols_upto n n' V_new in
  (0 < n_spins el)%nat -> (0 < nk_mine el)%nat ->
  shape5 (n_spins el) (nk_mine el) n nsp ng (st_C st) ->
  shape5 (n_spins el) (nk_mine el) ne nsp ng Cexp ->
  update_subspace self st Cexp HCexp E_new V_new =
  (coeffs_add (matmul (st_C st) Vcur) (matmul Cexp Vexp),
   coeffs_add (matmul (st_HC st) Vcur) (matmul HCexp Vexp),
   abs_diff (st_E st) (bands_upto n E_new),
   bands_upto n' E_new).
Proof.
  intros el n' Vcur Vexp Hns Hnk HC HCe. unfold update_subspace. cbv zeta.
  fold el.
  rewrite (n_bands_of_shape _ _ n nsp ng (st_C st) Hns Hnk HC).
  rewrite (n_bands_of_shape _ _ ne nsp ng Cexp Hns Hnk HCe).
  reflexivity.
Qed.

(** The rotated block is orthonormal when the current block is and the
    rotation is orthonormal under the assembled overlap matrix. *)
Lemma rotated_orthonormal (self : Davidson) (nsp ng n ne : nat)
    (C Cexp : coeffs) (Hm : tensor4) (E_new : tensor3R) (V_new : tensor4) :
  let el := electrons self in
  let ns := n_spins el in
  let nk := nk_mine el in
  let n' := Nat.min (n + ne) (n_bands el + n_bands_extra el) in
  let Vcur := rows_upto_cols_upto n n' V_new in
  let Vexp := rows_from_cols_upto n n' V_new in
  collaborators_ok self nsp ng ->
  (0 < n)%nat -> (0 < ne)%nat ->
  shape5 ns nk n nsp ng C -> shape5 ns nk ne nsp ng Cexp ->
  orthonormal (wfn el) ns nk n C ->
  eighg_contract ns nk (n + ne) Hm (assemble_overlap self n (n + ne) C Cexp)
                 E_new V_new ->
  orthonormal (wfn el) ns nk n'
              (coeffs_add (matmul C Vcur) (matmul Cexp Vexp)).
Proof.
  intros el ns nk n' Vcur Vexp Hok Hn Hne HC HCe Horth Hsolve.
  destruct Hok as [Hns [Hnk [[HOs [HOadd HOmix]] [Hherm _]]]].
  fold el ns nk in HOs, HOadd, HOmix, Hherm.
  destruct Hsolve as [HEn [HVn Hquad]].
  assert (Hn' : (n' <= n + ne)%nat) by (unfold n'; lia).
  assert (HVc : shape4 ns nk n n' Vcur)
    by (apply (rows_upto_shape ns nk (n + ne)); auto; lia).
  assert (HVe : shape4 ns nk ne n' Vexp).
  { replace ne with (n + ne - n)%nat at 1 by lia.
    now apply (rows_from_shape ns nk (n + ne)). }
  assert (HOC : shape5 ns nk n nsp ng (overlap (wfn el) C)) by now apply HOs.
  assert (HOCe : shape5 ns nk ne nsp ng (overlap (wfn el) Cexp))
    by now apply HOs.
  destruct (assemble_overlap_blocks self n ne nsp ng C Cexp HC HOCe)
    as [HOsh HOb].
  intros s k i j Hs Hk Hi Hj.
  unfold dot_overlap.
  rewrite (HOadd n' (matmul C Vcur) (matmul Cexp Vexp)
             (matmul_shape ns nk n n' nsp ng C Vcur Hn HC HVc)
             (matmul_shape ns nk ne n' nsp ng Cexp Vexp Hne HCe HVe)).
  rewrite (HOmix n n' C Vcur Hn HC HVc), (HOmix ne n' Cexp Vexp Hne HCe HVe).
  destruct (HOb s k Hs Hk) as [O11 [O12 [O21 O22]]].
  rewrite (dot_mix ns nk n ne n' nsp ng C Cexp _ _ Vcur Vexp V_new
             (assemble_overlap self n (n + ne) C Cexp)); try assumption.
  - apply Hquad; auto; lia.
  - intros p c Hp Hc. unfold Vcur. now rewrite ix4_rows_upto.
  - intros p c Hp Hc. unfold Vexp. now rewrite ix4_rows_from.
  - intros p q Hp Hq. rewrite O11 by assumption. symmetry. now apply Horth.
  - intros p q Hp Hq. rewrite O21 by assumption.
    symmetry. now apply (Hherm ne n Cexp C).
Qed.

(* ================================================================== *)
(** * More on the loop: applications, notices, counts *)
(* ================================================================== *)

Lemma iteration_lines_no_apply (self : Davidson) (n : Z) (helper inner : bool)
    (i : nat) (E : tensor3R) (dm : R) (nd : nat) :
  filter is_apply (iteration_lines self n helper inner i E dm nd) = [].
Proof.
  unfold iteration_lines. cbn.
  destruct (Nat.eqb nd _), (Z.eqb _ _ && _); reflexivity.
Qed.

(** X1.  Whatever the dense solver and the convergence check do, one pass
    through the loop body applies the Hamiltonian exactly once, and to the
    expansion block: [HC] is never recomputed from [C]. *)
Theorem iteration_applies_once (self : Davidson) (n : Z) (thr : R)
    (helper inner : bool) (i : nat) (st : loop_state) (log : list event) :
  exists evs,
    fst (iteration self n thr helper inner i st log) = log ++ evs
    /\ filter is_apply evs = [ApplyH (expansion self i st)].
Proof.
  rewrite iteration_run. cbv zeta.
  destruct (eighg _ _ _) as [[E_new V_new]|].
  - destruct (update_subspace _ _ _ _ _ _) as [[[C HC] dE] E].
    destruct (tensor_max _) as [m|].
    + eexists. split; [reflexivity|]. cbn [filter is_apply fst].
      now rewrite iteration_lines_no_apply.
    + exists [ApplyH (expansion self i st)]. split; reflexivity.
  - exists [ApplyH (expansion self i st)]. split; reflexivity.
Qed.

Lemma iterations_apply_count (self : Davidson) (n : Z) (thr : R)
    (helper inner : bool) (fuel : nat) :
  forall (i : nat) (st : loop_state) (log : list event),
  exists evs,
    fst (iterations self n thr helper inner fuel i st log) = log ++ evs
    /\ (length (filter is_apply evs) <= fuel)%nat.
Proof.
  induction fuel as [|fuel IH]; intros i st log; cbn [iterations].
  - exists []. rewrite app_nil_r. split; [reflexivity | cbn; lia].
  - unfold bind.
    destruct (iteration_applies_once self n thr helper inner i st log)
      as [evs1 [He1 Hf1]].
    destruct (iteration self n thr helper inner i st log)
      as [log1 [ex|[st1 stop]]]; cbn [fst] in He1; subst log1.
    + exists evs1. split; [reflexivity|]. rewrite Hf1. cbn. lia.
    + destruct stop.
      * exists evs1. split; [reflexivity|]. rewrite Hf1. cbn. lia.
      * destruct (IH (S i) st1 (log ++ evs1)) as [evs2 [He2 Hf2]].
        exists (evs1 ++ evs2). split.
        -- rewrite He2. now rewrite app_assoc.
        -- rewrite filter_app, length_app, Hf1. cbn. lia.
Qed.

(** X2.  A call applies the Hamiltonian at most once for the initial block
    and once per iteration of the budget: at most
    [1 + max(n_iterations, 0)] times, where [n_iterations] is the override
    if it is truthy and the stored default otherwise; the log is only ever
    extended. *)
Theorem call_applications_bounded (self : Davidson) (C0 : coeffs)
    (n : option Z) (e : option R) (helper : bool) (log : list event) :
  exists evs,
    fst (__call__ self C0 n e helper log) = log ++ evs
    /\ (length (filter is_apply evs)
        <= 1 + Z.to_nat (n_iterations_of self n))%nat.
Proof.
  unfold __call__. destruct (Nat.leb _ _).
  { exists []. rewrite app_nil_r. split; [reflexivity | cbn; lia]. }
  unfold initial_subspace, bind, emit, lift_solver.
  destruct (eigh _ _) as [[E V]|].
  - unfold ret at 1 2. rewrite report_run.
    match goal with
    | |- context [iterations ?a ?b ?c ?d ?f ?g ?h ?st ?l] =>
        destruct (iterations_apply_count a b c d f g h st l) as [evs [He Hf]];
        destruct (iterations a b c d f g h st l) as [log' [ex|st']]
    end; cbn [fst] in He; subst log'.
    + eexists. split; [rewrite <- !app_assoc; reflexivity|].
      cbn [app filter is_apply length]. lia.
    + destruct helper; unfold ret; cbn [fst];
        (eexists; split; [rewrite <- !app_assoc; reflexivity|]);
        cbn [app filter is_apply length]; lia.
  - exists [ApplyH C0]. split; [reflexivity | cbn; lia].
Qed.

(** X3.  The notices of an iteration.  "Failed to converge" is logged only
    in the last iteration of the budget ([i_iter = n_iterations]) of a call
    that is neither a helper nor an inner loop, and never together with
    "Converged". *)
Theorem iteration_notices (self : Davidson) (n : Z) (thr : R)
    (helper inner : bool) (i : nat) (st : loop_state) (log : list event) :
  exists evs,
    fst (iteration self n thr helper inner i st log) = log ++ evs
    /\ forall b, In (LogFailed b) evs ->
         Z.of_nat i = n /\ inner = false /\ helper = false
         /\ forall b', ~ In (LogConverged b') evs.
Proof.
  rewrite iteration_run. cbv zeta.
  destruct (eighg _ _ _) as [[E_new V_new]|].
  - destruct (update_subspace _ _ _ _ _ _) as [[[C HC] dE] E].
    destruct (tensor_max _) as [m|].
    + eexists. split; [reflexivity|]. cbn [fst]. unfold iteration_lines.
      cbv zeta.
      set (conv := Nat.eqb _ _).
      intros b [Hb|[Hb|Hb]]; try discriminate.
      apply in_app_iff in Hb.
      destruct Hb as [Hb|Hb]; [destruct conv; [destruct Hb as [Hb|[]];
                                                discriminate | destruct Hb]|].
      destruct (Z.eqb_spec (Z.of_nat i) n) as [Hin|]; [|destruct Hb].
      destruct inner; [destruct Hb|]. destruct helper; [destruct Hb|].
      destruct conv; [destruct Hb|]. cbn in Hb.
      repeat split; auto.
      intros b' [Hc|[Hc|Hc]]; try discriminate.
      destruct Hc as [Hc|[]]. discriminate.
    + exists [ApplyH (expansion self i st)]. split; [reflexivity|].
      intros b [Hb|[]]. discriminate.
  - exists [ApplyH (expansion self i st)]. split; [reflexivity|].
    intros b [Hb|[]]. discriminate.
Qed.

Lemma allreduce_min_le (x : nat) (others : list nat) :
  (allreduce Nat.min x others <= x)%nat.
Proof. apply fold_min_le. Qed.

(** X4.  When an iteration returns, the converged count it leaves is at
    most [n_bands], whatever the other ranks contribute, it is at most each
    of their contributions, and the loop is left exactly when the count
    equals [n_bands]. *)
Theorem iteration_count_bounded (self : Davidson) (n : Z) (thr : R)
    (helper inner : bool) (i : nat) (st : loop_state) (log : list event) :
  match snd (iteration self n thr helper inner i st log) with
  | inr (st', stop) =>
      (st_n_eigs_done st' <= n_bands (electrons self))%nat
      /\ (stop = true <-> st_n_eigs_done st' = n_bands (electrons self))
      /\ forall r, In r (comm_kb_others_min (rc (electrons self)) i) ->
                   (st_n_eigs_done st' <= r)%nat
  | inl _ => True
  end.
Proof.
  rewrite iteration_run. cbv zeta.
  destruct (eighg _ _ _) as [[E_new V_new]|]; [|exact I].
  destruct (update_subspace _ _ _ _ _ _) as [[[C HC] dE] E].
  destruct (tensor_max _) as [m|]; [|exact I].
  cbn [snd st_n_eigs_done]. split; [|split].
  - eapply Nat.le_trans; [apply allreduce_min_le | apply first_pending_le].
  - apply Nat.eqb_eq.
  - intros r Hr. unfold allreduce. now apply fold_min_lower.
Qed.

(** X5.  An iteration that returns logs exactly one progress line: for the
    iteration index, with the band energy of the new eigenvalues, and
    showing the converged count only when it is not zero (Python
    truthiness of [if n_eigs_done:]).  An iteration that raises logs no
    progress line. *)
Theorem iteration_progress_line (self : Davidson) (n : Z) (thr : R)
    (helper inner : bool) (i : nat) (st : loop_state) (log : list event) :
  exists evs,
    fst (iteration self n thr helper inner i st log) = log ++ evs
    /\ match snd (iteration self n thr helper inner i st log) with
       | inr (st', _) =>
           exists deig_max,
             filter is_progress evs =
             [LogProgress inner i (_get_Eband self i (st_E st')) deig_max
                (if Nat.eqb (st_n_eigs_done st') 0 then None
                 else Some (st_n_eigs_done st'))]
       | inl _ => filter is_progress evs = []
       end.
Proof.
  rewrite iteration_run. cbv zeta.
  destruct (eighg _ _ _) as [[E_new V_new]|].
  - destruct (update_subspace _ _ _ _ _ _) as [[[C HC] dE] E].
    destruct (tensor_max _) as [m|].
    + eexists. split; [reflexivity|]. cbn [fst snd st_E st_n_eigs_done].
      unfold iteration_lines. cbv zeta.
      set (nd := allreduce Nat.min _ _).
      eexists. cbn [filter is_progress]. rewrite filter_app.
      replace (filter is_progress (if Nat.eqb nd _ then _ else _)) with
        (@nil event) by (destruct (Nat.eqb nd _); reflexivity).
      match goal with
      | |- context [filter is_progress (if ?c then _ else _)] =>
          replace (filter is_progress (if c then [LogFailed inner] else []))
            with (@nil event) by (destruct c; reflexivity)
      end.
      cbn [app]. unfold truthy_nat. destruct (Nat.eqb nd 0); reflexivity.
    + exists [ApplyH (expansion self i st)]. split; reflexivity.
  - exists [ApplyH (expansion self i st)]. split; reflexivity.
Qed.

(** X6.  An iteration budget that is zero or negative -- a negative
    override, or a stored default that is not positive -- gives a solve
    without iterations: once the guard has passed, a call only applies the
    Hamiltonian to the initial block, rotates it by the eigenvectors of the
    initial subspace problem, logs line 0, and hands that back. *)
Theorem call_without_iterations (self : Davidson) (C0 : coeffs)
    (n : option Z) (e : option R) (helper : bool) (log : list event) :
  let el := electrons self in
  (2 * (n_bands el + n_bands_extra el) < n_min (basis el))%nat ->
  (n_iterations_of self n <= 0)%Z ->
  __call__ self C0 n e helper log =
  match eigh (linalg self) (dot C0 (hamiltonian el C0)) with
  | None => (log ++ [ApplyH C0], inl LinAlgError)
  | Some (E, V) =>
      (log ++ [ApplyH C0;
               LogProgress (inner_loop_of n e helper) 0 (_get_Eband self 0 E)
                           None None],
       inr (if helper
            then Returned E (matmul C0 V) (matmul (hamiltonian el C0) V)
            else Stored (matmul C0 V) E))
  end.
Proof.
  intros el Hguard Hn. unfold __call__. fold el.
  apply Nat.leb_gt in Hguard. rewrite Hguard.
  unfold initial_subspace, bind, emit, lift_solver. fold el.
  destruct (eigh _ _) as [[E V]|]; [|reflexivity].
  unfold ret at 1 2. rewrite report_run.
  replace (Z.to_nat (n_iterations_of self n)) with 0%nat by lia.
  cbn [iterations]. unfold ret. cbn [st_C st_E st_HC app].
  rewrite <- app_assoc. cbn [app].
  destruct helper; reflexivity.
Qed.

(** One band [e1] in a basis of three functions, Hamiltonian [diag(2,3,4)],
    an override of -1 iterations. *)
Lemma call_without_iterations_witness :
  let K := [[2; 0; 0]; [0; 3; 0]; [0; 0; 4]] in
  let C0 := [[[[[C1; C0; C0]]]]] in
  let self := toy_davidson (const_solvers [[[2]]] [[[[C1]]]]) 3 1 0 K in
  exists Eband,
    __call__ self C0 (Some (-1)%Z) None false [] =
    ([ApplyH C0; LogProgress true 0 Eband None None],
     inr (Stored (matmul C0 [[[[C1]]]]) [[[2]]])).
Proof.
  intros K C0 self. eexists.
  rewrite (call_without_iterations self C0 (Some (-1)%Z) None false []).
  - cbn [linalg eigh self toy_davidson const_solvers app]. reflexivity.
  - cbn. lia.
  - cbn. lia.
Defined.

(* ================================================================== *)
(** * Buffer bands, counts and bounds *)
(* ================================================================== *)

Lemma bands_upto_idem (A : Type) (n : nat) (T : list (list (list A))) :
  bands_upto n (bands_upto n T) = bands_upto n T.
Proof.
  unfold bands_upto, map_sk. rewrite map_map. apply map_ext; intros Ts.
  rewrite map_map. apply map_ext; intros Tk.
  rewrite firstn_firstn. now rewrite Nat.min_id.
Qed.

Lemma get_Eband_slice (self : Davidson) (tag : nat) (E : tensor3R) :
  _get_Eband self tag E =
  _get_Eband self tag (bands_upto (n_bands (electrons self)) E).
Proof. unfold _get_Eband. cbv zeta. now rewrite bands_upto_idem. Qed.

Lemma check_deigs_slice (self : Davidson) (tag : nat) (dE : tensor3R)
    (thr : R) :
  _check_deigs self tag dE thr =
  _check_deigs self tag (bands_upto (n_bands (electrons self)) dE) thr.
Proof.
  unfold _check_deigs, first_pending, eigs_pending. cbv zeta.
  now rewrite bands_upto_idem.
Qed.

(** X7.  Buffer bands are not looked at: two eigenvalue arrays that agree
    on the first [n_bands] bands have the same band energy, and two arrays
    of eigenvalue changes that agree there give the same largest change and
    the same converged count. *)
Theorem buffer_bands_ignored (self : Davidson) (tag : nat) (thr : R)
    (E E' : tensor3R) :
  bands_upto (n_bands (electrons self)) E =
  bands_upto (n_bands (electrons self)) E' ->
  _get_Eband self tag E = _get_Eband self tag E'
  /\ _check_deigs self tag E thr = _check_deigs self tag E' thr.
Proof.
  intros H. split.
  - rewrite (get_Eband_slice self tag E), (get_Eband_slice self tag E').
    now rewrite H.
  - rewrite (check_deigs_slice self tag E), (check_deigs_slice self tag E').
    now rewrite H.
Qed.

(** Two requested bands and one buffer band whose value differs. *)
Lemma buffer_bands_ignored_witness :
  _get_Eband (toy_davidson no_solvers 7 2 1 []) 1 [[[1; 2; 7]]] =
  _get_Eband (toy_davidson no_solvers 7 2 1 []) 1 [[[1; 2; 9]]].
Proof.
  apply (buffer_bands_ignored (toy_davidson no_solvers 7 2 1 []) 1 0
           [[[1; 2; 7]]] [[[1; 2; 9]]]).
  reflexivity.
Defined.

(** X8.  What moves the converged count.  On a rectangular array of
    changes: if every change of the bands below [d] is within the threshold
    and every other rank contributes at least [d], the count is at least
    [d]; and a single change above the threshold at band [j], at any spin
    and k, caps the count at [j] -- also for a band that was counted as
    converged before. *)
Theorem check_deigs_count_bounds (self : Davidson) (tag : nat) (thr : R)
    (dE : tensor3R) (log : list event) :
  rectangular dE ->
  match snd (_check_deigs self tag dE thr log) with
  | inr (_, n_eigs_done) =>
      (forall d, (d <= n_bands (electrons self))%nat ->
         (forall s k j v, (j < d)%nat -> entry dE s k j v -> v <= thr) ->
         (forall r, In r (comm_kb_others_min (rc (electrons self)) tag) ->
                    (d <= r)%nat) ->
         (d <= n_eigs_done)%nat)
      /\ (forall s k j v, (j < n_bands (electrons self))%nat ->
            entry dE s k j v -> thr < v -> (n_eigs_done <= j)%nat)
  | inl _ => True
  end.
Proof.
  intros Hrect. unfold _check_deigs. cbv zeta.
  destruct (tensor_max _) as [m|]; [|exact I].
  cbn [snd ret]. unfold ret. cbn [snd].
  set (nb := n_bands (electrons self)).
  destruct (first_pending_spec nb dE thr Hrect) as [Hle [Hlow Hpend]].
  split.
  - intros d Hd Hall Hothers.
    assert (Hfp : (d <= first_pending nb dE thr)%nat).
    { destruct (Nat.le_gt_cases d (first_pending nb dE thr)) as [|Hlt];
        [assumption|].
      destruct (Hpend ltac:(lia)) as [s [k [v [He Hv]]]].
      specialize (Hall s k _ v Hlt He). lra. }
    unfold allreduce.
    destruct (fold_min_in (comm_kb_others_min (rc (electrons self)) tag)
                (first_pending nb dE thr)) as [->|Hin]; [assumption|].
    now apply Hothers.
  - intros s k j v Hj He Hv.
    eapply Nat.le_trans; [apply allreduce_min_le|].
    destruct (Nat.le_gt_cases (first_pending nb dE thr) j) as [|Hlt];
      [assumption|].
    specialize (Hlow s k j v Hlt He). lra.
Qed.

(** Band 0 changed by 1, band 1 by 0; the threshold is 1/2. *)
Lemma check_deigs_count_bounds_witness :
  match snd (_check_deigs (toy_davidson no_solvers 5 2 0 []) 2 [[[1; 0]]]
                          (1 / 2) []) with
  | inr (_, n_eigs_done) => (n_eigs_done <= 0)%nat
  | inl _ => True
  end.
Proof.
  assert (Hrect : rectangular [[[1; 0]]])
    by (exists 1%nat, 1%nat, 2%nat; repeat constructor).
  pose proof (check_deigs_count_bounds (toy_davidson no_solvers 5 2 0 []) 2
                (1 / 2) [[[1; 0]]] [] Hrect) as H.
  unfold _check_deigs in H |- *. cbn [tensor_max bands_upto map_sk map firstn
    concat app n_bands electrons toy_davidson toy_electrons snd ret] in H |- *.
  unfold ret in H |- *. cbn [snd] in H |- *.
  destruct H as [_ H].
  apply (H 0%nat 0%nat 0%nat 1).
  - lia.
  - exists [[1; 0]], [1; 0]. repeat split.
  - lra.
Defined.

Lemma len1_tab (A : Type) (n1 n2 : nat) (f : nat -> nat -> A) :
  (len1 (tab n1 (fun i => tab n2 (f i))) <= n2)%nat.
Proof.
  unfold len1. destruct n1 as [|n1]; [cbn; lia|].
  rewrite nth_tab by lia. now rewrite length_tab.
Qed.

Lemma len2_tab5 (A : Type) (n1 n2 n3 n4 n5 : nat)
    (f : nat -> nat -> nat -> nat -> nat -> A) :
  (len2 (tab5 n1 n2 n3 n4 n5 f) <= n3)%nat.
Proof.
  unfold len2, tab5, tab4, tab3, tab2.
  destruct n1 as [|n1]; [cbn; lia|].
  rewrite nth_tab by lia. apply len1_tab.
Qed.

Lemma len3_rows_upto (r c : nat) (V : tensor4) :
  (len3 (rows_upto_cols_upto r c V) <= c)%nat.
Proof.
  unfold len3, len2, len1, rows_upto_cols_upto.
  rewrite (nth_map_sk _ _ (fun m : matrix => map (firstn c (A:=complex))
                                                 (firstn r m)))
    by now rewrite firstn_nil.
  rewrite (nth_map_nil _ _ (firstn c (A:=complex))) by apply firstn_nil.
  rewrite length_firstn. lia.
Qed.

Lemma n_bands_mix_le (A : coeffs) (r c : nat) (V : tensor4) (X : coeffs) :
  (n_bands_of (coeffs_add (matmul A (rows_upto_cols_upto r c V)) X) <= c)%nat.
Proof.
  unfold n_bands_of, coeffs_add.
  eapply Nat.le_trans; [apply len2_tab5|].
  unfold matmul. eapply Nat.le_trans; [apply len2_tab5|].
  apply len3_rows_upto.
Qed.

(** X9.  The band-count bound.  Whatever the solver returns, after an
    iteration the block and its image hold at most
    [n_bands + n_bands_extra] bands, and no more eigenvalues than that are
    kept at any spin and k. *)
Theorem iteration_band_count (self : Davidson) (n : Z) (thr : R)
    (helper inner : bool) (i : nat) (st : loop_state) (log : list event) :
  let n_bands_max :=
    (n_bands (electrons self) + n_bands_extra (electrons self))%nat in
  match snd (iteration self n thr helper inner i st log) with
  | inr (st', _) =>
      (n_bands_of (st_C st') <= n_bands_max)%nat
      /\ (n_bands_of (st_HC st') <= n_bands_max)%nat
      /\ Forall (Forall (fun e => (length e <= n_bands_max)%nat)) (st_E st')
  | inl _ => True
  end.
Proof.
  intros n_bands_max. rewrite iteration_run. cbv zeta.
  destruct (eighg _ _ _) as [[E_new V_new]|]; [|exact I].
  unfold update_subspace. cbv zeta.
  destruct (tensor_max _) as [m|]; [|exact I].
  cbn [snd st_C st_HC st_E]. fold n_bands_max.
  split; [|split].
  - eapply Nat.le_trans; [apply n_bands_mix_le|]. lia.
  - eapply Nat.le_trans; [apply n_bands_mix_le|]. lia.
  - unfold bands_upto, map_sk. apply Forall_map, Forall_forall.
    intros Es _. apply Forall_map, Forall_forall. intros Ek _.
    rewrite length_firstn. lia.
Qed.

(* ================================================================== *)
(** * The preconditioner is linear in the residual *)
(* ================================================================== *)

Lemma Cdivr_add (a b : complex) (x : R) :
  Cdivr (Cadd a b) x = Cadd (Cdivr a x) (Cdivr b x).
Proof. apply complex_eq; cbn; unfold Rdiv; ring. Qed.

Lemma Cdivr_scale (c : R) (a : complex) (x : R) :
  Cdivr (Cscale c a) x = Cscale c (Cdivr a x).
Proof. apply complex_eq; cbn; unfold Rdiv; ring. Qed.

(** X10.  With the reference kinetic energies fixed, the preconditioner is
    a linear map of the residual: on blocks of one shape it maps a sum to
    the sum of the images, and a block whose bands are scaled by real
    factors to the image scaled by the same factors. *)
Theorem precondition_linear (self : Davidson) (A B : coeffs)
    (KEref X : tensor3R) (ns nk nb nsp ng : nat) :
  shape5 ns nk nb nsp ng A -> shape5 ns nk nb nsp ng B ->
  _precondition self (coeffs_add A B) KEref =
    coeffs_add (_precondition self A KEref) (_precondition self B KEref)
  /\ _precondition self (coeffs_mul_band A X) KEref =
     coeffs_mul_band (_precondition self A KEref) X.
Proof.
  intros HA HB.
  assert (HAB : shape5 ns nk nb nsp ng (coeffs_add A B))
    by now apply coeffs_add_shape.
  assert (HAX : shape5 ns nk nb nsp ng (coeffs_mul_band A X))
    by now apply coeffs_mul_band_shape.
  assert (HPA : shape5 ns nk nb nsp ng (_precondition self A KEref))
    by now apply precondition_shape.
  split.
  - unfold coeffs_add at 2.
    rewrite (tab5_lens _ _ ns nk nb nsp ng _ _ HPA).
    unfold _precondition at 1. cbv zeta.
    rewrite (tab5_lens _ _ ns nk nb nsp ng _ _ HAB).
    apply tab5_ext; intros s k b sp g Hs Hk Hb Hsp Hg.
    rewrite (ix5_coeffs_add ns nk nb nsp ng) by assumption.
    unfold _precondition. cbv zeta.
    rewrite (tab5_lens _ _ ns nk nb nsp ng A _ HA).
    rewrite (tab5_lens _ _ ns nk nb nsp ng B _ HB).
    rewrite !ix5_tab5 by assumption. apply Cdivr_add.
  - unfold coeffs_mul_band at 2.
    rewrite (tab5_lens _ _ ns nk nb nsp ng _ _ HPA).
    unfold _precondition at 1. cbv zeta.
    rewrite (tab5_lens _ _ ns nk nb nsp ng _ _ HAX).
    apply tab5_ext; intros s k b sp g Hs Hk Hb Hsp Hg.
    unfold coeffs_mul_band.
    rewrite (tab5_lens _ _ ns nk nb nsp ng A _ HA).
    rewrite ix5_tab5 by assumption.
    unfold _precondition. cbv zeta.
    rewrite (tab5_lens _ _ ns nk nb nsp ng A _ HA).
    rewrite ix5_tab5 by assumption. apply Cdivr_scale.
Qed.

(** Two coefficients, kinetic energy 2, reference 4. *)
Lemma precondition_linear_witness :
  _precondition (scalar_davidson 2)
     (coeffs_add [[[[[mkC 3 4]]]]] [[[[[mkC 1 0]]]]]) [[[4]]] =
  coeffs_add (_precondition (scalar_davidson 2) [[[[[mkC 3 4]]]]] [[[4]]])
             (_precondition (scalar_davidson 2) [[[[[mkC 1 0]]]]] [[[4]]]).
Proof.
  refine (proj1 (precondition_linear (scalar_davidson 2) [[[[[mkC 3 4]]]]]
                   [[[[[mkC 1 0]]]]] [[[4]]] [[[1]]] 1 1 1 1 1 _ _));
    repeat constructor.
Defined.

(* ================================================================== *)
(** * The example set-ups meet the assumptions *)
(* ================================================================== *)

Lemma Cscale_mul (x : R) (z : complex) : Cscale x z = Cmul (RtoC x) z.
Proof. apply complex_eq; cbn; ring. Qed.

(** The plain inner product is Hermitian. *)
Lemma dot_hermitian (ns nk nb nb' nsp ng : nat) (A B : coeffs)
    (s k i j : nat) :
  shape5 ns nk nb nsp ng A -> shape5 ns nk nb' nsp ng B ->
  (s < ns)%nat -> (k < nk)%nat -> (i < nb)%nat -> (j < nb')%nat ->
  ix4 (dot A B) s k i j = Cconj (ix4 (dot B A) s k j i).
Proof.
  intros HA HB Hs Hk Hi Hj.
  rewrite (dot_tab ns nk nb nb' nsp ng A B HA HB).
  rewrite (dot_tab ns nk nb' nb nsp ng B A HB HA).
  rewrite !ix4_tab4 by assumption.
  rewrite Csum_conj. apply Csum_ext; intros sp _.
  rewrite Csum_conj. apply Csum_ext; intros g _.
  rewrite Cconj_mul, Cconj_conj. ring.
Qed.

Lemma apply_kernel_tab (K : list (list R)) (ns nk nb nsp ng : nat)
    (C : coeffs) :
  shape5 ns nk nb nsp ng C ->
  apply_kernel K C =
  tab5 ns nk nb nsp ng
       (fun s k b sp g =>
          Csum ng (fun g' =>
            Cscale (nth g' (nth g K []) 0) (ix5 C s k b sp g'))).
Proof.
  intros HC. unfold apply_kernel.
  rewrite (tab5_lens _ _ ns nk nb nsp ng C _ HC).
  apply tab5_ext; intros s k b sp g Hs Hk Hb Hsp Hg.
  rewrite (shape5_len4 _ ns nk nb nsp ng C HC) by lia. reflexivity.
Qed.

(** A kernel Hamiltonian is linear on the bands. *)
Lemma apply_kernel_linear (K : list (list R)) (ns nk nsp ng : nat) :
  band_linear ns nk nsp ng (apply_kernel K).
Proof.
  split; [|split].
  - intros nb C HC. rewrite (apply_kernel_tab K ns nk nb nsp ng C HC).
    apply shape5_tab5.
  - intros nb A B HA HB.
    assert (HAB : shape5 ns nk nb nsp ng (coeffs_add A B))
      by now apply coeffs_add_shape.
    rewrite (apply_kernel_tab K ns nk nb nsp ng _ HAB).
    unfold coeffs_add at 2.
    rewrite (apply_kernel_tab K ns nk nb nsp ng A HA).
    rewrite (tab5_lens _ _ ns nk nb nsp ng _ _
               (shape5_tab5 _ ns nk nb nsp ng _)).
    apply tab5_ext; intros s k b sp g Hs Hk Hb Hsp Hg.
    rewrite (apply_kernel_tab K ns nk nb nsp ng B HB).
    rewrite !ix5_tab5 by assumption.
    rewrite <- Csum_add. apply Csum_ext; intros g' Hg'.
    rewrite (ix5_coeffs_add ns nk nb nsp ng) by assumption.
    rewrite !Cscale_mul. ring.
  - intros nb m A V Hnb HA HV.
    assert (HKA : shape5 ns nk nb nsp ng (apply_kernel K A)).
    { rewrite (apply_kernel_tab K ns nk nb nsp ng A HA). apply shape5_tab5. }
    rewrite (matmul_tab ns nk nb m nsp ng A V Hnb HA HV).
    rewrite (matmul_tab ns nk nb m nsp ng _ V Hnb HKA HV).
    rewrite (apply_kernel_tab K ns nk m nsp ng _
               (shape5_tab5 _ ns nk m nsp ng _)).
    apply tab5_ext; intros s k j sp g Hs Hk Hj Hsp Hg.
    rewrite (apply_kernel_tab K ns nk nb nsp ng A HA).
    transitivity
      (Csum ng (fun g' => Csum nb (fun i =>
         Cmul (Cmul (RtoC (nth g' (nth g K []) 0)) (ix5 A s k i sp g'))
              (ix4 V s k i j)))).
    + apply Csum_ext; intros g' Hg'.
      rewrite ix5_tab5 by assumption.
      rewrite Cscale_mul, <- Csum_mul_l.
      apply Csum_ext; intros i _. ring.
    + rewrite Csum_swap. apply Csum_ext; intros i Hi.
      rewrite ix5_tab5 by assumption.
      rewrite <- Csum_mul_r. apply Csum_ext; intros g' _.
      now rewrite Cscale_mul.
Qed.

(** The plain wavefunction operations meet what the solver assumes. *)
Lemma toy_collaborators_ok (n nb nb_extra nsp : nat) (K : list (list R)) :
  collaborators_ok (toy_davidson no_solvers n nb nb_extra K) nsp n.
Proof.
  unfold collaborators_ok. cbn.
  split; [lia|]. split; [lia|]. split; [|split; [|split; [|split]]].
  - split; [|split]; intros; auto.
  - intros m m' A B HA HB s k i j Hs Hk Hi Hj. unfold dot_overlap. cbn.
    now apply (dot_hermitian 1 1 m m' nsp n).
  - intros m C i_spin i_k i_band seed HC. exact HC.
  - intros m C HC. now apply (apply_kernel_linear K 1 1 nsp n).
  - split; intros; discriminate.
Qed.

(* ================================================================== *)
(** * What the rotations keep *)
(* ================================================================== *)

(** X11.  The truncation step keeps the block orthonormal.  If the current
    block is orthonormal under the overlap metric and the eigenvectors
    returned for the assembled problem are orthonormal under the assembled
    overlap matrix, the block retained by [update_subspace] is orthonormal
    again -- the assumption written in the source beside
    [C_OC = torch.eye(n_bands_cur)]. *)
Theorem update_keeps_orthonormal (self : Davidson) (nsp ng n ne : nat)
    (st : loop_state) (Cexp HCexp : coeffs) (Hm : tensor4)
    (E_new : tensor3R) (V_new : tensor4) :
  let el := electrons self in
  let ns := n_spins el in
  let nk := nk_mine el in
  collaborators_ok self nsp ng ->
  (0 < n)%nat -> (0 < ne)%nat ->
  shape5 ns nk n nsp ng (st_C st) -> shape5 ns nk ne nsp ng Cexp ->
  orthonormal (wfn el) ns nk n (st_C st) ->
  eighg_contract ns nk (n + ne) Hm
                 (assemble_overlap self n (n + ne) (st_C st) Cexp)
                 E_new V_new ->
  orthonormal (wfn el) ns nk
              (Nat.min (n + ne) (n_bands el + n_bands_extra el))
              (fst (fst (fst (update_subspace self st Cexp HCexp
                                              E_new V_new)))).
Proof.
  intros el ns nk Hok Hn Hne HC HCe Horth Hsolve.
  pose proof Hok as [Hns [Hnk _]].
  rewrite (update_subspace_eq self nsp ng n ne st Cexp HCexp E_new V_new
             Hns Hnk HC HCe).
  cbn [fst].
  exact (rotated_orthonormal self nsp ng n ne (st_C st) Cexp Hm E_new V_new
           Hok Hn Hne HC HCe Horth Hsolve).
Qed.

(** The rotated image is the image of the rotated block, for an operator
    that is linear on the bands. *)
Lemma rotated_image (ns nk nsp ng n ne n' : nat) (op : coeffs -> coeffs)
    (C Cexp : coeffs) (V_new : tensor4) :
  band_linear ns nk nsp ng op ->
  (0 < n)%nat -> (0 < ne)%nat -> (n' <= n + ne)%nat ->
  shape5 ns nk n nsp ng C -> shape5 ns nk ne nsp ng Cexp ->
  shape4 ns nk (n + ne) (n + ne) V_new ->
  coeffs_add (matmul (op C) (rows_upto_cols_upto n n' V_new))
             (matmul (op Cexp) (rows_from_cols_upto n n' V_new)) =
  op (coeffs_add (matmul C (rows_upto_cols_upto n n' V_new))
                 (matmul Cexp (rows_from_cols_upto n n' V_new))).
Proof.
  intros [HHs [HHadd HHmix]] Hn Hne Hn' HC HCe HV.
  assert (HVc : shape4 ns nk n n' (rows_upto_cols_upto n n' V_new))
    by (apply (rows_upto_shape ns nk (n + ne)); auto; lia).
  assert (HVe : shape4 ns nk ne n' (rows_from_cols_upto n n' V_new)).
  { replace ne with (n + ne - n)%nat at 1 by lia.
    now apply (rows_from_shape ns nk (n + ne)). }
  rewrite (HHadd n' _ _
             (matmul_shape ns nk n n' nsp ng _ _ Hn HC HVc)
             (matmul_shape ns nk ne n' nsp ng _ _ Hne HCe HVe)).
  now rewrite (HHmix n n' _ _ Hn HC HVc), (HHmix ne n' _ _ Hne HCe HVe).
Qed.

(** X12.  The truncation step keeps the image consistent without applying
    the operator again: for a Hamiltonian that is linear on the bands, if
    [HC] is the image of [C] before the update and [HCexp] that of the
    expansion block, the updated [HC] is the image of the updated [C]. *)
Theorem update_keeps_image (self : Davidson) (nsp ng n ne : nat)
    (st : loop_state) (Cexp : coeffs) (E_new : tensor3R) (V_new : tensor4) :
  let el := electrons self in
  let ns := n_spins el in
  let nk := nk_mine el in
  let r := update_subspace self st Cexp (hamiltonian el Cexp) E_new V_new in
  band_linear ns nk nsp ng (hamiltonian el) ->
  (0 < ns)%nat -> (0 < nk)%nat -> (0 < n)%nat -> (0 < ne)%nat ->
  shape5 ns nk n nsp ng (st_C st) -> shape5 ns nk ne nsp ng Cexp ->
  shape4 ns nk (n + ne) (n + ne) V_new ->
  st_HC st = hamiltonian el (st_C st) ->
  snd (fst (fst r)) = hamiltonian el (fst (fst (fst r))).
Proof.
  intros el ns nk r Hlin Hns Hnk Hn Hne HC HCe HV Himg.
  unfold r.
  rewrite (update_subspace_eq self nsp ng n ne st Cexp _ E_new V_new
             Hns Hnk HC HCe).
  cbn [fst snd]. fold el. rewrite Himg.
  apply (rotated_image ns nk nsp ng n ne); auto. lia.
Qed.

(** The inner products of two blocks rotated by the same matrix. *)
Lemma dot_matmul (ns nk n m nsp ng : nat) (A A' : coeffs) (V : tensor4)
    (s k i j : nat) :
  (0 < n)%nat ->
  shape5 ns nk n nsp ng A -> shape5 ns nk n nsp ng A' ->
  shape4 ns nk n m V ->
  (s < ns)%nat -> (k < nk)%nat -> (i < m)%nat -> (j < m)%nat ->
  ix4 (dot (matmul A V) (matmul A' V)) s k i j =
  quad_form n V (dot A A') s k i j.
Proof.
  intros Hn HA HA' HV Hs Hk Hi Hj.
  rewrite (dot_tab ns nk m m nsp ng) by
    (apply (matmul_shape ns nk n m nsp ng); assumption).
  rewrite ix4_tab4 by assumption.
  rewrite (matmul_tab ns nk n m nsp ng A V Hn HA HV).
  rewrite (matmul_tab ns nk n m nsp ng A' V Hn HA' HV).
  transitivity
    (Csum nsp (fun sp => Csum ng (fun g =>
       Cmul (Cconj (Csum n (fun p =>
                      Cmul (ix5 A s k p sp g) (ix4 V s k p i))))
            (Csum n (fun q => Cmul (ix5 A' s k q sp g) (ix4 V s k q j)))))).
  { apply Csum_ext; intros sp Hsp. apply Csum_ext; intros g Hg.
    now rewrite !ix5_tab5 by assumption. }
  rewrite (gram_mix n nsp ng (fun p sp g => ix5 A s k p sp g)
             (fun q sp g => ix5 A' s k q sp g) (fun p c => ix4 V s k p c)).
  unfold quad_form.
  apply Csum_ext; intros p Hp. apply Csum_ext; intros q Hq.
  rewrite (dot_tab ns nk n n nsp ng A A' HA HA').
  now rewrite ix4_tab4.
Qed.

(** X13.  The initial subspace diagonalization.  When [eigh] returns
    eigenvalues [E] and a unitary [V] diagonalizing [C0 ^ H C0], the call
    applies the Hamiltonian once, to [C0], and the rotated block and image
    satisfy [C ^ HC = diag(E)] -- whether or not [C0] was orthonormal.  The
    rotated block is orthonormal under the overlap metric if [C0] was. *)
Theorem initial_subspace_eigenbasis (self : Davidson) (nsp ng n : nat)
    (Cin : coeffs) (E : tensor3R) (V : tensor4) (log : list event) :
  let el := electrons self in
  let ns := n_spins el in
  let nk := nk_mine el in
  (0 < ns)%nat -> (0 < nk)%nat -> (0 < n)%nat ->
  shape5 ns nk n nsp ng Cin ->
  shape5 ns nk n nsp ng (hamiltonian el Cin) ->
  eigh (linalg self) (dot Cin (hamiltonian el Cin)) = Some (E, V) ->
  eigh_contract ns nk n (dot Cin (hamiltonian el Cin)) E V ->
  exists C HC,
    initial_subspace self Cin log = (log ++ [ApplyH Cin], inr (E, C, HC))
    /\ (forall s k i j, (s < ns)%nat -> (k < nk)%nat -> (i < n)%nat ->
          (j < n)%nat ->
          ix4 (dot C HC) s k i j = Cmul (RtoC (ix3 E s k i)) (delta i j))
    /\ (band_linear ns nk nsp ng (overlap (wfn el)) ->
        orthonormal (wfn el) ns nk n Cin -> orthonormal (wfn el) ns nk n C).
Proof.
  intros el ns nk Hns Hnk Hn HC0 HHC0 Heigh [HE [HV Hcontract]].
  exists (matmul Cin V), (matmul (hamiltonian el Cin) V).
  split; [|split].
  - unfold initial_subspace, bind, emit, lift_solver. fold el.
    now rewrite Heigh.
  - intros s k i j Hs Hk Hi Hj.
    rewrite (dot_matmul ns nk n n nsp ng) by assumption.
    now apply Hcontract.
  - intros [HOs [_ HOmix]] Horth s k i j Hs Hk Hi Hj.
    unfold dot_overlap. rewrite (HOmix n n Cin V Hn HC0 HV).
    rewrite (dot_matmul ns nk n n nsp ng) by (auto; now apply HOs).
    unfold quad_form.
    rewrite <- (proj1 (Hcontract s k i j Hs Hk Hi Hj)).
    apply Csum_ext; intros p Hp.
    rewrite (Csum_ext n _ (fun q => if Nat.eqb q p
                                    then Cmul (Cconj (ix4 V s k p i))
                                              (ix4 V s k q j)
                                    else C0)).
    + now rewrite Csum_delta.
    + intros q Hq.
      change (dot Cin (overlap (wfn el) Cin)) with (dot_overlap (wfn el) Cin Cin).
      rewrite (Horth s k p q Hs Hk Hp Hq). unfold delta.
      rewrite (Nat.eqb_sym q p). destruct (Nat.eqb p q); ring.
Qed.

(** X14.  The assembled overlap matrix is Hermitian whenever the overlap
    operator is: its entries at [i, j] and [j, i] are conjugate, so the
    generalized solver is handed a Hermitian overlap. *)
Theorem assembled_overlap_hermitian (self : Davidson)
    (n_cur n_exp nsp ng : nat) (C Cexp : coeffs) :
  let el := electrons self in
  let ns := n_spins el in
  let nk := nk_mine el in
  let O := assemble_overlap self n_cur (n_cur + n_exp) C Cexp in
  overlap_hermitian ns nk nsp ng (wfn el) ->
  shape5 ns nk n_cur nsp ng C ->
  shape5 ns nk n_exp nsp ng Cexp ->
  shape5 ns nk n_exp nsp ng (overlap (wfn el) Cexp) ->
  forall s k i j, (s < ns)%nat -> (k < nk)%nat ->
    (i < n_cur + n_exp)%nat -> (j < n_cur + n_exp)%nat ->
    ix4 O s k j i = Cconj (ix4 O s k i j).
Proof.
  intros el ns nk O Hherm HC HCe HOe s k i j Hs Hk Hi Hj.
  destruct (assemble_overlap_blocks self n_cur n_exp nsp ng C Cexp HC HOe)
    as [_ HOb].
  destruct (HOb s k Hs Hk) as [O11 [O12 [O21 O22]]]. fold O in O11, O12, O21, O22.
  destruct (Nat.lt_ge_cases i n_cur) as [Hi'|Hi'];
    destruct (Nat.lt_ge_cases j n_cur) as [Hj'|Hj'].
  - rewrite !O11 by assumption. unfold delta. rewrite (Nat.eqb_sym j i).
    destruct (Nat.eqb i j); [apply eq_sym, Cconj_1 | apply eq_sym, Cconj_0].
  - replace j with (n_cur + (j - n_cur))%nat by lia.
    rewrite O21, O12 by lia. reflexivity.
  - replace i with (n_cur + (i - n_cur))%nat by lia.
    rewrite O21, O12 by lia. now rewrite Cconj_conj.
  - replace i with (n_cur + (i - n_cur))%nat by lia.
    replace j with (n_cur + (j - n_cur))%nat by lia.
    rewrite !O22 by lia.
    apply (Hherm n_exp n_exp Cexp Cexp HCe HCe); auto; lia.
Qed.

(* ------------------------------------------------------------------ *)
(** ** The rotations on an example *)
(* ------------------------------------------------------------------ *)

(** Evaluate an entry of a concrete complex tensor and compare. *)
Ltac ceval := cbn; apply complex_eq; cbn; lra.

Lemma toy5_shapes :
  shape5 1 1 1 1 5 block_e1 /\ shape5 1 1 1 1 5 block_me2.
Proof. split; repeat constructor. Qed.

Lemma toy5_orthonormal :
  orthonormal (wfn (electrons toy5)) 1 1 1 block_e1.
Proof.
  intros s k i j Hs Hk Hi Hj.
  destruct s; [|lia]. destruct k; [|lia]. destruct i; [|lia].
  destruct j; [|lia]. unfold delta. ceval.
Qed.

(** The eigenpairs [E5_new], [V5_new] solve the problem assembled from
    [e1] and [-e2]. *)
Lemma toy5_contract :
  eighg_contract 1 1 2
    (assemble_hamiltonian toy5 1 2 [[[9]]] block_e1 block_me2
                          (apply_kernel K5 block_me2))
    (assemble_overlap toy5 1 2 block_e1 block_me2) E5_new V5_new.
Proof.
  split; [repeat constructor|]. split; [repeat constructor|].
  intros s k i j Hs Hk Hi Hj.
  destruct s; [|lia]. destruct k; [|lia].
  destruct i as [|[|i]]; [| |lia]; destruct j as [|[|j]]; try lia;
    unfold quad_form, delta; split; ceval.
Qed.

(** [e1] rotated with [-e2] by the eigenvectors of the expanded problem. *)
Lemma update_keeps_orthonormal_witness :
  orthonormal (wfn (electrons toy5)) 1 1 1
    (fst (fst (fst (update_subspace toy5 st5 block_me2
                      (apply_kernel K5 block_me2) E5_new V5_new)))).
Proof.
  exact (update_keeps_orthonormal toy5 1 5 1 1 st5 block_me2
           (apply_kernel K5 block_me2) _ E5_new V5_new
           (toy_collaborators_ok 5 1 0 1 K5) ltac:(lia) ltac:(lia)
           (proj1 toy5_shapes) (proj2 toy5_shapes)
           toy5_orthonormal toy5_contract).
Defined.

Lemma update_keeps_image_witness :
  let r := update_subspace toy5 st5 block_me2 (apply_kernel K5 block_me2)
                           E5_new V5_new in
  snd (fst (fst r)) = apply_kernel K5 (fst (fst (fst r))).
Proof.
  exact (update_keeps_image toy5 1 5 1 1 st5 block_me2 E5_new V5_new
           (apply_kernel_linear K5 1 1 1 5) ltac:(cbn; lia) ltac:(cbn; lia)
           ltac:(lia) ltac:(lia) (proj1 toy5_shapes) (proj2 toy5_shapes)
           ltac:(repeat constructor) eq_refl).
Defined.

(** The initial block [e1]: its subspace Hamiltonian is the number 9. *)
Lemma initial_subspace_eigenbasis_witness :
  let self := toy_davidson (const_solvers [[[9]]] [[[[C1]]]]) 5 1 0 K5 in
  exists C HC,
    initial_subspace self block_e1 [] =
      ([ApplyH block_e1], inr ([[[9]]], C, HC))
    /\ ix4 (dot C HC) 0 0 0 0 = Cmul (RtoC 9) (delta 0 0).
Proof.
  intros self.
  destruct (initial_subspace_eigenbasis self 1 5 1 block_e1 [[[9]]]
              [[[[C1]]]] []) as [C [HC [Hrun [Hdiag _]]]].
  - cbn; lia.
  - cbn; lia.
  - lia.
  - repeat constructor.
  - repeat constructor.
  - reflexivity.
  - split; [repeat constructor|]. split; [repeat constructor|].
    intros s k i j Hs Hk Hi Hj.
    destruct s; [|cbn in Hs; lia]. destruct k; [|cbn in Hk; lia].
    destruct i; [|lia]. destruct j; [|lia].
    unfold quad_form, delta. split; ceval.
  - exists C, HC. split; [exact Hrun|].
    apply Hdiag; cbn; lia.
Defined.

Lemma assembled_overlap_hermitian_witness :
  ix4 (assemble_overlap toy5 1 2 block_e1 block_me2) 0 0 1 0 =
  Cconj (ix4 (assemble_overlap toy5 1 2 block_e1 block_me2) 0 0 0 1).
Proof.
  apply (assembled_overlap_hermitian toy5 1 1 1 5 block_e1 block_me2
           (proj1 (proj2 (proj2 (proj2 (toy_collaborators_ok 5 1 0 1 K5)))))
           (proj1 toy5_shapes) (proj2 toy5_shapes) (proj2 toy5_shapes));
    cbn; lia.
Defined.

(* ================================================================== *)
(** * The invariant of the loop *)
(* ================================================================== *)

(** A block rotated by a unitary matrix stays orthonormal. *)
Lemma unitary_rotation_orthonormal (w : WavefunctionOps)
    (ns nk nsp ng n : nat) (C : coeffs) (V : tensor4) :
  band_linear ns nk nsp ng (overlap w) ->
  (0 < n)%nat -> shape5 ns nk n nsp ng C -> shape4 ns nk n n V ->
  (forall s k i j, (s < ns)%nat -> (k < nk)%nat -> (i < n)%nat ->
     (j < n)%nat ->
     Csum n (fun p => Cmul (Cconj (ix4 V s k p i)) (ix4 V s k p j))
       = delta i j) ->
  orthonormal w ns nk n C -> orthonormal w ns nk n (matmul C V).
Proof.
  intros [HOs [_ HOmix]] Hn HC HV Hunit Horth s k i j Hs Hk Hi Hj.
  unfold dot_overlap. rewrite (HOmix n n C V Hn HC HV).
  rewrite (dot_matmul ns nk n n nsp ng) by (auto; now apply HOs).
  unfold quad_form. rewrite <- (Hunit s k i j Hs Hk Hi Hj).
  apply Csum_ext; intros p Hp.
  rewrite (Csum_ext n _ (fun q => if Nat.eqb q p
                                  then Cmul (Cconj (ix4 V s k p i))
                                            (ix4 V s k q j)
                                  else C0)).
  - now rewrite Csum_delta.
  - intros q Hq.
    change (dot C (overlap w C)) with (dot_overlap w C C).
    rewrite (Horth s k p q Hs Hk Hp Hq). unfold delta.
    rewrite (Nat.eqb_sym q p). destruct (Nat.eqb p q); ring.
Qed.

Lemma ix3_bands_upto (n : nat) (T : tensor3R) (s k i : nat) :
  (i < n)%nat -> ix3 (bands_upto n T) s k i = ix3 T s k i.
Proof.
  intros Hi. unfold ix3, bands_upto.
  rewrite (nth_map_sk _ _ (firstn n (A:=R))) by apply firstn_nil.
  rewrite nth_firstn. apply Nat.ltb_lt in Hi. now rewrite Hi.
Qed.

(** The Ritz relation after the truncation: if [C^HC = diag(E)] and the
    operator is Hermitian, the assembled matrix is the subspace Hamiltonian
    of [[C, Cexp]], so eigenvectors that diagonalize it give bands whose
    subspace Hamiltonian is the diagonal of the retained eigenvalues. *)
Lemma rotated_ritz (self : Davidson) (nsp ng n ne : nat)
    (C Cexp : coeffs) (E : tensor3R) (Om : tensor4) (E_new : tensor3R)
    (V_new : tensor4) :
  let el := electrons self in
  let ns := n_spins el in
  let nk := nk_mine el in
  let n' := Nat.min (n + ne) (n_bands el + n_bands_extra el) in
  let Vcur := rows_upto_cols_upto n n' V_new in
  let Vexp := rows_from_cols_upto n n' V_new in
  let HC := hamiltonian el C in
  let HCexp := hamiltonian el Cexp in
  (forall nb X, shape5 ns nk nb nsp ng X ->
                shape5 ns nk nb nsp ng (hamiltonian el X)) ->
  operator_hermitian ns nk nsp ng (hamiltonian el) ->
  (0 < n)%nat -> (0 < ne)%nat ->
  shape5 ns nk n nsp ng C -> shape5 ns nk ne nsp ng Cexp ->
  shape3 ns nk n E ->
  ritz ns nk n C HC E ->
  eighg_contract ns nk (n + ne)
                 (assemble_hamiltonian self n (n + ne) E C Cexp HCexp) Om
                 E_new V_new ->
  ritz ns nk n' (coeffs_add (matmul C Vcur) (matmul Cexp Vexp))
       (coeffs_add (matmul HC Vcur) (matmul HCexp Vexp))
       (bands_upto n' E_new).
Proof.
  intros el ns nk n' Vcur Vexp HC HCexp HHsh Hherm Hn Hne HCs HCe HE Hritz
         Hsolve.
  destruct Hsolve as [HEn [HVn Hquad]].
  assert (Hn' : (n' <= n + ne)%nat) by (unfold n'; lia).
  assert (HVc : shape4 ns nk n n' Vcur)
    by (apply (rows_upto_shape ns nk (n + ne)); auto; lia).
  assert (HVe : shape4 ns nk ne n' Vexp).
  { replace ne with (n + ne - n)%nat at 1 by lia.
    now apply (rows_from_shape ns nk (n + ne)). }
  assert (HHCs : shape5 ns nk n nsp ng HC) by now apply HHsh.
  assert (HHCe : shape5 ns nk ne nsp ng HCexp) by now apply HHsh.
  destruct (assemble_hamiltonian_blocks self n ne nsp ng E C Cexp HCexp
              HCs HHCe HE) as [_ HHb].
  intros s k i j Hs Hk Hi Hj.
  rewrite ix3_bands_upto by assumption.
  destruct (HHb s k Hs Hk) as [H11 [H12 [H21 H22]]].
  rewrite (dot_mix ns nk n ne n' nsp ng C Cexp HC HCexp Vcur Vexp V_new
             (assemble_hamiltonian self n (n + ne) E C Cexp HCexp));
    try assumption.
  - apply Hquad; auto; lia.
  - intros p c Hp Hc. unfold Vcur. now rewrite ix4_rows_upto.
  - intros p c Hp Hc. unfold Vexp. now rewrite ix4_rows_from.
  - intros p q Hp Hq. rewrite H11 by assumption. symmetry. now apply Hritz.
  - intros p q Hp Hq. rewrite H21 by assumption.
    symmetry. now apply (Hherm ne n Cexp C).
Qed.

(** One iteration keeps the invariant, and leaves a count below the number
    of bands held unless it reports convergence. *)
Lemma iteration_keeps_inv (self : Davidson) (nsp ng n : nat) (nit : Z)
    (thr : R) (helper inner : bool) (i : nat) (st : loop_state)
    (log : list event) :
  let el := electrons self in
  collaborators_ok self nsp ng ->
  band_linear (n_spins el) (nk_mine el) nsp ng (hamiltonian el) ->
  subspace_inv self nsp ng n st ->
  (st_n_eigs_done st < n)%nat ->
  match snd (iteration self nit thr helper inner i st log) with
  | inr (st', stop) =>
      exists n', subspace_inv self nsp ng n' st'
                 /\ (n' <= n_bands el + n_bands_extra el)%nat
                 /\ (stop = false -> (st_n_eigs_done st' < n')%nat)
                 /\ (operator_hermitian (n_spins el) (nk_mine el) nsp ng
                                        (hamiltonian el) ->
                     ritz (n_spins el) (nk_mine el) n
                          (st_C st) (st_HC st) (st_E st) ->
                     ritz (n_spins el) (nk_mine el) n'
                          (st_C st') (st_HC st') (st_E st'))
  | inl _ => True
  end.
Proof.
  intros el Hok Hlin [Hsh [Horth [Himg Hnb]]] Hact.
  pose proof Hok as [Hns [Hnk [HOlin [Hherm [Hrand [HHsh Hsolv]]]]]].
  fold el in Hns, Hnk, HOlin, Hherm, Hrand, HHsh, Hsolv.
  set (ns := n_spins el) in *. set (nk := nk_mine el) in *.
  pose proof Hsh as [HC [HHC HE]]. fold el ns nk in HC, HHC, HE.
  fold el in Hnb.
  set (d := st_n_eigs_done st) in *.
  set (ne := (n - d)%nat).
  assert (Hn : (0 < n)%nat) by lia.
  assert (Hne : (0 < ne)%nat) by (unfold ne; lia).
  assert (HCe : shape5 ns nk ne nsp ng (expansion self i st))
    by (apply expansion_shape; assumption).
  rewrite iteration_run. cbv zeta. fold el.
  rewrite (n_bands_of_shape ns nk n nsp ng (st_C st) Hns Hnk HC).
  rewrite (n_bands_of_shape ns nk ne nsp ng _ Hns Hnk HCe).
  set (Cexp := expansion self i st) in *.
  assert (HHCe : shape5 ns nk ne nsp ng (hamiltonian el Cexp))
    by now apply HHsh.
  assert (HOCe : shape5 ns nk ne nsp ng (overlap (wfn el) Cexp))
    by now apply (proj1 HOlin).
  destruct (assemble_overlap_blocks self n ne nsp ng (st_C st) Cexp HC HOCe)
    as [HOsh _].
  destruct (assemble_hamiltonian_blocks self n ne nsp ng (st_E st) (st_C st)
              Cexp (hamiltonian el Cexp) HC HHCe HE) as [HHmsh _].
  destruct (eighg _ _ _) as [[E_new V_new]|] eqn:Hsolve; [|exact I].
  pose proof (proj2 Hsolv (n + ne)%nat _ _ E_new V_new HHmsh HOsh Hsolve)
    as Hcontract.
  rewrite (update_subspace_eq self nsp ng n ne st Cexp _ E_new V_new
             Hns Hnk HC HCe).
  destruct (tensor_max _) as [m|]; [|exact I].
  cbn [snd]. fold el.
  set (n' := Nat.min (n + ne) (n_bands el + n_bands_extra el)).
  assert (Hn' : (n' <= n + ne)%nat) by (unfold n'; lia).
  pose proof Hcontract as [HEn [HVn _]].
  assert (HVc : shape4 ns nk n n' (rows_upto_cols_upto n n' V_new))
    by (apply (rows_upto_shape ns nk (n + ne)); auto; lia).
  exists n'. split; [|split; [|split]]; cycle 3.
  { cbn [st_C st_HC st_E]. intros Hherm' Hritz. rewrite Himg in Hritz |- *.
    exact (rotated_ritz self nsp ng n ne (st_C st) Cexp (st_E st) _
             E_new V_new HHsh Hherm' Hn Hne HC HCe HE Hritz Hcontract). }
  - split; [|split; [|split]].
    + split; [|split]; cbn [st_C st_HC st_E]; fold el ns nk.
      * now apply (mix_shape ns nk n ne n' nsp ng).
      * now apply (mix_shape ns nk n ne n' nsp ng).
      * replace n' with (Nat.min n' (n + ne)) at 1 by lia.
        now apply bands_upto_shape3.
    + cbn [st_C]. fold el ns nk.
      exact (rotated_orthonormal self nsp ng n ne (st_C st) Cexp _
               E_new V_new Hok Hn Hne HC HCe Horth Hcontract).
    + cbn [st_C st_HC]. rewrite Himg.
      apply (rotated_image ns nk nsp ng n ne); auto.
    + fold el. unfold n'. lia.
  - unfold n'. lia.
  - cbn [st_n_eigs_done]. intros Hstop. apply Nat.eqb_neq in Hstop.
    assert ((allreduce Nat.min (first_pending (n_bands el) 
               (abs_diff (st_E st) (bands_upto n E_new)) thr)
               (comm_kb_others_min (rc el) i) <= n_bands el)%nat).
    { eapply Nat.le_trans; [apply allreduce_min_le | apply first_pending_le]. }
    unfold n'. lia.
Qed.

(** Any number of passes through the loop keeps the invariant, and the
    Ritz relation with it when the Hamiltonian is Hermitian. *)
Lemma iterations_inv_aux (self : Davidson) (nsp ng : nat) (nit : Z)
    (thr : R) (helper inner : bool) (fuel i n : nat) (st : loop_state)
    (log : list event) :
  let el := electrons self in
  collaborators_ok self nsp ng ->
  band_linear (n_spins el) (nk_mine el) nsp ng (hamiltonian el) ->
  subspace_inv self nsp ng n st ->
  (st_n_eigs_done st < n)%nat ->
  match snd (iterations self nit thr helper inner fuel i st log) with
  | inr st' =>
      exists n', subspace_inv self nsp ng n' st'
                 /\ (operator_hermitian (n_spins el) (nk_mine el) nsp ng
                                        (hamiltonian el) ->
                     ritz (n_spins el) (nk_mine el) n
                          (st_C st) (st_HC st) (st_E st) ->
                     ritz (n_spins el) (nk_mine el) n'
                          (st_C st') (st_HC st') (st_E st'))
  | inl _ => True
  end.
Proof.
  intros el Hok Hlin. revert i n st log.
  induction fuel as [|fuel IH]; intros i n st log Hinv Hact;
    cbn [iterations].
  - cbn. exists n. split; [assumption|]. intros _ H. exact H.
  - unfold bind.
    pose proof (iteration_keeps_inv self nsp ng n nit thr helper inner i st
                  log Hok Hlin Hinv Hact) as Hstep.
    destruct (iteration self nit thr helper inner i st log)
      as [log1 [ex|[st1 stop]]]; cbn [snd] in Hstep; [exact I|].
    destruct Hstep as [n1 [Hinv1 [_ [Hact1 Hritz1]]]].
    destruct stop.
    + cbn. exists n1. split; assumption.
    + pose proof (IH (S i) n1 st1 log1 Hinv1 (Hact1 eq_refl)) as Hrest.
      destruct (iterations self nit thr helper inner fuel (S i) st1 log1)
        as [log2 [ex|st2]]; cbn [snd] in Hrest |- *; [exact I|].
      destruct Hrest as [n2 [Hinv2 Hritz2]].
      exists n2. split; [assumption|].
      intros Hherm Hritz. apply Hritz2; [assumption|]. now apply Hritz1.
Qed.

(** A call that does not raise ends in a loop state that satisfies the
    invariant, and the Ritz relation when the Hamiltonian is Hermitian; what
    it hands back is read off that state. *)
Lemma call_inv_aux (self : Davidson) (nsp ng n : nat)
    (Cin : coeffs) (nit : option Z) (e : option R) (helper : bool)
    (log : list event) :
  let el := electrons self in
  let ns := n_spins el in
  let nk := nk_mine el in
  collaborators_ok self nsp ng ->
  band_linear ns nk nsp ng (hamiltonian el) ->
  shape5 ns nk n nsp ng Cin ->
  (0 < n)%nat -> (n_bands el <= n)%nat ->
  orthonormal (wfn el) ns nk n Cin ->
  match snd (__call__ self Cin nit e helper log) with
  | inr o =>
      exists n' st',
        o = (if helper then Returned (st_E st') (st_C st') (st_HC st')
             else Stored (st_C st') (st_E st'))
        /\ subspace_inv self nsp ng n' st'
        /\ (operator_hermitian ns nk nsp ng (hamiltonian el) ->
            ritz ns nk n' (st_C st') (st_HC st') (st_E st'))
  | inl _ => True
  end.
Proof.
  intros el ns nk Hok Hlin HCin Hn Hnb Horth.
  pose proof Hok as [Hns [Hnk [HOlin [_ [_ [HHsh Hsolv]]]]]].
  fold el ns nk in Hns, Hnk, HOlin, HHsh, Hsolv.
  unfold __call__. fold el.
  destruct (Nat.leb _ _); [exact I|].
  unfold initial_subspace, bind, emit, lift_solver. fold el.
  assert (HHC : shape5 ns nk n nsp ng (hamiltonian el Cin)) by now apply HHsh.
  destruct (eigh _ _) as [[E V]|] eqn:Heigh; [|exact I].
  pose proof (proj1 Hsolv n _ E V
                (dot_shape ns nk n n nsp ng Cin _ HCin HHC) Heigh)
    as [HE [HV Hcontract]].
  unfold ret at 1 2. rewrite report_run.
  set (st0 := Build_loop_state _ _ _ _).
  assert (Hinv0 : subspace_inv self nsp ng n st0).
  { split; [|split; [|split]]; fold el ns nk.
    - split; [|split]; cbn [st0 st_C st_HC st_E]; fold el ns nk.
      + now apply (matmul_shape ns nk n n nsp ng).
      + now apply (matmul_shape ns nk n n nsp ng).
      + assumption.
    - cbn [st0 st_C].
      apply (unitary_rotation_orthonormal (wfn el) ns nk nsp ng n);
        try assumption.
      intros s k i j Hs Hk Hi Hj. now apply Hcontract.
    - cbn [st0 st_C st_HC]. symmetry.
      now apply (proj2 (proj2 Hlin) n n Cin V Hn HCin HV).
    - assumption. }
  assert (Hritz0 : ritz ns nk n (st_C st0) (st_HC st0) (st_E st0)).
  { intros s k i j Hs Hk Hi Hj. cbn [st0 st_C st_HC st_E].
    rewrite (dot_matmul ns nk n n nsp ng) by assumption.
    now apply Hcontract. }
  match goal with
  | |- context [iterations ?a ?b ?c ?d ?f ?g ?h st0 ?l] =>
      pose proof (iterations_inv_aux a nsp ng b c d f g h n st0 l
                    Hok Hlin Hinv0 Hn) as Hloop;
      destruct (iterations a b c d f g h st0 l) as [log' [ex|st']]
  end; cbn [snd] in Hloop |- *; [exact I|].
  destruct Hloop as [n' [Hinv' Hritz']]. fold el ns nk in Hritz'.
  assert (Hend : forall Hh : operator_hermitian ns nk nsp ng (hamiltonian el),
             ritz ns nk n' (st_C st') (st_HC st') (st_E st'))
    by (intros Hh; now apply Hritz').
  destruct helper; unfold ret; cbn [snd]; exists n', st';
    (split; [reflexivity|split; assumption]).
Qed.

(** X15.  The invariant of the loop.  Given collaborators as the solver
    assumes them and a Hamiltonian that is linear on the bands, any number of
    passes through the loop, started in a state that holds at least
    [n_bands] orthonormal bands with [HC] the image of [C] and a converged
    count below the number of bands held, ends -- unless a dense solver or
    the maximum raises -- in a state that again holds at least [n_bands]
    orthonormal bands with [HC] the image of [C]. *)
Theorem iterations_keep_inv (self : Davidson) (nsp ng : nat) (nit : Z)
    (thr : R) (helper inner : bool) (fuel i n : nat) (st : loop_state)
    (log : list event) :
  let el := electrons self in
  collaborators_ok self nsp ng ->
  band_linear (n_spins el) (nk_mine el) nsp ng (hamiltonian el) ->
  subspace_inv self nsp ng n st ->
  (st_n_eigs_done st < n)%nat ->
  match snd (iterations self nit thr helper inner fuel i st log) with
  | inr st' => exists n', subspace_inv self nsp ng n' st'
  | inl _ => True
  end.
Proof.
  intros el Hok Hlin Hinv Hact.
  pose proof (iterations_inv_aux self nsp ng nit thr helper inner fuel i n
                st log Hok Hlin Hinv Hact) as H.
  destruct (snd (iterations self nit thr helper inner fuel i st log))
    as [ex|st']; [exact I|].
  destruct H as [n' [H _]]. now exists n'.
Qed.

(** X16.  Orthonormality over a whole call.  Given collaborators as the
    solver assumes them and a Hamiltonian that is linear on the bands, a
    call on an initial block of at least [n_bands] bands that are
    orthonormal under the overlap metric hands back -- unless it raises --
    a block that is orthonormal under the overlap metric, holds at least
    [n_bands] bands, and comes with its image when it is returned to a
    helper's caller. *)
Theorem call_keeps_orthonormal (self : Davidson) (nsp ng n : nat)
    (Cin : coeffs) (nit : option Z) (e : option R) (helper : bool)
    (log : list event) :
  let el := electrons self in
  let ns := n_spins el in
  let nk := nk_mine el in
  collaborators_ok self nsp ng ->
  band_linear ns nk nsp ng (hamiltonian el) ->
  shape5 ns nk n nsp ng Cin ->
  (0 < n)%nat -> (n_bands el <= n)%nat ->
  orthonormal (wfn el) ns nk n Cin ->
  match snd (__call__ self Cin nit e helper log) with
  | inr (Stored C E) =>
      exists n', (n_bands el <= n')%nat /\ shape5 ns nk n' nsp ng C
                 /\ shape3 ns nk n' E /\ orthonormal (wfn el) ns nk n' C
  | inr (Returned E C HC) =>
      exists n', (n_bands el <= n')%nat /\ shape5 ns nk n' nsp ng C
                 /\ shape3 ns nk n' E /\ orthonormal (wfn el) ns nk n' C
                 /\ HC = hamiltonian el C
  | inl _ => True
  end.
Proof.
  intros el ns nk Hok Hlin HCin Hn Hnb Horth.
  pose proof (call_inv_aux self nsp ng n Cin nit e helper log
                Hok Hlin HCin Hn Hnb Horth) as H.
  destruct (snd (__call__ self Cin nit e helper log)) as [ex|o]; [exact I|].
  destruct H as [n' [st' [Ho [[[HC' [HHC' HE']] [Horth' [Himg' Hnb']]] _]]]].
  fold el ns nk in HC', HHC', HE', Horth', Himg', Hnb'.
  destruct helper; subst o; exists n'.
  - split; [exact Hnb'|]. split; [exact HC'|]. split; [exact HE'|].
    split; [exact Horth'|exact Himg'].
  - split; [exact Hnb'|]. split; [exact HC'|]. split; [exact HE'|].
    exact Horth'.
Qed.

Lemma list_eqb_true (A : Type) (eqb : A -> A -> bool) :
  (forall a b, eqb a b = true -> a = b) ->
  forall l1 l2, list_eqb eqb l1 l2 = true -> l1 = l2.
Proof.
  intros Heq. induction l1 as [|a l1 IH]; destruct l2 as [|b l2]; cbn;
    try discriminate; auto.
  intros H. apply andb_true_iff in H as [Hab Hl].
  f_equal; auto.
Qed.

Lemma list_eqb_refl (A : Type) (eqb : A -> A -> bool) :
  (forall a, eqb a a = true) -> forall l, list_eqb eqb l l = true.
Proof.
  intros Hr. induction l as [|a l IH]; cbn; [reflexivity|].
  now rewrite Hr, IH.
Qed.

Lemma Ceqb_true (a b : complex) : Ceqb a b = true -> a = b.
Proof.
  unfold Ceqb. intros H. apply andb_true_iff in H as [H1 H2].
  apply Reqb_true in H1, H2. now apply complex_eq.
Qed.

Lemma Ceqb_refl (a : complex) : Ceqb a a = true.
Proof. unfold Ceqb. now rewrite !Reqb_refl. Qed.

Lemma tensor4_eqb_true (A B : tensor4) : tensor4_eqb A B = true -> A = B.
Proof.
  unfold tensor4_eqb. apply list_eqb_true. apply list_eqb_true.
  apply list_eqb_true. apply list_eqb_true. exact Ceqb_true.
Qed.

Lemma tensor4_eqb_refl (A : tensor4) : tensor4_eqb A A = true.
Proof.
  unfold tensor4_eqb. apply list_eqb_refl. apply list_eqb_refl.
  apply list_eqb_refl. apply list_eqb_refl. exact Ceqb_refl.
Qed.

Ltac tensor_eq tac :=
  repeat match goal with
    | |- (_ :: _) = (_ :: _) => apply (f_equal2 (@cons _))
    | |- [] = [] => reflexivity
    | |- @eq complex _ _ => apply complex_eq; cbn
    | |- @eq R _ _ => tac
    end.

Lemma precond_divisor_1 : 1 < precond_divisor 1 <= 2.
Proof.
  unfold precond_divisor.
  match goal with |- context [exp ?x] =>
    pose proof (exp_pos x) as Hpos;
    assert (Hlt : exp x < exp 0) by (apply exp_increasing; lra)
  end.
  rewrite exp_0 in Hlt. lra.
Qed.

Lemma toy5_expansion : expansion toy5_solved 1 st5 = block_me2.
Proof.
  rewrite expansion_eq. cbv zeta.
  cbn [st_n_eigs_done st5 Nat.eqb st_C st_HC st_E].
  set (res := coeffs_sub _ _).
  set (ke := norm_ke _ _).
  assert (Hke : ke = [[[1]]]).
  { unfold ke. cbn. tensor_eq ltac:(unfold Cabs2; cbn; lra). }
  assert (Hres : res = [[[[[C0; mkC (-12) 0; C0; C0; C0]]]]]).
  { unfold res. cbn. tensor_eq lra. }
  rewrite Hke, Hres. clear ke res Hke Hres.
  pose proof precond_divisor_1 as Hd.
  set (d := precond_divisor 1) in *.
  set (Cexp := _precondition _ _ _).
  assert (HCexp : Cexp = [[[[[C0; mkC (-12 / d) 0; C0; C0; C0]]]]]).
  { unfold Cexp. cbn -[precond_divisor]. replace (1 / 1) with 1 by lra.
    fold d. tensor_eq ltac:(unfold Rdiv; lra). }
  rewrite HCexp. clear Cexp HCexp.
  set (nrm := norm_band _ _).
  assert (Hnrm : nrm = [[[12 / d]]]).
  { unfold nrm. cbn. unfold Cabs2. cbn.
    match goal with |- [[[sqrt ?x]]] = _ =>
      replace x with ((12 / d) * (12 / d)) by (field; lra)
    end.
    rewrite sqrt_square; [reflexivity|].
    apply Rlt_le, Rdiv_lt_0_compat; lra. }
  rewrite Hnrm. clear nrm Hnrm.
  assert (Hcut : _norm_cut toy5_solved <= 1).
  { unfold _norm_cut. cbn.
    match goal with |- sqrt ?x <= 1 =>
      apply Rle_trans with (sqrt 1); [apply sqrt_le_1_alt|rewrite sqrt_1; lra]
    end. lra. }
  assert (Hbig : 1 < 12 / d).
  { apply Rmult_lt_reg_r with d; [lra|]. unfold Rdiv.
    rewrite Rmult_assoc, Rinv_l; lra. }
  assert (Hreg : _regularize toy5_solved
                   [[[[[C0; mkC (-12 / d) 0; C0; C0; C0]]]]] [[[12 / d]]] 1
                 = ([[[[[C0; mkC (-12 / d) 0; C0; C0; C0]]]]], [[[12 / d]]])).
  { unfold _regularize. cbn -[_norm_cut].
    replace (Rltb (12 / d) (_norm_cut toy5_solved)) with false
      by (symmetry; apply Rltb_false; lra).
    reflexivity. }
  rewrite Hreg. cbn. unfold block_me2.
  tensor_eq ltac:(cbn; field; lra).
Qed.

Lemma toy5_first_problem :
  dot block_e1 (apply_kernel K5 block_e1) = H5_first.
Proof. cbn. unfold H5_first. tensor_eq ltac:(cbn; lra). Qed.

Lemma toy5_first_rotation :
  matmul block_e1 [[[[C1]]]] = block_e1
  /\ matmul (apply_kernel K5 block_e1) [[[[C1]]]] = apply_kernel K5 block_e1.
Proof. split; cbn; unfold block_e1; tensor_eq ltac:(cbn; lra). Qed.

Lemma toy5_problem :
  assemble_hamiltonian toy5_solved 1 2 [[[9]]] block_e1 block_me2
                       (apply_kernel K5 block_me2) = H5_new
  /\ assemble_overlap toy5_solved 1 2 block_e1 block_me2 = O5_new.
Proof. split; cbn; unfold H5_new, O5_new; tensor_eq ltac:(cbn; lra). Qed.

Lemma table_solvers_ok : solvers_ok 1 1 table_solvers.
Proof.
  split.
  - intros n M E V HM Heq. cbn in Heq.
    destruct (tensor4_eqb M H5_first) eqn:Hm; [|discriminate].
    apply tensor4_eqb_true in Hm. subst M.
    injection Heq as <- <-.
    assert (Hn : n = 1%nat).
    { symmetry. apply (shape4_len2 _ 1 1 n n H5_first HM); lia. }
    subst n.
    split; [repeat constructor|]. split; [repeat constructor|].
    intros s k i j Hs Hk Hi Hj.
    destruct s; [|lia]. destruct k; [|lia]. destruct i; [|lia].
    destruct j; [|lia]. unfold quad_form, delta; split; ceval.
  - intros n Hm Om E V HHm HOm Heq. cbn in Heq.
    destruct (tensor4_eqb Hm H5_new) eqn:H1; [|discriminate].
    destruct (tensor4_eqb Om O5_new) eqn:H2; [|discriminate].
    apply tensor4_eqb_true in H1, H2. subst Hm Om.
    injection Heq as <- <-.
    assert (Hn : n = 2%nat).
    { symmetry. apply (shape4_len2 _ 1 1 n n H5_new HHm); lia. }
    subst n.
    split; [repeat constructor|]. split; [repeat constructor|].
    intros s k i j Hs Hk Hi Hj.
    destruct s; [|lia]. destruct k; [|lia].
    destruct i as [|[|i]]; [| |lia]; destruct j as [|[|j]]; try lia;
      unfold quad_form, delta; split; ceval.
Qed.

Lemma toy_solved_collaborators_ok (l : DenseSolvers) (n nb nb_extra nsp : nat)
    (K : list (list R)) :
  solvers_ok 1 1 l ->
  collaborators_ok (toy_davidson l n nb nb_extra K) nsp n.
Proof.
  intros Hl.
  destruct (toy_collaborators_ok n nb nb_extra nsp K)
    as [H1 [H2 [H3 [H4 [H5 [H6 _]]]]]].
  unfold collaborators_ok. cbn in *.
  split; [exact H1|]. split; [exact H2|]. split; [exact H3|].
  split; [exact H4|]. split; [exact H5|]. split; [exact H6|exact Hl].
Qed.

Lemma toy5_inv : subspace_inv toy5_solved 1 5 1 st5.
Proof.
  split; [|split; [|split]].
  - split; [|split]; repeat constructor.
  - exact toy5_orthonormal.
  - reflexivity.
  - cbn. lia.
Qed.

(** One pass on [K5] from [e1] runs through: the table knows the expanded
    problem, and the pass leaves the lower eigenvalue 0 with its
    eigenvector [(4/5, 3/5, 0, 0, 0)]. *)
Lemma toy5_pass (nit : Z) (thr : R) (helper inner : bool) (log : list event) :
  exists log' st',
    iterations toy5_solved nit thr helper inner 1 1 st5 log = (log', inr st')
    /\ st_E st' = [[[0]]]
    /\ st_C st' = [[[[[mkC (4 / 5) 0; mkC (3 / 5) 0; C0; C0; C0]]]]].
Proof.
  cbn [iterations]. unfold bind. rewrite iteration_run. cbv zeta.
  rewrite toy5_expansion.
  change (hamiltonian (electrons toy5_solved)) with (apply_kernel K5).
  change (n_bands_of (st_C st5)) with 1%nat.
  change (n_bands_of block_me2) with 1%nat.
  change (st_C st5) with block_e1. change (st_E st5) with [[[9]]].
  change (1 + 1)%nat with 2%nat.
  rewrite (proj1 toy5_problem), (proj2 toy5_problem).
  cbn [eighg linalg toy5_solved toy_davidson table_solvers].
  rewrite !tensor4_eqb_refl. cbn [andb].
  unfold update_subspace. cbv zeta.
  change (n_bands_of (st_C st5)) with 1%nat.
  change (n_bands_of block_me2) with 1%nat.
  change (st_E st5) with [[[9]]].
  change (n_bands (electrons toy5_solved)) with 1%nat.
  change (n_bands_extra (electrons toy5_solved)) with 0%nat.
  change (Nat.min (1 + 1) (1 + 0)) with 1%nat.
  change (abs_diff [[[9]]] (bands_upto 1 E5_new)) with [[[Rabs (9 - 0)]]].
  change (bands_upto 1 E5_new) with [[[0]]].
  change (tensor_max (bands_upto 1 [[[Rabs (9 - 0)]]]))
    with (Some (Rabs (9 - 0))).
  cbv beta iota. unfold ret.
  assert (HC' : coeffs_add (matmul (st_C st5) (rows_upto_cols_upto 1 1 V5_new))
                  (matmul block_me2 (rows_from_cols_upto 1 1 V5_new))
                = [[[[[mkC (4 / 5) 0; mkC (3 / 5) 0; C0; C0; C0]]]]]).
  { cbn. tensor_eq ltac:(cbn; lra). }
  destruct (Nat.eqb _ 1); eexists; eexists;
    (split; [reflexivity|split; [reflexivity|exact HC']]).
Qed.

(** A call on [K5] from [e1] with a budget of one iteration runs through. *)
Lemma toy5_call (helper : bool) (log : list event) :
  exists log' st',
    __call__ toy5_solved block_e1 (Some 1%Z) None helper log =
      (log', inr (if helper
                  then Returned (st_E st') (st_C st') (st_HC st')
                  else Stored (st_C st') (st_E st')))
    /\ st_E st' = [[[0]]]
    /\ st_C st' = [[[[[mkC (4 / 5) 0; mkC (3 / 5) 0; C0; C0; C0]]]]].
Proof.
  unfold __call__.
  change (Nat.leb _ _) with false. cbv iota.
  unfold initial_subspace, bind, emit, lift_solver.
  change (hamiltonian (electrons toy5_solved)) with (apply_kernel K5).
  rewrite toy5_first_problem.
  cbn [eigh linalg toy5_solved toy_davidson table_solvers].
  rewrite tensor4_eqb_refl.
  unfold ret at 1 2. rewrite report_run.
  rewrite (proj1 toy5_first_rotation), (proj2 toy5_first_rotation).
  change (Z.to_nat (n_iterations_of _ (Some 1%Z))) with 1%nat.
  fold st5.
  match goal with
  | |- context [iterations ?a ?b ?c ?d ?f 1 1 st5 ?l] =>
      destruct (toy5_pass b c d f l) as [log' [st' [Hrun [HE HC]]]];
      change a with toy5_solved
  end.
  rewrite Hrun. exists log', st'.
  split; [|split; assumption].
  destruct helper; reflexivity.
Qed.

(** A kernel Hamiltonian with a symmetric kernel is Hermitian. *)
Lemma apply_kernel_hermitian (K : list (list R)) (ns nk nsp ng : nat) :
  (forall g g', nth g' (nth g K []) 0 = nth g (nth g' K []) 0) ->
  operator_hermitian ns nk nsp ng (apply_kernel K).
Proof.
  intros Hsym nb nb' A B HA HB s k i j Hs Hk Hi Hj.
  rewrite (apply_kernel_tab K ns nk nb' nsp ng B HB).
  rewrite (apply_kernel_tab K ns nk nb nsp ng A HA).
  rewrite (dot_tab ns nk nb nb' nsp ng A _ HA (shape5_tab5 _ ns nk nb' nsp ng _)).
  rewrite (dot_tab ns nk nb' nb nsp ng B _ HB (shape5_tab5 _ ns nk nb nsp ng _)).
  rewrite !ix4_tab4 by assumption.
  rewrite Csum_conj. apply Csum_ext; intros sp Hsp.
  rewrite Csum_conj.
  transitivity
    (Csum ng (fun a => Csum ng (fun b =>
       Cmul (Cmul (Cconj (ix5 A s k i sp a)) (RtoC (nth b (nth a K []) 0)))
            (ix5 B s k j sp b)))).
  { apply Csum_ext; intros a Ha. rewrite ix5_tab5 by assumption.
    rewrite <- Csum_mul_l. apply Csum_ext; intros b _.
    rewrite Cscale_mul. ring. }
  rewrite Csum_swap. apply Csum_ext; intros b Hb.
  rewrite ix5_tab5 by assumption.
  rewrite Cconj_mul, Cconj_conj, Csum_conj, <- Csum_mul_l.
  apply Csum_ext; intros a _.
  rewrite Cscale_mul, Cconj_mul, Cconj_RtoC, (Hsym b a). ring.
Qed.

Lemma K5_symmetric (g g' : nat) :
  nth g' (nth g K5 []) 0 = nth g (nth g' K5 []) 0.
Proof.
  destruct g as [|[|[|[|[|g]]]]]; destruct g' as [|[|[|[|[|g']]]]];
    cbn; try reflexivity;
    repeat match goal with
      | |- context [match ?x with O => _ | S _ => _ end] =>
          is_var x; destruct x; cbn
      end; reflexivity.
Qed.

Lemma toy5_ritz :
  ritz 1 1 1 (st_C st5) (st_HC st5) (st_E st5).
Proof.
  intros s k i j Hs Hk Hi Hj.
  destruct s; [|lia]. destruct k; [|lia]. destruct i; [|lia].
  destruct j; [|lia]. unfold delta. ceval.
Qed.

(** One pass on [K5] from [e1]: the invariant holds after it. *)
Lemma iterations_keep_inv_witness :
  exists st' n',
    snd (iterations toy5_solved 1 (/ 10 ^ 8) false false 1 1 st5 []) = inr st'
    /\ subspace_inv toy5_solved 1 5 n' st'.
Proof.
  pose proof (iterations_keep_inv toy5_solved 1 5 1 (/ 10 ^ 8) false false
                1 1 1 st5 []
                (toy_solved_collaborators_ok table_solvers 5 1 0 1 K5
                   table_solvers_ok)
                (apply_kernel_linear K5 1 1 1 5) toy5_inv Nat.lt_0_1) as H.
  destruct (toy5_pass 1 (/ 10 ^ 8) false false []) as [log' [st' [Hrun _]]].
  rewrite Hrun in H. cbn [snd] in H. destruct H as [n' H].
  exists st', n'. rewrite Hrun. split; [reflexivity|exact H].
Defined.

(** A call on [K5] from [e1] with a budget of one iteration: it stores the
    band [(4/5, 3/5, 0, 0, 0)], which is normalized. *)
Lemma call_keeps_orthonormal_witness :
  exists C E n',
    snd (__call__ toy5_solved block_e1 (Some 1%Z) None false []) =
      inr (Stored C E)
    /\ C = [[[[[mkC (4 / 5) 0; mkC (3 / 5) 0; C0; C0; C0]]]]]
    /\ orthonormal (wfn (electrons toy5_solved)) 1 1 n' C.
Proof.
  pose proof (call_keeps_orthonormal toy5_solved 1 5 1 block_e1 (Some 1%Z)
                None false []
                (toy_solved_collaborators_ok table_solvers 5 1 0 1 K5
                   table_solvers_ok)
                (apply_kernel_linear K5 1 1 1 5) (proj1 toy5_shapes)
                Nat.lt_0_1 (le_n 1) toy5_orthonormal) as H.
  destruct (toy5_call false []) as [log' [st' [Hrun [_ HC]]]].
  rewrite Hrun in H. cbn [snd] in H.
  destruct H as [n' [_ [_ [_ Horth]]]].
  exists (st_C st'), (st_E st'), n'. rewrite Hrun.
  split; [reflexivity|]. split; assumption.
Defined.

(** X17.  The truncation step keeps the eigenvalues the Ritz values of the
    bands.  For a Hermitian Hamiltonian that keeps shapes, if [HC] is the
    image of [C] and [C^HC = diag(E)] before the update, and the
    eigenvectors returned for the assembled Hamiltonian matrix diagonalize
    it, then the updated block, image and eigenvalues satisfy
    [C^HC = diag(E)] again -- which is what lets the next iteration write
    [torch.diag_embed(E)] for [C^HC]. *)
Theorem update_keeps_ritz (self : Davidson) (nsp ng n ne : nat)
    (st : loop_state) (Cexp : coeffs) (Om : tensor4) (E_new : tensor3R)
    (V_new : tensor4) :
  let el := electrons self in
  let ns := n_spins el in
  let nk := nk_mine el in
  let r := update_subspace self st Cexp (hamiltonian el Cexp) E_new V_new in
  (0 < ns)%nat -> (0 < nk)%nat ->
  (forall nb X, shape5 ns nk nb nsp ng X ->
                shape5 ns nk nb nsp ng (hamiltonian el X)) ->
  operator_hermitian ns nk nsp ng (hamiltonian el) ->
  (0 < n)%nat -> (0 < ne)%nat ->
  shape5 ns nk n nsp ng (st_C st) -> shape5 ns nk ne nsp ng Cexp ->
  shape3 ns nk n (st_E st) ->
  st_HC st = hamiltonian el (st_C st) ->
  ritz ns nk n (st_C st) (st_HC st) (st_E st) ->
  eighg_contract ns nk (n + ne)
    (assemble_hamiltonian self n (n + ne) (st_E st) (st_C st) Cexp
                          (hamiltonian el Cexp))
    Om E_new V_new ->
  ritz ns nk (Nat.min (n + ne) (n_bands el + n_bands_extra el))
       (fst (fst (fst r))) (snd (fst (fst r))) (snd r).
Proof.
  intros el ns nk r Hns Hnk HHsh Hherm Hn Hne HC HCe HE Himg Hritz Hsolve.
  unfold r.
  rewrite (update_subspace_eq self nsp ng n ne st Cexp _ E_new V_new
             Hns Hnk HC HCe).
  cbn [fst snd]. fold el. rewrite Himg in Hritz |- *.
  exact (rotated_ritz self nsp ng n ne (st_C st) Cexp (st_E st) Om
           E_new V_new HHsh Hherm Hn Hne HC HCe HE Hritz Hsolve).
Qed.

(** On [K5] from [e1] with expansion [-e2]: after the update the block has
    Ritz value 0. *)
Lemma update_keeps_ritz_witness :
  let r := update_subspace toy5 st5 block_me2 (apply_kernel K5 block_me2)
                           E5_new V5_new in
  ritz 1 1 1 (fst (fst (fst r))) (snd (fst (fst r))) (snd r).
Proof.
  apply (update_keeps_ritz toy5 1 5 1 1 st5 block_me2
           (assemble_overlap toy5 1 2 block_e1 block_me2) E5_new V5_new).
  - exact Nat.lt_0_1.
  - exact Nat.lt_0_1.
  - intros nb X HX. now apply (apply_kernel_linear K5 1 1 1 5).
  - apply apply_kernel_hermitian. exact K5_symmetric.
  - exact Nat.lt_0_1.
  - exact Nat.lt_0_1.
  - exact (proj1 toy5_shapes).
  - exact (proj2 toy5_shapes).
  - repeat constructor.
  - reflexivity.
  - exact toy5_ritz.
  - exact toy5_contract.
Defined.

(** X18.  What a call hands back is a set of Ritz pairs.  Given
    collaborators as the solver assumes them and a Hamiltonian that is
    linear on the bands and Hermitian, a call on an orthonormal initial
    block of at least [n_bands] bands hands back -- unless it raises --
    eigenvalues [E] and a block [C] with [C^H(C) = diag(E)] at every spin
    and k: each eigenvalue is the expectation value of the Hamiltonian in
    its band, and the Hamiltonian does not couple the bands. *)
Theorem call_ritz_pairs (self : Davidson) (nsp ng n : nat)
    (Cin : coeffs) (nit : option Z) (e : option R) (helper : bool)
    (log : list event) :
  let el := electrons self in
  let ns := n_spins el in
  let nk := nk_mine el in
  collaborators_ok self nsp ng ->
  band_linear ns nk nsp ng (hamiltonian el) ->
  operator_hermitian ns nk nsp ng (hamiltonian el) ->
  shape5 ns nk n nsp ng Cin ->
  (0 < n)%nat -> (n_bands el <= n)%nat ->
  orthonormal (wfn el) ns nk n Cin ->
  match snd (__call__ self Cin nit e helper log) with
  | inr (Stored C E) =>
      exists n', shape5 ns nk n' nsp ng C /\ shape3 ns nk n' E
                 /\ ritz ns nk n' C (hamiltonian el C) E
  | inr (Returned E C HC) =>
      exists n', shape5 ns nk n' nsp ng C /\ shape3 ns nk n' E
                 /\ ritz ns nk n' C HC E
  | inl _ => True
  end.
Proof.
  intros el ns nk Hok Hlin Hherm HCin Hn Hnb Horth.
  pose proof (call_inv_aux self nsp ng n Cin nit e helper log
                Hok Hlin HCin Hn Hnb Horth) as H.
  destruct (snd (__call__ self Cin nit e helper log)) as [ex|o]; [exact I|].
  destruct H as [n' [st' [Ho [[[HC' [_ HE']] [_ [Himg' _]]] Hritz]]]].
  fold el ns nk in HC', HE', Himg', Hritz.
  specialize (Hritz Hherm).
  destruct helper; subst o; exists n'.
  - split; [exact HC'|]. split; [exact HE'|exact Hritz].
  - split; [exact HC'|]. split; [exact HE'|].
    rewrite <- Himg'. exact Hritz.
Qed.

(** A call on [K5] from [e1] with a budget of one iteration: it stores the
    eigenvalue 0 and the band [(4/5, 3/5, 0, 0, 0)], an eigenpair of the
    upper block of [K5]. *)
Lemma call_ritz_pairs_witness :
  exists C E n',
    snd (__call__ toy5_solved block_e1 (Some 1%Z) None false []) =
      inr (Stored C E)
    /\ E = [[[0]]]
    /\ ritz 1 1 n' C (apply_kernel K5 C) E.
Proof.
  pose proof (call_ritz_pairs toy5_solved 1 5 1 block_e1 (Some 1%Z)
                None false []
                (toy_solved_collaborators_ok table_solvers 5 1 0 1 K5
                   table_solvers_ok)
                (apply_kernel_linear K5 1 1 1 5)
                (apply_kernel_hermitian K5 1 1 1 5 K5_symmetric)
                (proj1 toy5_shapes)
                Nat.lt_0_1 (le_n 1) toy5_orthonormal) as H.
  destruct (toy5_call false []) as [log' [st' [Hrun [HE _]]]].
  rewrite Hrun in H. cbn [snd] in H.
  destruct H as [n' [_ [_ Hritz]]].
  exists (st_C st'), (st_E st'), n'. rewrite Hrun.
  split; [reflexivity|]. split; assumption.
Defined.
